(** * node-sylvester: polygons, lines and segments in 3D

    A shallow embedding of [polygon.js] (classes Polygon and Vertex) and
    of [line.js] (classes Line and Segment).  Vectors, planes, the circular
    linked list and the precision constant belong to files that are not
    among the sources; they are modelled from the specification and marked
    so.

    JavaScript numbers are idealised as real numbers: [Math.sqrt] is
    [sqrt], [Math.acos] is [acos], [Math.abs] is [Rabs], [Math.PI] is
    [PI] and [Math.floor] is [Int_part].  Rounding, infinities and NaN
    are outside the model.  [Math.random] is an oracle: a function from
    the number of the draw to a real of the interval [0, 1).

    A [throw] is the [Throw] outcome of the [result] monad; [null] is
    [None].  Object identity ([===] on objects) is kept for vertices, the
    only objects the code compares by reference. *)

From Stdlib Require Import Reals Lra Lia List Bool Arith ZArith Permutation.
Import ListNotations.
Open Scope R_scope.

(* ------------------------------------------------------------------ *)
(** ** Numbers and booleans *)

Definition Rleb (x y : R) : bool := if Rle_dec x y then true else false.
Definition Rltb (x y : R) : bool := if Rlt_dec x y then true else false.
Definition Reqb (x y : R) : bool := if Req_dec_T x y then true else false.

(** [Math.floor] of a non-negative number, as an array index. *)
Definition floor_index (x : R) : nat := Z.to_nat (Int_part x).

(* ------------------------------------------------------------------ *)
(** ** Exceptions *)

(** The errors the code can raise.  [InvalidOperationError] and
    [DimensionalityMismatchError] are the two classes imported from
    [sylvester.js]; [NoCandidateError] is the plain [Error] of
    [triangulateByEarClipping]; [TypeError] is what the runtime raises
    when a property of [null] is read. *)
Inductive exn : Type :=
| InvalidOperationError
| DimensionalityMismatchError
| NoCandidateError
| TypeError.

Inductive result (A : Type) : Type :=
| Return (a : A)
| Throw (e : exn).
Arguments Return {A} a.
Arguments Throw {A} e.

Definition bind {A B} (m : result A) (k : A -> result B) : result B :=
  match m with
  | Return a => k a
  | Throw e => Throw e
  end.

Declare Scope js_scope.
Delimit Scope js_scope with js.
Notation "x <- m ;; k" := (bind m (fun x => k))
  (at level 61, m at next level, right associativity) : js_scope.
Open Scope js_scope.

Definition fmap {A B} (f : A -> B) (m : result A) : result B :=
  x <- m ;; Return (f x).

(** Reading a property of a value that may be [null]. *)
Definition deref {A} (o : option A) : result A :=
  match o with
  | Some a => Return a
  | None => Throw TypeError
  end.

(** [Array.prototype.some] and [CircularLinkedList.some] with a callback
    that may throw: the scan stops at the first [true], and at the first
    exception. *)
Fixpoint someM {A} (f : A -> result bool) (l : list A) : result bool :=
  match l with
  | [] => Return false
  | a :: l' => b <- f a ;; if b then Return true else someM f l'
  end.

(** A [forEach] or [for] loop over a sequence whose body may throw. *)
Fixpoint mapM {A B} (f : A -> result B) (l : list A) : result (list B) :=
  match l with
  | [] => Return []
  | a :: l' => b <- f a ;; bs <- mapM f l' ;; Return (b :: bs)
  end.

(* ------------------------------------------------------------------ *)
(** ** The precision constant *)

Module Sylvester.

(** Modelled from the spec: [sylvester.js] is not among the sources.  The
    global numeric-precision constant, the default tolerance of every
    equality, containment and parallelism predicate.  The library's
    value is 1e-6; the general theorems below use only that it is
    positive and less than 1. *)
Definition precision : R := / 1000000.

End Sylvester.

(* ------------------------------------------------------------------ *)
(** ** Vector *)

Module Vector.

(** Modelled from the spec: [vector.js] is not among the sources.  A
    vector of three components, [elements[0..2]]: every vector that Line,
    Segment and Polygon handle has been through [to3D] or
    [Vector.toElements(_, 3)]. *)
Record t : Type := V3 { E0 : R; E1 : R; E2 : R }.

(** Modelled from the spec: [Vector.Zero(3)]. *)
Definition Zero3 : t := V3 0 0 0.

(** Modelled from the spec: [add], of the Vector contract. *)
Definition add (a b : t) : t :=
  V3 (E0 a + E0 b) (E1 a + E1 b) (E2 a + E2 b).

(** Modelled from the spec: [subtract], of the Vector contract. *)
Definition subtract (a b : t) : t :=
  V3 (E0 a - E0 b) (E1 a - E1 b) (E2 a - E2 b).

(** Modelled from the spec: [x(k)], the product by a scalar. *)
Definition x (a : t) (k : R) : t :=
  V3 (E0 a * k) (E1 a * k) (E2 a * k).

(** Modelled from the spec: [dot], of the Vector contract. *)
Definition dot (a b : t) : R :=
  E0 a * E0 b + E1 a * E1 b + E2 a * E2 b.

(** Modelled from the spec: [cross], of the Vector contract. *)
Definition cross (a b : t) : t :=
  V3 (E1 a * E2 b - E2 a * E1 b)
     (E2 a * E0 b - E0 a * E2 b)
     (E0 a * E1 b - E1 a * E0 b).

(** Modelled from the spec: [modulus], of the Vector contract. *)
Definition modulus (a : t) : R := sqrt (dot a a).

(** Modelled from the spec: [angleFrom], the angle in [0, PI] between
    two vectors, [null] when one of them has modulus zero. *)
Definition angleFrom (a b : t) : option R :=
  if Reqb (modulus a * modulus b) 0 then None
  else Some (acos (dot a b / (modulus a * modulus b))).

(** Modelled from the spec: [isParallelTo], the angle is zero within
    epsilon.  No angle ([null]) is falsy at every call site. *)
Definition isParallelTo (a b : t) (epsilon : R) : bool :=
  match angleFrom a b with
  | None => false
  | Some theta => Rleb theta epsilon
  end.

(** Modelled from the spec: [isAntiparallelTo], the angle is PI within
    epsilon. *)
Definition isAntiparallelTo (a b : t) (epsilon : R) : bool :=
  match angleFrom a b with
  | None => false
  | Some theta => Rleb (Rabs (theta - PI)) epsilon
  end.

(** Modelled from the spec: [toUnitVector]; the zero vector has no unit
    vector and is returned as it is. *)
Definition toUnitVector (a : t) : t :=
  if Reqb (modulus a) 0 then a
  else V3 (E0 a / modulus a) (E1 a / modulus a) (E2 a / modulus a).

(** Modelled from the spec: [eql], equality component by component
    within epsilon. *)
Definition eql (a b : t) (epsilon : R) : bool :=
  Rleb (Rabs (E0 a - E0 b)) epsilon &&
  Rleb (Rabs (E1 a - E1 b)) epsilon &&
  Rleb (Rabs (E2 a - E2 b)) epsilon.

End Vector.

(* ------------------------------------------------------------------ *)
(** ** Plane *)

Module Plane.

(** Modelled from the spec: [plane.js] is not among the sources.  A plane
    is an anchor and a unit normal. *)
Record t : Type := mk { anchor : Vector.t; normal : Vector.t }.

(** Modelled from the spec: [new Plane(anchor, normal)]; [Polygon.scale]
    calls it with a normal that is the normal of a plane already. *)
Definition new (anchor normal : Vector.t) : t := mk anchor normal.

(** Modelled from the spec: [contains(point, epsilon)], the membership
    of a point by anchor and normal, within epsilon. *)
Definition contains (p : t) (point : Vector.t) (epsilon : R) : bool :=
  Rleb (Rabs (Vector.dot (normal p) (Vector.subtract (anchor p) point)))
       epsilon.

(** Modelled from the spec: [Plane.fromPoints(a, b, c)], the plane fit
    to three points, anchored at the first, with the unit normal of
    (b - a) x (c - a); [null] when the points are collinear and no plane
    is determined. *)
Definition fromPoints (a b c : Vector.t) : option t :=
  let n := Vector.cross (Vector.subtract b a) (Vector.subtract c a) in
  if Reqb (Vector.modulus n) 0 then None
  else Some (mk a (Vector.toUnitVector n)).

(** Modelled from the spec: [translate(vector)], the plane moved by a
    vector: the anchor moves, the normal stays. *)
Definition translate (p : t) (vector : Vector.t) : t :=
  mk (Vector.add (anchor p) vector) (normal p).

End Plane.

(* ------------------------------------------------------------------ *)
(** ** The ordered ring *)

Module Ring.

(** [linkedlist.js] is not among the sources.  A [CircularLinkedList] is
    modelled as the list of its elements in ring order from [first], and
    a node as its position in that list. *)
Section Elements.
Context {A : Type}.

(** Modelled from the spec: [node.next], the cyclically next node. *)
Definition next (l : list A) (i : nat) : nat := (i + 1) mod length l.

(** Modelled from the spec: [node.prev], the inverse of [next]. *)
Definition prev (l : list A) (i : nat) : nat :=
  (i + (length l - 1)) mod length l.

(** Modelled from the spec: [node.data], for a node of the ring; a
    position outside the ring is the [null] node. *)
Definition data (l : list A) (i : nat) : option A := nth_error l i.

(** Modelled from the spec: [at(i)], the element at [i] modulo the
    length. *)
Definition at_ (l : list A) (i : nat) : option A :=
  nth_error l (i mod length l).

(** Modelled from the spec: the search of [findNode] from position [i]
    on. *)
Fixpoint findFrom (pred : A -> bool) (l : list A) (i : nat) : option nat :=
  match l with
  | [] => None
  | a :: l' => if pred a then Some i else findFrom pred l' (S i)
  end.

(** Modelled from the spec: [findNode(value, predicate)], the first
    node whose data satisfies [predicate(data, value)], or [null]; [pred]
    is the predicate at the value. *)
Definition findNode (l : list A) (pred : A -> bool) : option nat :=
  findFrom pred l 0.

(** Modelled from the spec: the nodes of the ring in the order of
    [forEach] and [some], from the first node on. *)
Definition nodes (l : list A) : list nat := seq 0 (length l).

End Elements.

End Ring.

(** [ToNumber] of a value that is a number or [null]: [null] is 0 in
    arithmetic and in comparisons. *)
Definition toNumber (o : option R) : R :=
  match o with
  | Some r => r
  | None => 0
  end.

(* ------------------------------------------------------------------ *)
(** ** Line *)

Module Line.

Record t : Type := mk { anchor : Vector.t; direction : Vector.t }.

(** The operand of a method that accepts several kinds: a point or a
    line.  A Plane operand is forwarded to [plane.js], and no property
    below passes a Segment. *)
Inductive operand : Type :=
| Point (p : Vector.t)
| OfLine (l : t).

(** [constructor(anchor, direction)] *)
Definition new (anchor direction : Vector.t) : result t :=
  let mod_ := Vector.modulus direction in
  if Reqb mod_ 0 then Throw DimensionalityMismatchError
  else Return (mk anchor
                  (Vector.V3 (Vector.E0 direction / mod_)
                             (Vector.E1 direction / mod_)
                             (Vector.E2 direction / mod_))).

(** [isParallelTo(obj, epsilon)], [obj] a line *)
Definition isParallelTo (this obj : t) (epsilon : R) : bool :=
  let theta := toNumber (Vector.angleFrom (direction this) (direction obj)) in
  Rleb (Rabs theta) epsilon || Rleb (Rabs (theta - PI)) epsilon.

(** The last part of [distanceFrom(obj)]: [obj] is a point.  Over the
    reals the difference [1 - cosTheta * cosTheta] is exact.  In the
    floating point of the code it loses about half of the digits: for a
    point of the line far from the anchor the code's distance is not
    zero and can exceed the precision.  The statements below on
    [contains], [positionOf] and [eql] therefore assert nothing about
    whether a far point of the line is contained. *)
Definition distanceFrom_point (this : t) (P : Vector.t) : R :=
  let A := anchor this in
  let D := direction this in
  let PA1 := Vector.E0 P - Vector.E0 A in
  let PA2 := Vector.E1 P - Vector.E1 A in
  let PA3 := Vector.E2 P - Vector.E2 A in
  let modPA := sqrt (PA1 * PA1 + PA2 * PA2 + PA3 * PA3) in
  if Reqb modPA 0 then 0
  else
    let cosTheta :=
      (PA1 * Vector.E0 D + PA2 * Vector.E1 D + PA3 * Vector.E2 D) / modPA in
    let sin2 := 1 - cosTheta * cosTheta in
    Rabs (modPA * sqrt (if Rltb sin2 0 then 0 else sin2)).

(** [distanceFrom(obj)] *)
Definition distanceFrom (this : t) (obj : operand) : R :=
  match obj with
  | OfLine l =>
      if isParallelTo this l Sylvester.precision
      then distanceFrom_point this (anchor l)
      else
        let N := Vector.toUnitVector
                   (Vector.cross (direction this) (direction l)) in
        let A := anchor this in
        let B := anchor l in
        Rabs ((Vector.E0 A - Vector.E0 B) * Vector.E0 N +
              (Vector.E1 A - Vector.E1 B) * Vector.E1 N +
              (Vector.E2 A - Vector.E2 B) * Vector.E2 N)
  | Point P => distanceFrom_point this P
  end.

(** [contains(obj, epsilon)], [obj] a point *)
Definition contains (this : t) (obj : Vector.t) (epsilon : R) : bool :=
  let dist := distanceFrom this (Point obj) in
  Rleb dist epsilon.

(** [intersects(obj, epsilon)], [obj] a line.  The conjunction is
    short-circuit: the distance is not computed for parallel lines. *)
Definition intersects (this obj : t) (epsilon : R) : bool :=
  negb (isParallelTo this obj Sylvester.precision) &&
  Rleb (distanceFrom this (OfLine obj)) epsilon.

(** [intersectionWith(obj)], [obj] a line *)
Definition intersectionWith (this obj : t) : option Vector.t :=
  if negb (intersects this obj Sylvester.precision) then None
  else
    let P := anchor this in
    let X := direction this in
    let Q := anchor obj in
    let Y := direction obj in
    let X1 := Vector.E0 X in
    let X2 := Vector.E1 X in
    let X3 := Vector.E2 X in
    let Y1 := Vector.E0 Y in
    let Y2 := Vector.E1 Y in
    let Y3 := Vector.E2 Y in
    let PsubQ1 := Vector.E0 P - Vector.E0 Q in
    let PsubQ2 := Vector.E1 P - Vector.E1 Q in
    let PsubQ3 := Vector.E2 P - Vector.E2 Q in
    let XdotQsubP := - X1 * PsubQ1 - X2 * PsubQ2 - X3 * PsubQ3 in
    let YdotPsubQ := Y1 * PsubQ1 + Y2 * PsubQ2 + Y3 * PsubQ3 in
    let XdotX := X1 * X1 + X2 * X2 + X3 * X3 in
    let YdotY := Y1 * Y1 + Y2 * Y2 + Y3 * Y3 in
    let XdotY := X1 * Y1 + X2 * Y2 + X3 * Y3 in
    let k := (XdotQsubP * YdotY / XdotX + XdotY * YdotPsubQ)
             / (YdotY - XdotY * XdotY) in
    Some (Vector.V3 (Vector.E0 P + k * X1)
                    (Vector.E1 P + k * X2)
                    (Vector.E2 P + k * X3)).

(** [eql(line, epsilon)] *)
Definition eql (this line : t) (epsilon : R) : bool :=
  isParallelTo this line epsilon && contains this (anchor line) epsilon.

(** [translate(vector)] *)
Definition translate (this : t) (vector : Vector.t) : result t :=
  let V := vector in
  new (Vector.V3 (Vector.E0 (anchor this) + Vector.E0 V)
                 (Vector.E1 (anchor this) + Vector.E1 V)
                 (Vector.E2 (anchor this) + Vector.E2 V))
      (direction this).

(** [positionOf(point)] *)
Definition positionOf (this : t) (point : Vector.t) : option R :=
  if negb (contains this point Sylvester.precision) then None
  else
    let P := point in
    let A := anchor this in
    let D := direction this in
    Some ((Vector.E0 P - Vector.E0 A) * Vector.E0 D +
          (Vector.E1 P - Vector.E1 A) * Vector.E1 D +
          (Vector.E2 P - Vector.E2 A) * Vector.E2 D).

(** [pointClosestTo(obj)], [obj] a point *)
Definition pointClosestTo (this : t) (obj : Vector.t) : option Vector.t :=
  let P := obj in
  if contains this obj Sylvester.precision then Some obj
  else
    let A := anchor this in
    let D := direction this in
    let D1 := Vector.E0 D in
    let D2 := Vector.E1 D in
    let D3 := Vector.E2 D in
    let A1 := Vector.E0 A in
    let A2 := Vector.E1 A in
    let A3 := Vector.E2 A in
    let x := D1 * (Vector.E1 P - A2) - D2 * (Vector.E0 P - A1) in
    let y := D2 * (Vector.E2 P - A3) - D3 * (Vector.E1 P - A2) in
    let z := D3 * (Vector.E0 P - A1) - D1 * (Vector.E2 P - A3) in
    let V := Vector.V3 (D2 * x - D3 * z) (D3 * y - D1 * x) (D1 * z - D2 * y) in
    let k := distanceFrom this (Point P) / Vector.modulus V in
    Some (Vector.V3 (Vector.E0 P + Vector.E0 V * k)
                    (Vector.E1 P + Vector.E1 V * k)
                    (Vector.E2 P + Vector.E2 V * k)).

(** [reverse()] *)
Definition reverse (this : t) : result t :=
  new (anchor this) (Vector.x (direction this) (-1)).

End Line.

(* ------------------------------------------------------------------ *)
(** ** Segment *)

Module Segment.

Record t : Type := mk { line : Line.t; start : Vector.t; end_ : Vector.t }.

(** [constructor(startPoint, endPoint)] *)
Definition new (startPoint endPoint : Vector.t) : result t :=
  line <- Line.new startPoint (Vector.subtract endPoint startPoint) ;;
  Return (mk line startPoint endPoint).

(** [toVector()] *)
Definition toVector (this : t) : Vector.t :=
  let A := start this in
  let B := end_ this in
  Vector.V3 (Vector.E0 B - Vector.E0 A)
            (Vector.E1 B - Vector.E1 A)
            (Vector.E2 B - Vector.E2 A).

(** [contains(obj)], [obj] a point.  Both tolerances are the default
    one: the method has no epsilon parameter. *)
Definition contains (this : t) (P : Vector.t) : bool :=
  if Vector.eql (start this) P Sylvester.precision then true
  else
    let S := start this in
    let V := Vector.V3 (Vector.E0 S - Vector.E0 P)
                       (Vector.E1 S - Vector.E1 P)
                       (Vector.E2 S - Vector.E2 P) in
    let vect := toVector this in
    Vector.isAntiparallelTo V vect Sylvester.precision &&
    Rleb (Vector.modulus V) (Vector.modulus vect).

(** [eql(segment)] *)
Definition eql (this segment : t) : bool :=
  (Vector.eql (start this) (start segment) Sylvester.precision &&
   Vector.eql (end_ this) (end_ segment) Sylvester.precision) ||
  (Vector.eql (start this) (end_ segment) Sylvester.precision &&
   Vector.eql (end_ this) (start segment) Sylvester.precision).

(** [length()] *)
Definition length (this : t) : R :=
  let A := start this in
  let B := end_ this in
  let C1 := Vector.E0 B - Vector.E0 A in
  let C2 := Vector.E1 B - Vector.E1 A in
  let C3 := Vector.E2 B - Vector.E2 A in
  sqrt (C1 * C1 + C2 * C2 + C3 * C3).

(** [midpoint()] *)
Definition midpoint (this : t) : Vector.t :=
  let A := start this in
  let B := end_ this in
  Vector.V3 ((Vector.E0 B + Vector.E0 A) / 2)
            ((Vector.E1 B + Vector.E1 A) / 2)
            ((Vector.E2 B + Vector.E2 A) / 2).

(** [translate(vector)] *)
Definition translate (this : t) (vector : Vector.t) : result t :=
  let V := vector in
  let S := start this in
  let E := end_ this in
  new (Vector.V3 (Vector.E0 S + Vector.E0 V) (Vector.E1 S + Vector.E1 V)
                 (Vector.E2 S + Vector.E2 V))
      (Vector.V3 (Vector.E0 E + Vector.E0 V) (Vector.E1 E + Vector.E1 V)
                 (Vector.E2 E + Vector.E2 V)).

(** [isParallelTo(obj, epsilon)], [obj] a line *)
Definition isParallelTo (this : t) (obj : Line.t) (epsilon : R) : bool :=
  Line.isParallelTo (line this) obj epsilon.

(** [pointClosestTo(obj)], [obj] a point.  [positionOf] may return
    [null], which is 0 in the comparison. *)
Definition pointClosestTo (this : t) (obj : Vector.t) : option Vector.t :=
  match Line.pointClosestTo (line this) obj with
  | None => None
  | Some P =>
      if contains this P then Some P
      else if Rltb (toNumber (Line.positionOf (line this) P)) 0
           then Some (start this)
           else Some (end_ this)
  end.

End Segment.

(* ------------------------------------------------------------------ *)
(** ** Polygon and Vertex *)

Module Polygon.

(** [class Vertex extends Vector]: the three elements, and the identity
    of the object ([ref]), which the ear test compares with [!==]. *)
Record vertex : Type := mkVertex { ref : nat; elements : Vector.t }.

(** A polygon: the plane ([null] when none was given and none could be
    derived), the main ring, and the two rings of the convex and of the
    reflex vertices.  The three rings share the vertex objects. *)
Record t : Type := mk {
  plane : option Plane.t;
  vertices : list vertex;
  convexVertices : list vertex;
  reflexVertices : list vertex
}.

(** [const vertexCompare = (a, b) => a.eql(b)] *)
Definition vertexCompare (a b : vertex) : bool :=
  Vector.eql (elements a) (elements b) Sylvester.precision.

(** [nodeFor(vertex)] *)
Definition nodeFor (this : t) (v : vertex) : option nat :=
  Ring.findNode (vertices this) (fun data => vertexCompare data v).

(** [node.data] for a node of the main ring; a [null] node raises. *)
Definition dataAt (l : list vertex) (node : nat) : result vertex :=
  deref (Ring.data l node).

Module Vertex.

(** [isConvex(polygon)] *)
Definition isConvex (this : vertex) (polygon : t) : result bool :=
  match nodeFor polygon this with
  | None => Throw InvalidOperationError
  | Some node =>
      let ring := vertices polygon in
      prev <- dataAt ring (Ring.prev ring node) ;;
      next <- dataAt ring (Ring.next ring node) ;;
      let A := Vector.subtract (elements next) (elements this) in
      let B := Vector.subtract (elements prev) (elements this) in
      let theta := toNumber (Vector.angleFrom A B) in
      if Rleb theta Sylvester.precision then Return true
      else if Rleb (Rabs (theta - PI)) Sylvester.precision then Return false
      else
        pl <- deref (plane polygon) ;;
        Return (Rltb 0 (Vector.dot (Vector.cross A B) (Plane.normal pl)))
  end.

(** [isReflex(polygon)] *)
Definition isReflex (this : vertex) (polygon : t) : result bool :=
  result_ <- isConvex this polygon ;;
  Return (negb result_).

End Vertex.

(** The [forEach] of [populateVertexTypeLists]: every vertex of the
    main ring is appended to the convex or to the reflex ring. *)
Fixpoint classify (this : t) (l : list vertex)
  : result (list vertex * list vertex) :=
  match l with
  | [] => Return ([], [])
  | v :: l' =>
      b <- Vertex.isConvex v this ;;
      rest <- classify this l' ;;
      Return (if b then (v :: fst rest, snd rest)
              else (fst rest, v :: snd rest))
  end.

(** [populateVertexTypeLists()] *)
Definition populateVertexTypeLists (this : t) : result t :=
  lists <- classify this (vertices this) ;;
  Return (mk (plane this) (vertices this) (fst lists) (snd lists)).

(** [Plane.fromPoints(...points)]: the plane of the first three points.
    Modelled from the spec (Polygon construction); with fewer than three
    points there is no plane. *)
Definition planeOfPoints (points : list vertex) : option Plane.t :=
  match points with
  | a :: b :: c :: _ => Plane.fromPoints (elements a) (elements b) (elements c)
  | _ => None
  end.

(** [constructor(points, plane)], for points that are vertices. *)
Definition new (points : list vertex) (plane : option Plane.t) : result t :=
  let plane :=
    match plane with
    | Some p => Some p
    | None => planeOfPoints points
    end in
  populateVertexTypeLists (mk plane points [] []).

(** The [Vertex] objects the constructor creates for points that are
    plain vectors: [fresh] is the reference of the first new object. *)
Definition allocate (fresh : nat) (points : list Vector.t) : list vertex :=
  map (fun p => mkVertex (fst p) (snd p))
      (combine (seq fresh (length points)) points).

(** [scale(k, point)] *)
Definition scale (this : t) (k : R) (point : Vector.t) (fresh : nat)
  : result t :=
  let P := point in
  let points :=
    map (fun node =>
           let E := elements node in
           Vector.V3 (Vector.E0 P + k * (Vector.E0 E - Vector.E0 P))
                     (Vector.E1 P + k * (Vector.E1 E - Vector.E1 P))
                     (Vector.E2 P + k * (Vector.E2 E - Vector.E2 P)))
        (vertices this) in
  first <- dataAt (vertices this) 0 ;;
  pl <- deref (plane this) ;;
  new (allocate fresh points)
      (Some (Plane.new (elements first) (Plane.normal pl))).

(** [isTriangle()] *)
Definition isTriangle (this : t) : bool :=
  Nat.eqb (length (vertices this)) 3.

(** The test of [trianglesForSurfaceIntegral] that the code calls
    [colinear]. *)
Definition colinear (a b c : Vector.t) : bool :=
  Rltb ((Vector.E1 a - Vector.E1 b) * (Vector.E0 a - Vector.E0 c)
        - (Vector.E1 c - Vector.E1 a) * (Vector.E0 a - Vector.E0 b))
       Sylvester.precision.

(** [trianglesForSurfaceIntegral()]; the cache holds the value of the
    first call, which a later call would compute again. *)
Definition trianglesForSurfaceIntegral (this : t) : result (list t) :=
  firstVertex <- dataAt (vertices this) 0 ;;
  let plane_ := plane this in
  mapM (fun node =>
          let ring := vertices this in
          let a := elements firstVertex in
          prev <- dataAt ring (Ring.prev ring node) ;;
          let b := elements prev in
          data <- dataAt ring node ;;
          let c := elements data in
          new [firstVertex; prev; data]
              (if colinear a b c then plane_ else Plane.fromPoints a b c))
       (skipn 2 (Ring.nodes (vertices this))).

(** The first branch of [area()]: the polygon is a triangle. *)
Definition area_closed (this : t) : result R :=
  let ring := vertices this in
  A <- dataAt ring 0 ;;
  B <- dataAt ring (Ring.next ring 0) ;;
  C <- dataAt ring (Ring.next ring (Ring.next ring 0)) ;;
  let A := elements A in
  let B := elements B in
  let C := elements C in
  Return
    (0.5 *
     Vector.modulus
       (Vector.V3
          ((Vector.E1 A - Vector.E1 B) * (Vector.E2 C - Vector.E2 B)
           - (Vector.E2 A - Vector.E2 B) * (Vector.E1 C - Vector.E1 B))
          ((Vector.E2 A - Vector.E2 B) * (Vector.E0 C - Vector.E0 B)
           - (Vector.E0 A - Vector.E0 B) * (Vector.E2 C - Vector.E2 B))
          ((Vector.E0 A - Vector.E0 B) * (Vector.E1 C - Vector.E1 B)
           - (Vector.E1 A - Vector.E1 B) * (Vector.E0 C - Vector.E0 B)))).

(** The summation loop of [area()] over the fan.  Every polygon of the
    fan is built from three vertices, so [trigs[i].area()] is the
    closed form (lemma [fan_isTriangle] below). *)
Fixpoint area_sum (this : t) (trigs : list t) (area : R) : result R :=
  match trigs with
  | [] => Return area
  | trig :: trigs' =>
      a <- area_closed trig ;;
      tp <- deref (plane trig) ;;
      pl <- deref (plane this) ;;
      area_sum this trigs'
               (area + a * Vector.dot (Plane.normal tp) (Plane.normal pl))
  end.

(** [area()] *)
Definition area (this : t) : result R :=
  if isTriangle this then area_closed this
  else
    trigs <- trianglesForSurfaceIntegral this ;;
    area_sum this trigs 0.

(** The first branch of [centroid()]: the polygon is a triangle, and
    [v(1)], [v(2)], [v(3)] are [vertices.at(0).data], [vertices.at(1).data]
    and [vertices.at(2).data]. *)
Definition centroid_closed (this : t) : result Vector.t :=
  let ring := vertices this in
  A <- deref (Ring.at_ ring 0) ;;
  B <- deref (Ring.at_ ring 1) ;;
  C <- deref (Ring.at_ ring 2) ;;
  let A := elements A in
  let B := elements B in
  let C := elements C in
  Return (Vector.V3 ((Vector.E0 A + Vector.E0 B + Vector.E0 C) / 3)
                    ((Vector.E1 A + Vector.E1 B + Vector.E1 C) / 3)
                    ((Vector.E2 A + Vector.E2 B + Vector.E2 C) / 3)).

(** The loop of [centroid()], over the triangles in the order the loop
    visits them; [V] is the weighted sum and [M] the weight so far.  Every
    polygon of the fan is built from three vertices, so
    [trigs[i].centroid()] is the first branch. *)
Fixpoint centroid_sum (this : t) (trigs : list t) (V : Vector.t) (M : R)
  : result (Vector.t * R) :=
  match trigs with
  | [] => Return (V, M)
  | trig :: trigs' =>
      a <- area trig ;;
      tp <- deref (plane trig) ;;
      pl <- deref (plane this) ;;
      let A := a * Vector.dot (Plane.normal tp) (Plane.normal pl) in
      let M := M + A in
      let P := V in
      C <- centroid_closed trig ;;
      centroid_sum this trigs'
                   (Vector.V3 (Vector.E0 P + Vector.E0 C * A)
                              (Vector.E1 P + Vector.E1 C * A)
                              (Vector.E2 P + Vector.E2 C * A))
                   M
  end.

(** [centroid()]; the loop [while (i--)] visits the fan from its last
    triangle to its first.  When the weight [M] is 0 the quotient [1 / M]
    is no real number and the result is no vector of the model: [None]. *)
Definition centroid (this : t) : result (option Vector.t) :=
  if isTriangle this then
    c <- centroid_closed this ;;
    Return (Some c)
  else
    trigs <- trianglesForSurfaceIntegral this ;;
    r <- centroid_sum this (rev trigs) Vector.Zero3 0 ;;
    Return (if Reqb (snd r) 0 then None
            else Some (Vector.x (fst r) (1 / snd r))).

(** [removeVertex(vertex)] *)
Definition removeVertex (this : t) (v : vertex) : result t :=
  if isTriangle this then Return this
  else
    new (filter (fun n => negb (Vector.eql (elements v) (elements n)
                                           Sylvester.precision))
                (vertices this))
        (plane this).

(** [hasEdgeContaining(point)]: one parameter; an epsilon passed by a
    caller is dropped. *)
Definition hasEdgeContaining (this : t) (point : Vector.t) : result bool :=
  let P := point in
  let ring := vertices this in
  someM (fun node =>
           data <- dataAt ring node ;;
           next <- dataAt ring (Ring.next ring node) ;;
           seg <- Segment.new (elements data) (elements next) ;;
           Return (Segment.contains seg P))
        (Ring.nodes ring).

(** One turn of the [forEach] of [containsByWindingNumber]: the state
    is the pair of [theta] and [loops]. *)
Definition windingStep (this : t) (P : Vector.t) (epsilon : R)
           (state : R * Z) (node : nat) : result (R * Z) :=
  let ring := vertices this in
  data <- dataAt ring node ;;
  next <- dataAt ring (Ring.next ring node) ;;
  let V := elements data in
  let W := elements next in
  let A := Vector.V3 (Vector.E0 V - Vector.E0 P) (Vector.E1 V - Vector.E1 P)
                     (Vector.E2 V - Vector.E2 P) in
  let B := Vector.V3 (Vector.E0 W - Vector.E0 P) (Vector.E1 W - Vector.E1 P)
                     (Vector.E2 W - Vector.E2 P) in
  match Vector.angleFrom A B with
  | None => Return state
  | Some dt =>
      if Reqb dt 0 then Return state
      else
        pl <- deref (plane this) ;;
        let theta := fst state in
        let loops := snd state in
        let theta :=
          theta + (if Vector.isParallelTo (Vector.cross A B) (Plane.normal pl)
                                          Sylvester.precision
                   then 1 else -1) * dt in
        let '(theta, loops) :=
          if Rleb (2 * PI - epsilon) theta
          then (theta - 2 * PI, (loops + 1)%Z)
          else (theta, loops) in
        let '(theta, loops) :=
          if Rleb theta (- 2 * PI + epsilon)
          then (theta + 2 * PI, (loops - 1)%Z)
          else (theta, loops) in
        Return (theta, loops)
  end.

Fixpoint windingLoop (this : t) (P : Vector.t) (epsilon : R)
         (nodes : list nat) (state : R * Z) : result (R * Z) :=
  match nodes with
  | [] => Return state
  | node :: nodes' =>
      state' <- windingStep this P epsilon state node ;;
      windingLoop this P epsilon nodes' state'
  end.

(** Where [containsByWindingNumber] returns from. *)
Inductive verdict : Type :=
| OffPlane
| OnEdge
| Wound (loops : Z).

Definition containsVerdict (this : t) (point : Vector.t) (epsilon : R)
  : result verdict :=
  let P := point in
  pl <- deref (plane this) ;;
  if negb (Plane.contains pl P epsilon) then Return OffPlane
  else
    onEdge <- hasEdgeContaining this P ;;
    if onEdge then Return OnEdge
    else
      state <- windingLoop this P epsilon (Ring.nodes (vertices this))
                           (0, 0%Z) ;;
      Return (Wound (snd state)).

(** [containsByWindingNumber(point, epsilon)] *)
Definition containsByWindingNumber (this : t) (point : Vector.t)
           (epsilon : R) : result bool :=
  v <- containsVerdict this point epsilon ;;
  Return (match v with
          | OffPlane => false
          | OnEdge => false
          | Wound loops => negb (Z.eqb loops 0)
          end).

(** [contains(point, epsilon)] *)
Definition contains (this : t) (point : Vector.t) (epsilon : R)
  : result bool :=
  containsByWindingNumber this point epsilon.

(** [a !== b] on vertex objects *)
Definition differs (a b : vertex) : bool := negb (Nat.eqb (ref a) (ref b)).

(** The callback of [poly.reflexVertices.some] in the ear test; it
    returns [undefined], which is falsy, for the two neighbours. *)
Definition insideEar (trig : t) (prev next node : vertex) : result bool :=
  if differs node prev && differs node next then
    inside <- contains trig (elements node) Sylvester.precision ;;
    if inside then Return true
    else hasEdgeContaining trig (elements node)
  else Return false.

(** The [for] loop of [triangulateByEarClipping] over the candidates
    [cands]: it stops at the first success and yields the triangle and the
    data of [mainNode], or nothing when every candidate failed. *)
Fixpoint scanCandidates (plane_ : option Plane.t) (poly : t) (offset : nat)
         (cands : list nat) : result (option (t * vertex)) :=
  match cands with
  | [] => Return None
  | i :: cands' =>
      convexNode <- deref (Ring.at_ (convexVertices poly) (offset + i)) ;;
      mainNode <- deref (Ring.findNode (vertices poly)
                           (fun data => vertexCompare data convexNode)) ;;
      let ring := vertices poly in
      data <- dataAt ring mainNode ;;
      next <- dataAt ring (Ring.next ring mainNode) ;;
      prev <- dataAt ring (Ring.prev ring mainNode) ;;
      trig <- new [data; next; prev] plane_ ;;
      found <- someM (insideEar trig prev next) (reflexVertices poly) ;;
      if negb found then Return (Some (trig, data))
      else scanCandidates plane_ poly offset cands'
  end.

(** The [while] loop of [triangulateByEarClipping]: [fuel] bounds the
    number of turns, [None] is a loop that has not finished within it.
    [draw] counts the calls of [Math.random]. *)
Fixpoint earLoop (random : nat -> R) (plane_ : option Plane.t) (fuel : nat)
         (poly : t) (draw : nat) (triangles : list t)
  : option (result (list t)) :=
  match fuel with
  | O => None
  | S fuel' =>
      if isTriangle poly then Some (Return (triangles ++ [poly]))
      else
        let n := length (convexVertices poly) in
        let offset := floor_index (random draw * INR n) in
        match scanCandidates plane_ poly offset (seq 0 n) with
        | Throw e => Some (Throw e)
        | Return None => Some (Throw NoCandidateError)
        | Return (Some (trig, data)) =>
            match removeVertex poly data with
            | Throw e => Some (Throw e)
            | Return poly' =>
                earLoop random plane_ fuel' poly' (S draw)
                        (triangles ++ [trig])
            end
        end
  end.

(** [triangulateByEarClipping()]: the loop removes at least one vertex
    each turn, so one turn per vertex and one more are enough (theorem
    [earLoop_fuel] below). *)
Definition triangulateByEarClipping (random : nat -> R) (this : t)
  : option (result (list t)) :=
  earLoop random (plane this) (S (length (vertices this))) this 0 [].

(** [toTriangles()]; the cache holds the value of the first call. *)
Definition toTriangles (random : nat -> R) (this : t)
  : option (result (list t)) :=
  triangulateByEarClipping random this.

(** The [for] loop of [eql]: [a] and [b] are the two nodes, [i] the
    number of turns left. *)
Fixpoint eqlLoop (this other : list vertex) (epsilon : R) (a b : nat)
         (i : nat) : result bool :=
  match i with
  | O => Return true
  | S i' =>
      da <- dataAt this a ;;
      db <- dataAt other b ;;
      if negb (Vector.eql (elements da) (elements db) epsilon)
      then Return false
      else eqlLoop this other epsilon (Ring.next this a) (Ring.next other b) i'
  end.

(** [eql(other, epsilon)], [other] a polygon *)
Definition eql (this other : t) (epsilon : R) : result bool :=
  if negb (Nat.eqb (length (vertices other)) (length (vertices this)))
  then Return false
  else eqlLoop (vertices this) (vertices other) epsilon 0 0
               (length (vertices this)).

(** [translate(vector)]; [fresh] is the reference of the first vertex
    object that the constructor creates. *)
Definition translate (this : t) (vector : Vector.t) (fresh : nat) : result t :=
  let elements_ := vector in
  let points :=
    map (fun v => Vector.add (elements v) elements_) (vertices this) in
  pl <- deref (plane this) ;;
  new (allocate fresh points) (Some (Plane.translate pl elements_)).

End Polygon.

Import Polygon.

(* ------------------------------------------------------------------ *)
(** ** Definitions for the statements, and sample data *)

(** The map of [scale]: c + k (v - c), component by component. *)
Definition scaled (k : R) (c v : Vector.t) : Vector.t :=
  Vector.V3 (Vector.E0 c + k * (Vector.E0 v - Vector.E0 c))
            (Vector.E1 c + k * (Vector.E1 v - Vector.E1 c))
            (Vector.E2 c + k * (Vector.E2 v - Vector.E2 c)).

(** The point at the fraction [t] of the way from [s] to [e]. *)
Definition between (s e : Vector.t) (t : R) : Vector.t :=
  Vector.add s (Vector.x (Vector.subtract e s) t).

(** The sum of [triangle.area()] over an array of polygons. *)
Fixpoint sumOfAreas (ts : list Polygon.t) : result R :=
  match ts with
  | [] => Return 0
  | t :: ts' => a <- area t ;; s <- sumOfAreas ts' ;; Return (a + s)
  end.

(** No two vertices of the list are equal within the precision. *)
Definition distinctVertices (l : list vertex) : Prop :=
  ForallOrdPairs
    (fun u v => Vector.eql (elements u) (elements v) Sylvester.precision = false)
    l.

(** Every edge of the ring joins two different points. *)
Definition properEdges (l : list vertex) : Prop :=
  forall i u v,
    dataAt l i = Return u -> dataAt l (Ring.next l i) = Return v ->
    elements u <> elements v.

(** The corner at [v], between [prev] and [next], turns anticlockwise
    about [n], and the sine of its angle exceeds the precision: the corner
    is neither flat nor folded. *)
Definition turnsLeft (n : Vector.t) (prev v next : vertex) : Prop :=
  let A := Vector.subtract (elements next) (elements v) in
  let B := Vector.subtract (elements prev) (elements v) in
  Sylvester.precision * Sylvester.precision
    * (Vector.dot A A * Vector.dot B B)
  < Vector.dot (Vector.cross A B) (Vector.cross A B) /\
  0 < Vector.dot (Vector.cross A B) n.

(** [subring l' l]: the ring [l'] is what is left of the ring [l] when
    some of its vertices are taken away, the others keeping their
    order. *)
Inductive subring : list vertex -> list vertex -> Prop :=
| subring_nil : subring [] []
| subring_skip v l' l : subring l' l -> subring l' (v :: l)
| subring_keep v l' l : subring l' l -> subring (v :: l') (v :: l).

(** A ring wound anticlockwise about [n] that is convex except, at
    most, at the vertex [r]: in the ring, and in every ring of four or
    more of its vertices, every corner other than the one at [r] turns
    anticlockwise.  With [r] outside the ring, the ring is convex. *)
Definition convexExceptAt (n : Vector.t) (r : vertex) (l : list vertex)
  : Prop :=
  forall l', subring l' l -> (4 <= length l')%nat ->
  forall j prev v next,
    nth_error l' j = Some v -> v <> r ->
    nth_error l' (Ring.prev l' j) = Some prev ->
    nth_error l' (Ring.next l' j) = Some next ->
    turnsLeft n prev v next.

(** The callback of [hasEdgeContaining]. *)
Definition edgeContains (ring : list vertex) (P : Vector.t) (node : nat)
  : result bool :=
  data <- dataAt ring node ;;
  next <- dataAt ring (Ring.next ring node) ;;
  seg <- Segment.new (elements data) (elements next) ;;
  Return (Segment.contains seg P).

Module Sample.

Definition vx (r : nat) (x y z : R) : vertex := mkVertex r (Vector.V3 x y z).

(** The normal (0, 0, 1). *)
Definition up : Vector.t := Vector.V3 0 0 1.

(** The plane z = 0, anchored at the origin. *)
Definition ground : Plane.t := Plane.mk (Vector.V3 0 0 0) up.

(** The unit square in the plane z = 1, anticlockwise about [up]. *)
Definition raised : Plane.t := Plane.mk (Vector.V3 0 0 1) up.
Definition raisedSquare : list vertex :=
  [vx 0 0 0 1; vx 1 1 0 1; vx 2 1 1 1; vx 3 0 1 1].


(** A simple quadrilateral with one reflex vertex, the second,
    anticlockwise about [up]; its area is 4. *)
Definition dartA : vertex := vx 0 0 0 0.
Definition dartB : vertex := vx 1 1 1 0.
Definition dartC : vertex := vx 2 2 (-2) 0.
Definition dartD : vertex := vx 3 2 4 0.
Definition dart : list vertex := [dartA; dartB; dartC; dartD].

(** A quadrilateral whose first two vertices are the same point. *)
Definition doubled : list vertex :=
  [vx 0 0 0 0; vx 1 0 0 0; vx 2 1 0 0; vx 3 0 1 0].

(** The unit square with a fifth vertex on its last edge, half a
    precision away from the first vertex. *)
Definition nearA : vertex := vx 0 0 0 0.
Definition nearB : vertex := vx 1 1 0 0.
Definition nearC : vertex := vx 2 1 1 0.
Definition nearD : vertex := vx 3 0 1 0.
Definition nearE : vertex := vx 4 0 (/ 2000000) 0.
Definition nearPentagon : list vertex := [nearA; nearB; nearC; nearD; nearE].

(** A thin hexagon: the rhombus (0, 0), (10^7, -1), (2 10^7, 0),
    (10^7, 1) with the middles of two opposite sides, anticlockwise
    about [up]. *)
Definition needleA : vertex := vx 0 0 0 0.
Definition needleE : vertex := vx 1 5000000 (- / 2) 0.
Definition needleB : vertex := vx 2 10000000 (-1) 0.
Definition needleC : vertex := vx 3 20000000 0 0.
Definition needleF : vertex := vx 4 15000000 (/ 2) 0.
Definition needleD : vertex := vx 5 10000000 1 0.
Definition needle : list vertex :=
  [needleA; needleE; needleB; needleC; needleF; needleD].

End Sample.

(** [Sample.dart] as a polygon: the second vertex is reflex. *)
Definition dartPolygon : Polygon.t :=
  mk (Some Sample.ground) Sample.dart
     [Sample.dartA; Sample.dartC; Sample.dartD] [Sample.dartB].

(** [Sample.needle] as a polygon: the two sharp corners are convex, the
    four others are flat within the precision and are classified
    reflex. *)
Definition needlePolygon : Polygon.t :=
  mk (Some Sample.ground) Sample.needle
     [Sample.needleA; Sample.needleC]
     [Sample.needleE; Sample.needleB;
      Sample.needleF; Sample.needleD].


(** [Sample.nearPentagon] as a polygon: every vertex is classified
    convex. *)
Definition nearPolygon : Polygon.t :=
  mk (Some Sample.ground) Sample.nearPentagon Sample.nearPentagon [].

(** A vertex far from [Sample.dart]. *)
Definition stranger : vertex := Sample.vx 9 5 5 5.


(** Two lines along the first axis, one unit apart. *)
Definition axisX : Line.t := Line.mk (Vector.V3 0 0 0) (Vector.V3 1 0 0).
Definition axisX' : Line.t := Line.mk (Vector.V3 0 1 0) (Vector.V3 1 0 0).

(** ** Definitions for the statements on lines, segments and translation *)

(** A line whose direction has length one, as every line the constructor
    returns. *)
Definition unitLine (L : Line.t) : Prop :=
  Vector.modulus (Line.direction L) = 1.

(** The point of a line at the signed distance [t] from its anchor. *)
Definition pointAt (L : Line.t) (t : R) : Vector.t :=
  Vector.add (Line.anchor L) (Vector.x (Line.direction L) t).

(** The opposite vector. *)
Definition opposite (v : Vector.t) : Vector.t := Vector.x v (-1).

(** Equality, within epsilon, of the vertices of two lists taken in
    order, as far as both lists go. *)
Fixpoint pairwiseEql (l1 l2 : list vertex) (epsilon : R) : bool :=
  match l1, l2 with
  | u :: l1', w :: l2' =>
      Vector.eql (elements u) (elements w) epsilon && pairwiseEql l1' l2' epsilon
  | _, _ => true
  end.

(** The vertex [w] is the vertex [u] moved by [v]. *)
Definition movedVertex (v : Vector.t) (u w : vertex) : Prop :=
  elements w = Vector.add (elements u) v.

(** The optional plane [q] is the optional plane [p] moved by [v]. *)
Definition movedPlane (v : Vector.t) (p q : option Plane.t) : Prop :=
  match p, q with
  | Some p, Some q => q = Plane.translate p v
  | None, None => True
  | _, _ => False
  end.

(** The polygon [Q] has the vertices and the plane of [P] moved by [v]. *)
Definition movedPolygon (v : Vector.t) (P Q : Polygon.t) : Prop :=
  Forall2 (movedVertex v) (vertices P) (vertices Q) /\
  movedPlane v (plane P) (plane Q).

(** Two outcomes related by [Q]: the same exception, or related values. *)
Definition resultRel {A} (Q : A -> A -> Prop) (r r' : result A) : Prop :=
  match r, r' with
  | Return a, Return a' => Q a a'
  | Throw e, Throw e' => e = e'
  | _, _ => False
  end.

(** The segment from the origin to (1, 0, 0), as the constructor returns it. *)
Definition unitSegment : Segment.t :=
  Segment.mk axisX (Vector.V3 0 0 0) (Vector.V3 1 0 0).

(** The line through (2, -1, 0) along the second axis. *)
Definition upright : Line.t := Line.mk (Vector.V3 2 (-1) 0) (Vector.V3 0 1 0).

(* ================================================================== *)
(** * Properties *)

(** ** Comparisons *)

Lemma Rleb_true x y : Rleb x y = true <-> x <= y.
Proof. unfold Rleb; destruct (Rle_dec x y); split; intros; try easy. Qed.

Lemma Rleb_false x y : Rleb x y = false <-> y < x.
Proof. unfold Rleb; destruct (Rle_dec x y); split; intros; try easy; lra. Qed.

Lemma Rltb_true x y : Rltb x y = true <-> x < y.
Proof. unfold Rltb; destruct (Rlt_dec x y); split; intros; try easy. Qed.

Lemma Rltb_false x y : Rltb x y = false <-> y <= x.
Proof. unfold Rltb; destruct (Rlt_dec x y); split; intros; try easy; lra. Qed.

Lemma Reqb_true x y : Reqb x y = true <-> x = y.
Proof. unfold Reqb; destruct (Req_dec_T x y); split; intros; try easy. Qed.

Lemma Reqb_false x y : Reqb x y = false <-> x <> y.
Proof. unfold Reqb; destruct (Req_dec_T x y); split; intros; try easy. Qed.

(** ** Tactics *)

(** Decide the comparisons between concrete reals of a goal, one at a
    time. *)
Ltac rstep :=
  match goal with
  | |- context [Rcase_abs ?a] => destruct (Rcase_abs a); try (exfalso; lra)
  | |- context [Rle_dec ?a ?b] => destruct (Rle_dec a b); try (exfalso; lra)
  | |- context [Rlt_dec ?a ?b] => destruct (Rlt_dec a b); try (exfalso; lra)
  | |- context [Req_dec_T ?a ?b] =>
      destruct (Req_dec_T a b); try (exfalso; lra)
  end; simpl.

Ltac rdecide :=
  unfold Rleb, Rltb, Reqb, Sylvester.precision, Rabs in *;
  repeat rstep; try reflexivity; try lra.

(** Invert a successful [bind]. *)
Ltac bind_inv H :=
  match type of H with
  | bind ?m _ = Return _ =>
      let E := fresh "E" in
      destruct m eqn:E; simpl in H; [| discriminate H]
  end.

(** Invert a successful [bind], naming the value and the equation. *)
Tactic Notation "bind_as" hyp(H) ident(x) ident(E) :=
  match type of H with
  | bind ?m _ = Return _ =>
      destruct m as [x |] eqn:E; simpl in H; [| discriminate H]
  end.

(** ** Numbers *)

Lemma precision_pos : 0 < Sylvester.precision.
Proof. unfold Sylvester.precision; lra. Qed.

Lemma precision_small : Sylvester.precision < 1.
Proof. unfold Sylvester.precision; lra. Qed.

Lemma PI_gt_3 : 3 < PI.
Proof. pose proof PI2_3_2; lra. Qed.

(** ** Vectors *)

Lemma dot_self_nonneg a : 0 <= Vector.dot a a.
Proof. unfold Vector.dot; nra. Qed.

Lemma modulus_nonneg a : 0 <= Vector.modulus a.
Proof. apply sqrt_pos. Qed.

Lemma modulus_zero_iff a : Vector.modulus a = 0 <-> a = Vector.Zero3.
Proof.
  unfold Vector.modulus; split; intros H.
  - apply sqrt_eq_0 in H; [| apply dot_self_nonneg].
    destruct a as [x y z]; unfold Vector.dot in H; simpl in H.
    assert (x = 0) by nra. assert (y = 0) by nra. assert (z = 0) by nra.
    subst; reflexivity.
  - subst a; unfold Vector.dot; simpl.
    replace (0 * 0 + 0 * 0 + 0 * 0) with 0 by ring. apply sqrt_0.
Qed.

Lemma subtract_self a : Vector.subtract a a = Vector.Zero3.
Proof.
  unfold Vector.subtract, Vector.Zero3; f_equal; ring.
Qed.

Lemma subtract_zero_iff a b : Vector.subtract a b = Vector.Zero3 <-> a = b.
Proof.
  destruct a as [a0 a1 a2], b as [b0 b1 b2];
    unfold Vector.subtract, Vector.Zero3; simpl; split; intros H.
  - inversion H; f_equal; lra.
  - inversion H; subst; f_equal; ring.
Qed.

Lemma eql_refl a eps : 0 <= eps -> Vector.eql a a eps = true.
Proof.
  intros H; unfold Vector.eql.
  replace (Vector.E0 a - Vector.E0 a) with 0 by ring.
  replace (Vector.E1 a - Vector.E1 a) with 0 by ring.
  replace (Vector.E2 a - Vector.E2 a) with 0 by ring.
  rewrite Rabs_R0.
  assert (Rleb 0 eps = true) as -> by (apply Rleb_true; exact H).
  reflexivity.
Qed.

Lemma eql_false_neq a b eps :
  0 <= eps -> Vector.eql a b eps = false -> a <> b.
Proof.
  intros H F E; subst b; rewrite eql_refl in F by exact H; discriminate.
Qed.

Lemma vertexCompare_refl v : vertexCompare v v = true.
Proof. apply eql_refl; pose proof precision_pos; lra. Qed.

(** ** The ring *)

Lemma findFrom_none {A} (pred : A -> bool) l i :
  Ring.findFrom pred l i = None <-> forall a, In a l -> pred a = false.
Proof.
  revert i; induction l as [| a l IH]; intros i; simpl.
  - split; [intros _ a [] | reflexivity].
  - destruct (pred a) eqn:E.
    + split; [discriminate |].
      intros H; specialize (H a (or_introl eq_refl)); congruence.
    + rewrite IH; split.
      * intros H b [<- | Hb]; [exact E | apply H, Hb].
      * intros H b Hb; apply H; right; exact Hb.
Qed.

Lemma findFrom_some {A} (pred : A -> bool) l i k :
  Ring.findFrom pred l i = Some k ->
  (i <= k < i + length l)%nat /\
  exists a, nth_error l (k - i) = Some a /\ pred a = true.
Proof.
  revert i; induction l as [| a l IH]; intros i; simpl; [discriminate |].
  destruct (pred a) eqn:E.
  - intros [= <-]; split; [lia |].
    exists a; rewrite Nat.sub_diag; split; [reflexivity | exact E].
  - intros H; apply IH in H; destruct H as [Hk [b [Hb Pb]]].
    split; [lia |].
    exists b; split; [| exact Pb].
    replace (k - i)%nat with (S (k - S i)) by lia; exact Hb.
Qed.

Lemma findNode_some {A} (pred : A -> bool) l k :
  Ring.findNode l pred = Some k ->
  (k < length l)%nat /\ exists a, nth_error l k = Some a /\ pred a = true.
Proof.
  unfold Ring.findNode; intros H; apply findFrom_some in H.
  rewrite Nat.sub_0_r in H; destruct H as [Hk Ha]; split; [lia | exact Ha].
Qed.

Lemma findNode_in {A} (pred : A -> bool) l a :
  In a l -> pred a = true -> exists k, Ring.findNode l pred = Some k.
Proof.
  intros Hin Hp; unfold Ring.findNode.
  destruct (Ring.findFrom pred l 0) eqn:E; [eexists; reflexivity |].
  rewrite findFrom_none in E; rewrite (E a Hin) in Hp; discriminate.
Qed.

Lemma next_lt {A} (l : list A) i :
  (i < length l)%nat -> (Ring.next l i < length l)%nat.
Proof. intros H; unfold Ring.next; apply Nat.mod_upper_bound; lia. Qed.

Lemma prev_lt {A} (l : list A) i :
  (i < length l)%nat -> (Ring.prev l i < length l)%nat.
Proof. intros H; unfold Ring.prev; apply Nat.mod_upper_bound; lia. Qed.

Lemma dataAt_lt l i :
  (i < length l)%nat -> exists v, dataAt l i = Return v /\ In v l.
Proof.
  intros H; unfold dataAt, Ring.data.
  destruct (nth_error l i) eqn:E.
  - exists v; split; [reflexivity | eapply nth_error_In; exact E].
  - apply nth_error_None in E; lia.
Qed.

Lemma nodeFor_some P v node :
  nodeFor P v = Some node ->
  (node < length (vertices P))%nat /\
  exists u, dataAt (vertices P) node = Return u /\
            vertexCompare u v = true.
Proof.
  unfold nodeFor; intros H; apply findNode_some in H.
  destruct H as [Hlt [u [Hu Hp]]]; split; [exact Hlt |].
  exists u; unfold dataAt, Ring.data; rewrite Hu; split; [reflexivity | exact Hp].
Qed.

Lemma nodeFor_neighbours P v node :
  nodeFor P v = Some node ->
  exists prev next,
    dataAt (vertices P) (Ring.prev (vertices P) node) = Return prev /\
    dataAt (vertices P) (Ring.next (vertices P) node) = Return next /\
    In prev (vertices P) /\ In next (vertices P).
Proof.
  intros H; apply nodeFor_some in H; destruct H as [Hlt _].
  destruct (dataAt_lt (vertices P) _ (prev_lt (vertices P) node Hlt)) as [p [Hp Ip]].
  destruct (dataAt_lt (vertices P) _ (next_lt (vertices P) node Hlt)) as [n [Hn In_]].
  exists p, n; auto.
Qed.

Lemma nodeFor_none P v :
  nodeFor P v = None <->
  forall u, In u (vertices P) -> vertexCompare u v = false.
Proof. unfold nodeFor, Ring.findNode; apply findFrom_none. Qed.


(* ------------------------------------------------------------------ *)
(** ** Vertex classification *)

(** C7: a vertex that is equal, within the precision, to no vertex of
    the polygon's main ring cannot be classified: [isConvex] raises the
    invalid-operation error and returns nothing, and [isReflex], its
    caller, raises the same error. *)
Theorem isConvex_foreign_vertex (v : vertex) (P : Polygon.t) :
  (forall u, In u (vertices P) ->
             Vector.eql (elements u) (elements v) Sylvester.precision = false) ->
  Vertex.isConvex v P = Throw InvalidOperationError /\
  Vertex.isReflex v P = Throw InvalidOperationError.
Proof.
  intros H.
  assert (N : nodeFor P v = None) by (apply nodeFor_none; exact H).
  unfold Vertex.isReflex, Vertex.isConvex; rewrite N; split; reflexivity.
Qed.


(* ------------------------------------------------------------------ *)
(** ** Lines and segments *)

(** C8: two lines that are parallel (their directions are parallel or
    antiparallel within the precision) have no unique intersection:
    [intersects] returns false and [intersectionWith] returns [null],
    a value and not an error.  This holds whether or not the lines are
    colinear. *)
Theorem parallel_lines_do_not_intersect (L M : Line.t) (epsilon : R) :
  Line.isParallelTo L M Sylvester.precision = true ->
  Line.intersects L M epsilon = false /\
  Line.intersectionWith L M = None.
Proof.
  intros H; unfold Line.intersectionWith, Line.intersects.
  rewrite H; simpl; split; reflexivity.
Qed.

Lemma Line_new_zero anchor :
  Line.new anchor Vector.Zero3 = Throw DimensionalityMismatchError.
Proof.
  unfold Line.new.
  assert (Vector.modulus Vector.Zero3 = 0) as -> by (apply modulus_zero_iff; reflexivity).
  assert (Reqb 0 0 = true) as -> by (apply Reqb_true; reflexivity).
  reflexivity.
Qed.

Lemma Line_new_return anchor direction l :
  Line.new anchor direction = Return l -> direction <> Vector.Zero3.
Proof.
  intros H E; subst direction; rewrite Line_new_zero in H; discriminate.
Qed.

Lemma Line_new_nonzero anchor direction :
  direction <> Vector.Zero3 -> exists l, Line.new anchor direction = Return l.
Proof.
  intros H; unfold Line.new.
  destruct (Reqb (Vector.modulus direction) 0) eqn:E.
  - apply Reqb_true, modulus_zero_iff in E; contradiction.
  - eexists; reflexivity.
Qed.

Lemma Segment_new_distinct s e :
  s <> e ->
  exists l, Segment.new s e = Return (Segment.mk l s e).
Proof.
  intros H; unfold Segment.new.
  assert (Hd : Vector.subtract e s <> Vector.Zero3).
  { intros Z; apply H; symmetry; apply (proj1 (subtract_zero_iff e s) Z). }
  destruct (Line_new_nonzero s _ Hd) as [l Hl].
  rewrite Hl; exists l; reflexivity.
Qed.

(** C9: a segment whose two end points are the same point cannot be
    constructed: the line through them is built on the direction
    end - start, which is zero, and the Line constructor raises the
    dimensionality error.  So every segment that has been constructed has
    two different end points. *)
Theorem zero_length_segment_rejected :
  (forall p : Vector.t, Segment.new p p = Throw DimensionalityMismatchError) /\
  (forall (s e : Vector.t) (seg : Segment.t),
      Segment.new s e = Return seg ->
      s <> e /\ Segment.start seg = s /\ Segment.end_ seg = e /\
      0 < Vector.modulus (Segment.toVector seg)).
Proof.
  split.
  - intros p; unfold Segment.new.
    rewrite subtract_self, Line_new_zero; reflexivity.
  - intros s e seg H; unfold Segment.new in H.
    destruct (Line.new s (Vector.subtract e s)) as [l |] eqn:E;
      simpl in H; [| discriminate].
    injection H as <-; simpl.
    apply Line_new_return in E.
    assert (s <> e).
    { intros ->; apply E, subtract_self. }
    repeat split; try assumption.
    unfold Segment.toVector; simpl.
    change (Vector.V3 (Vector.E0 e - Vector.E0 s) (Vector.E1 e - Vector.E1 s)
                      (Vector.E2 e - Vector.E2 s))
      with (Vector.subtract e s).
    destruct (modulus_nonneg (Vector.subtract e s)) as [Hlt | Heq];
      [exact Hlt |].
    symmetry in Heq; apply modulus_zero_iff in Heq; contradiction.
Qed.

(* ------------------------------------------------------------------ *)
(** ** Containment: the three exits *)

Lemma contains_verdict P q eps :
  contains P q eps =
  v <- containsVerdict P q eps ;;
  Return (match v with
          | OffPlane => false
          | OnEdge => false
          | Wound loops => negb (Z.eqb loops 0)
          end).
Proof. reflexivity. Qed.

Lemma containsVerdict_off_plane P pl q eps :
  plane P = Some pl -> Plane.contains pl q eps = false ->
  containsVerdict P q eps = Return OffPlane.
Proof.
  intros Hp Hc; unfold containsVerdict; rewrite Hp; simpl; rewrite Hc.
  reflexivity.
Qed.

Lemma containsVerdict_in_plane P pl q eps :
  plane P = Some pl -> Plane.contains pl q eps = true ->
  containsVerdict P q eps =
  onEdge <- hasEdgeContaining P q ;;
  if onEdge then Return OnEdge
  else state <- windingLoop P q eps (Ring.nodes (vertices P)) (0, 0%Z) ;;
       Return (Wound (snd state)).
Proof.
  intros Hp Hc; unfold containsVerdict; rewrite Hp; simpl; rewrite Hc.
  reflexivity.
Qed.

(** C10: the boundary-edge step of [contains(q, e)] does not see [e].
    For two tolerances that both let the point pass the plane test, the
    call is rejected at the edge step for the one exactly when it is for
    the other, namely when [hasEdgeContaining], which has no epsilon
    parameter and tests every edge at the default precision, returns
    true; an error of the edge step is the error of both calls. *)
Theorem edge_step_ignores_epsilon (P : Polygon.t) (pl : Plane.t)
        (q : Vector.t) (e1 e2 : R) :
  plane P = Some pl ->
  Plane.contains pl q e1 = true ->
  Plane.contains pl q e2 = true ->
  (containsVerdict P q e1 = Return OnEdge <->
   hasEdgeContaining P q = Return true) /\
  (containsVerdict P q e1 = Return OnEdge <->
   containsVerdict P q e2 = Return OnEdge) /\
  (forall ex, hasEdgeContaining P q = Throw ex ->
              contains P q e1 = Throw ex /\ contains P q e2 = Throw ex) /\
  (hasEdgeContaining P q = Return true ->
   contains P q e1 = Return false /\ contains P q e2 = Return false).
Proof.
  intros Hp H1 H2.
  assert (V : forall e, Plane.contains pl q e = true ->
             (containsVerdict P q e = Return OnEdge <->
              hasEdgeContaining P q = Return true)).
  { intros e He; rewrite (@containsVerdict_in_plane P pl q e Hp He).
    destruct (hasEdgeContaining P q) as [[|] |]; simpl.
    - split; reflexivity.
    - split; [| discriminate].
      destruct (windingLoop P q e (Ring.nodes (vertices P)) (0, 0%Z));
        simpl; discriminate.
    - split; discriminate. }
  split; [apply V, H1 |].
  split; [rewrite (V e1 H1), (V e2 H2); reflexivity |].
  split.
  - intros ex Hex; rewrite !contains_verdict.
    rewrite (@containsVerdict_in_plane P pl q e1 Hp H1),
            (@containsVerdict_in_plane P pl q e2 Hp H2), Hex; split; reflexivity.
  - intros Ht; rewrite !contains_verdict.
    rewrite (@containsVerdict_in_plane P pl q e1 Hp H1),
            (@containsVerdict_in_plane P pl q e2 Hp H2), Ht; split; reflexivity.
Qed.

(* ------------------------------------------------------------------ *)
(** ** Construction *)

Lemma isConvex_member P pl v :
  plane P = Some pl -> In v (vertices P) ->
  exists b, Vertex.isConvex v P = Return b.
Proof.
  intros Hp Hin.
  destruct (@findNode_in _ (fun data => vertexCompare data v) (vertices P) v
                         Hin (vertexCompare_refl v)) as [node Hn].
  change (nodeFor P v = Some node) in Hn.
  destruct (nodeFor_neighbours P v node Hn) as [p [n [Hpv [Hnx _]]]].
  unfold Vertex.isConvex; rewrite Hn; cbv zeta; rewrite Hpv, Hnx, Hp; simpl.
  repeat match goal with
         | |- context [if ?c then _ else _] => destruct c
         end; eexists; reflexivity.
Qed.

Lemma classify_member P pl l :
  plane P = Some pl -> incl l (vertices P) ->
  exists cs rs, classify P l = Return (cs, rs) /\
                (length cs + length rs = length l)%nat /\
                incl cs l /\ incl rs l.
Proof.
  intros Hp; induction l as [| v l IH]; intros Hi; simpl.
  - exists [], []; repeat split; auto using incl_refl.
  - destruct (@isConvex_member P pl v Hp (Hi v (or_introl eq_refl))) as [b Hb].
    destruct IH as [cs [rs [Hc [Hl [Ic Ir]]]]].
    { intros u Hu; apply Hi; right; exact Hu. }
    rewrite Hb, Hc; simpl; destruct b; simpl.
    + exists (v :: cs), rs; repeat split; simpl; try lia.
      * intros u [<- | Hu]; [left; reflexivity | right; apply Ic, Hu].
      * intros u Hu; right; apply Ir, Hu.
    + exists cs, (v :: rs); repeat split; simpl; try lia.
      * intros u Hu; right; apply Ic, Hu.
      * intros u [<- | Hu]; [left; reflexivity | right; apply Ir, Hu].
Qed.

(** A polygon that has been constructed keeps the points and the plane it
    was given. *)
Lemma new_fields points pl P :
  new points pl = Return P ->
  vertices P = points /\
  plane P = match pl with Some p => Some p | None => planeOfPoints points end.
Proof.
  unfold new, populateVertexTypeLists; simpl; intros H.
  bind_inv H; injection H as <-; simpl; split; reflexivity.
Qed.

(** With a plane, the constructor raises nothing. *)
Lemma new_total points pl :
  exists P, new points (Some pl) = Return P /\
            vertices P = points /\ plane P = Some pl /\
            (length (convexVertices P) + length (reflexVertices P)
             = length points)%nat /\
            incl (convexVertices P) points /\ incl (reflexVertices P) points.
Proof.
  unfold new, populateVertexTypeLists; simpl.
  destruct (@classify_member (mk (Some pl) points [] []) pl points eq_refl
                             (incl_refl _)) as [cs [rs [Hc [Hl [Ic Ir]]]]].
  rewrite Hc; simpl.
  eexists; split; [reflexivity |]; simpl; auto.
Qed.

Lemma allocate_elements fresh points :
  map elements (allocate fresh points) = points.
Proof.
  unfold allocate; revert fresh; induction points as [| p l IH]; intros fresh;
    simpl; [reflexivity |].
  f_equal; apply IH.
Qed.

(* ------------------------------------------------------------------ *)
(** ** Scaling *)

(** What [scale] returns: the vertices are scaled; the plane is anchored
    at the first vertex of the receiver, which is not scaled, and keeps
    the receiver's normal. *)
Lemma scale_returns P k c fresh P' :
  scale P k c fresh = Return P' ->
  exists first pl,
    dataAt (vertices P) 0 = Return first /\ plane P = Some pl /\
    map elements (vertices P') = map (scaled k c) (map elements (vertices P)) /\
    plane P' = Some (Plane.mk (elements first) (Plane.normal pl)).
Proof.
  unfold scale; intros H.
  bind_inv H; bind_inv H.
  apply new_fields in H; destruct H as [Hv Hp].
  exists a, a0; split; [reflexivity |].
  destruct (plane P); simpl in E0; [| discriminate].
  injection E0 as ->; split; [reflexivity |].
  rewrite Hv, allocate_elements, Hp, map_map; split; reflexivity.
Qed.

Lemma scale_total P k c fresh first pl :
  dataAt (vertices P) 0 = Return first -> plane P = Some pl ->
  exists P', scale P k c fresh = Return P'.
Proof.
  intros Hf Hp; unfold scale; rewrite Hf, Hp; simpl.
  destruct (new_total
              (allocate fresh
                 (map (fun node =>
                         Vector.V3
                           (Vector.E0 c + k * (Vector.E0 (elements node) - Vector.E0 c))
                           (Vector.E1 c + k * (Vector.E1 (elements node) - Vector.E1 c))
                           (Vector.E2 c + k * (Vector.E2 (elements node) - Vector.E2 c)))
                      (vertices P)))
              (Plane.new (elements first) (Plane.normal pl))) as [P' [H _]].
  exists P'; exact H.
Qed.

(** C1 (the code departs from the claim): the unit square of the plane
    z = 1 scaled by 2 about the origin.  The vertices are mapped to
    c + k (v - c) and lie in the plane z = 2, but the plane of the result
    is anchored at the first vertex of the receiver, (0, 0, 1), not at the
    first scaled vertex, (0, 0, 2): none of the new vertices lies in the
    plane of the new polygon. *)
Theorem scale_anchors_plane_at_unscaled_vertex :
  exists P P' pl',
    new Sample.raisedSquare (Some Sample.raised) = Return P /\
    scale P 2 Vector.Zero3 4 = Return P' /\
    map elements (vertices P') =
      [Vector.V3 0 0 2; Vector.V3 2 0 2; Vector.V3 2 2 2; Vector.V3 0 2 2] /\
    plane P' = Some pl' /\
    Plane.anchor pl' = Vector.V3 0 0 1 /\
    Plane.normal pl' = Sample.up /\
    Plane.anchor pl' <> Vector.V3 0 0 2 /\
    (forall v, In v (vertices P') ->
               Plane.contains pl' (elements v) Sylvester.precision = false).
Proof.
  destruct (new_total Sample.raisedSquare Sample.raised)
    as [P [HP [Hv [Hp _]]]].
  assert (Hf : dataAt (vertices P) 0 = Return (Sample.vx 0 0 0 1))
    by (rewrite Hv; reflexivity).
  destruct (scale_total P 2 Vector.Zero3 4%nat _ _ Hf Hp) as [P' HP'].
  destruct (scale_returns _ _ _ _ _ HP') as [first [pl [Hf' [Hp' [Hm Hq]]]]].
  rewrite Hf in Hf'; injection Hf' as <-.
  rewrite Hp in Hp'; injection Hp' as <-.
  assert (Hm' : map elements (vertices P') =
      [Vector.V3 0 0 2; Vector.V3 2 0 2; Vector.V3 2 2 2; Vector.V3 0 2 2]).
  { rewrite Hm, Hv; unfold scaled; simpl.
    repeat (f_equal; try lra). }
  exists P, P', (Plane.mk (Vector.V3 0 0 1) Sample.up).
  repeat split; try assumption; try reflexivity.
  - intros [= H]; lra.
  - intros v Hin.
    apply (in_map elements) in Hin; rewrite Hm' in Hin.
    unfold Plane.contains, Vector.dot, Vector.subtract; simpl.
    simpl in Hin; repeat destruct Hin as [<- | Hin]; try contradiction;
      simpl; rdecide.
Qed.

(* ------------------------------------------------------------------ *)
(** ** The fan of the surface integral *)

Lemma modulus_eq a m : 0 <= m -> Vector.dot a a = m * m -> Vector.modulus a = m.
Proof. intros Hm H; unfold Vector.modulus; rewrite H; apply sqrt_square, Hm. Qed.

Lemma fromPoints_eval a b c n m :
  Vector.cross (Vector.subtract b a) (Vector.subtract c a) = n ->
  Vector.modulus n = m -> m <> 0 ->
  Plane.fromPoints a b c =
  Some (Plane.mk a (Vector.V3 (Vector.E0 n / m) (Vector.E1 n / m) (Vector.E2 n / m))).
Proof.
  intros Hn Hm Hz; unfold Plane.fromPoints; rewrite Hn; cbv zeta.
  unfold Vector.toUnitVector; rewrite Hm.
  assert (Reqb m 0 = false) as -> by (apply Reqb_false; exact Hz).
  reflexivity.
Qed.

Lemma mapM_Forall {A B} (f : A -> result B) (Q : B -> Prop) l bs :
  mapM f l = Return bs ->
  (forall a b, In a l -> f a = Return b -> Q b) ->
  Forall Q bs.
Proof.
  revert bs; induction l as [| a l IH]; intros bs H HQ; simpl in H.
  - injection H as <-; constructor.
  - bind_as H b Eb; bind_as H bs' Ebs; injection H as <-.
    constructor.
    + apply (HQ a b (or_introl eq_refl) Eb).
    + apply IH; [reflexivity |].
      intros x y Hx; apply HQ; right; exact Hx.
Qed.

(** Every polygon of the fan is a triangle: its area is the closed
    form. *)
Lemma fan_isTriangle this trigs :
  trianglesForSurfaceIntegral this = Return trigs ->
  Forall (fun t => isTriangle t = true /\ area t = area_closed t) trigs.
Proof.
  unfold trianglesForSurfaceIntegral; intros H.
  bind_as H firstVertex Ef.
  apply (mapM_Forall _ _ _ _ H).
  intros node t _ Ht.
  bind_as Ht prev Ep; bind_as Ht data Ed.
  apply new_fields in Ht; destruct Ht as [Hv _].
  assert (isTriangle t = true) as E by (unfold isTriangle; rewrite Hv; reflexivity).
  split; [exact E |].
  unfold area; rewrite E; reflexivity.
Qed.

Ltac vec_eq := unfold Vector.cross, Vector.subtract, Vector.dot; simpl; try (f_equal; lra); try lra.

Lemma dart_colinear_abc :
  colinear (elements Sample.dartA) (elements Sample.dartB) (elements Sample.dartC) = true.
Proof. unfold colinear; simpl; rdecide. Qed.

Lemma dart_colinear_acd :
  colinear (elements Sample.dartA) (elements Sample.dartC) (elements Sample.dartD) = false.
Proof. unfold colinear; simpl; rdecide. Qed.

Lemma dart_fit_abc :
  Plane.fromPoints (elements Sample.dartA) (elements Sample.dartB) (elements Sample.dartC)
  = Some (Plane.mk (Vector.V3 0 0 0) (Vector.V3 0 0 (-1))).
Proof.
  rewrite (@fromPoints_eval _ _ _ (Vector.V3 0 0 (-4)) 4).
  - simpl; do 3 f_equal; lra.
  - vec_eq.
  - apply modulus_eq; [lra | vec_eq].
  - lra.
Qed.

Lemma dart_fit_acd :
  Plane.fromPoints (elements Sample.dartA) (elements Sample.dartC) (elements Sample.dartD)
  = Some Sample.ground.
Proof.
  rewrite (@fromPoints_eval _ _ _ (Vector.V3 0 0 12) 12).
  - unfold Sample.ground, Sample.up; simpl; do 3 f_equal; lra.
  - vec_eq.
  - apply modulus_eq; [lra | vec_eq].
  - lra.
Qed.

Lemma dart_fan P :
  vertices P = Sample.dart -> plane P = Some Sample.ground ->
  exists t1 t2,
    trianglesForSurfaceIntegral P = Return [t1; t2] /\
    vertices t1 = [Sample.dartA; Sample.dartB; Sample.dartC] /\
    plane t1 = Some Sample.ground /\
    vertices t2 = [Sample.dartA; Sample.dartC; Sample.dartD] /\
    plane t2 = Some Sample.ground.
Proof.
  intros Hv Hp.
  destruct (new_total [Sample.dartA; Sample.dartB; Sample.dartC] Sample.ground)
    as [t1 [H1 [V1 [P1 _]]]].
  destruct (new_total [Sample.dartA; Sample.dartC; Sample.dartD] Sample.ground)
    as [t2 [H2 [V2 [P2 _]]]].
  exists t1, t2; repeat split; try assumption.
  unfold trianglesForSurfaceIntegral; rewrite Hv, Hp; simpl.
  change (Vector.V3 0 0 0) with (elements Sample.dartA).
  change (Vector.V3 1 1 0) with (elements Sample.dartB).
  change (Vector.V3 2 (-2) 0) with (elements Sample.dartC).
  change (Vector.V3 2 4 0) with (elements Sample.dartD).
  rewrite dart_colinear_abc, dart_colinear_acd, dart_fit_acd, H1, H2.
  reflexivity.
Qed.

(** C5 (the code departs from the claim): the fan of the quadrilateral
    [Sample.dart].  Its first triangle (a, b, c) is not degenerate: the
    three points are not collinear and a plane fits them, with the normal
    (0, 0, -1).  The code's [colinear] test is true for it all the same,
    and the triangle is given the plane of the parent polygon, not the
    fitted one. *)
Theorem fan_plane_not_chosen_by_collinearity :
  exists P t1 t2 fitted,
    new Sample.dart (Some Sample.ground) = Return P /\
    trianglesForSurfaceIntegral P = Return [t1; t2] /\
    vertices t1 = [Sample.dartA; Sample.dartB; Sample.dartC] /\
    Plane.fromPoints (elements Sample.dartA) (elements Sample.dartB)
                     (elements Sample.dartC) = Some fitted /\
    plane t1 = plane P /\
    plane t1 <> Some fitted.
Proof.
  destruct (new_total Sample.dart Sample.ground) as [P [HP [Hv [Hp _]]]].
  destruct (dart_fan P Hv Hp) as [t1 [t2 [Hf [V1 [P1 _]]]]].
  exists P, t1, t2, (Plane.mk (Vector.V3 0 0 0) (Vector.V3 0 0 (-1))).
  repeat split; try assumption.
  - apply dart_fit_abc.
  - congruence.
  - rewrite P1; unfold Sample.ground, Sample.up; intros [= H]; lra.
Qed.

(* ------------------------------------------------------------------ *)
(** ** Angles of concrete corners *)

Lemma lagrange a b :
  Vector.dot (Vector.cross a b) (Vector.cross a b) =
  Vector.dot a a * Vector.dot b b - Vector.dot a b * Vector.dot a b.
Proof. unfold Vector.dot, Vector.cross; simpl; ring. Qed.

Lemma modulus_sqr a : Vector.modulus a * Vector.modulus a = Vector.dot a a.
Proof. apply sqrt_sqrt, dot_self_nonneg. Qed.

Lemma modulus_pos a : 0 < Vector.dot a a -> 0 < Vector.modulus a.
Proof. apply sqrt_lt_R0. Qed.

(** An angle whose sine exceeds [eps] is further than [eps] from 0 and
    from PI. *)
Lemma sine_gap theta eps :
  0 <= eps -> 0 <= theta <= PI -> eps < sin theta ->
  eps < theta /\ eps < Rabs (theta - PI).
Proof.
  intros He [H0 Hpi] Hs.
  assert (0 < theta).
  { destruct H0 as [H | <-]; [exact H |]. rewrite sin_0 in Hs; lra. }
  assert (theta < PI).
  { destruct Hpi as [H' | ->]; [exact H' |]. rewrite sin_PI in Hs; lra. }
  split.
  - pose proof (sin_lt_x theta H); lra.
  - assert (0 < PI - theta) as Hp by lra.
    pose proof (sin_lt_x _ Hp) as Hlt; rewrite sin_PI_x in Hlt.
    rewrite Rabs_left by lra; lra.
Qed.

Lemma angleFrom_turn a b eps :
  0 <= eps -> 0 < Vector.dot a a -> 0 < Vector.dot b b ->
  eps * eps * (Vector.dot a a * Vector.dot b b) <
    Vector.dot (Vector.cross a b) (Vector.cross a b) ->
  exists theta, Vector.angleFrom a b = Some theta /\
                eps < theta /\ eps < Rabs (theta - PI).
Proof.
  intros He Ha Hb Hc.
  pose proof (modulus_pos a Ha) as Ma; pose proof (modulus_pos b Hb) as Mb.
  pose proof (modulus_sqr a) as Sa; pose proof (modulus_sqr b) as Sb.
  set (ma := Vector.modulus a) in *; set (mb := Vector.modulus b) in *.
  assert (Hm : 0 < ma * mb) by (apply Rmult_lt_0_compat; assumption).
  unfold Vector.angleFrom; fold ma mb.
  assert (Reqb (ma * mb) 0 = false) as -> by (apply Reqb_false; lra).
  eexists; split; [reflexivity |].
  set (x := Vector.dot a b / (ma * mb)).
  assert (Hx : 1 - x * x =
               Vector.dot (Vector.cross a b) (Vector.cross a b)
               / (Vector.dot a a * Vector.dot b b)).
  { rewrite lagrange; unfold x; rewrite <- Sa, <- Sb; field; lra. }
  assert (Hd : 0 < Vector.dot a a * Vector.dot b b)
    by (apply Rmult_lt_0_compat; assumption).
  assert (Hgap : eps * eps < 1 - x * x).
  { rewrite Hx; apply Rmult_lt_reg_r with (Vector.dot a a * Vector.dot b b);
      [exact Hd |].
    replace (Vector.dot (Vector.cross a b) (Vector.cross a b)
             / (Vector.dot a a * Vector.dot b b)
             * (Vector.dot a a * Vector.dot b b))
      with (Vector.dot (Vector.cross a b) (Vector.cross a b))
      by (field; lra).
    exact Hc. }
  assert (Hr : -1 <= x <= 1) by (split; nra).
  apply sine_gap; [exact He | apply acos_bound |].
  rewrite sin_acos by exact Hr.
  unfold Rsqr.
  rewrite <- (sqrt_square eps He) at 1.
  apply sqrt_lt_1; nra.
Qed.

Lemma isConvex_turn v P node prev next pl :
  nodeFor P v = Some node ->
  dataAt (vertices P) (Ring.prev (vertices P) node) = Return prev ->
  dataAt (vertices P) (Ring.next (vertices P) node) = Return next ->
  plane P = Some pl ->
  let A := Vector.subtract (elements next) (elements v) in
  let B := Vector.subtract (elements prev) (elements v) in
  0 < Vector.dot A A -> 0 < Vector.dot B B ->
  Sylvester.precision * Sylvester.precision *
    (Vector.dot A A * Vector.dot B B) <
    Vector.dot (Vector.cross A B) (Vector.cross A B) ->
  Vertex.isConvex v P =
  Return (Rltb 0 (Vector.dot (Vector.cross A B) (Plane.normal pl))).
Proof.
  intros Hn Hp Hx Hpl A B Ha Hb Hc.
  destruct (@angleFrom_turn A B Sylvester.precision) as [theta [Ht [H1 H2]]];
    try assumption.
  { pose proof precision_pos; lra. }
  unfold Vertex.isConvex; rewrite Hn; cbv zeta; rewrite Hp, Hx; simpl.
  fold A B; rewrite Ht, Hpl; simpl.
  apply Rleb_false in H1; apply Rleb_false in H2; rewrite H1, H2.
  reflexivity.
Qed.

(** The position of a vertex in a concrete ring. *)
Ltac node_eval :=
  unfold nodeFor, Ring.findNode; simpl;
  unfold vertexCompare, Vector.eql; simpl; rdecide.

(** An inequality between concrete vectors. *)
Ltac arith_eval :=
  unfold Vector.dot, Vector.cross, Vector.subtract, Sylvester.precision;
  simpl; lra.

(** Classify a vertex of a concrete polygon: [node] is its position,
    [prev] and [next] its neighbours, [pl] the plane. *)
Ltac convex_eval node prev next pl :=
  rewrite (@isConvex_turn _ _ node prev next pl);
  [ f_equal; unfold Vector.dot, Vector.cross, Vector.subtract; simpl; rdecide
  | node_eval | reflexivity | reflexivity | reflexivity
  | arith_eval | arith_eval | arith_eval ].

(* ------------------------------------------------------------------ *)
(** ** The area of a quadrilateral *)

Lemma dart_new : new Sample.dart (Some Sample.ground) = Return dartPolygon.
Proof.
  unfold new, populateVertexTypeLists; simpl.
  convex_eval 0%nat Sample.dartD Sample.dartB Sample.ground.
  convex_eval 1%nat Sample.dartA Sample.dartC Sample.ground.
  convex_eval 2%nat Sample.dartB Sample.dartD Sample.ground.
  convex_eval 3%nat Sample.dartC Sample.dartA Sample.ground.
Qed.

Lemma floor_index_unit x : 0 <= x < 1 -> floor_index x = 0%nat.
Proof.
  intros [H0 H1]; unfold floor_index.
  rewrite <- (Int_part_spec x 0); [reflexivity |].
  simpl; lra.
Qed.

Lemma scan_accept plane_ poly offset i cands convexNode mainNode
      data next prev trig :
  Ring.at_ (convexVertices poly) (offset + i) = Some convexNode ->
  Ring.findNode (vertices poly) (fun d => vertexCompare d convexNode)
    = Some mainNode ->
  dataAt (vertices poly) mainNode = Return data ->
  dataAt (vertices poly) (Ring.next (vertices poly) mainNode) = Return next ->
  dataAt (vertices poly) (Ring.prev (vertices poly) mainNode) = Return prev ->
  new [data; next; prev] plane_ = Return trig ->
  someM (insideEar trig prev next) (reflexVertices poly) = Return false ->
  scanCandidates plane_ poly offset (i :: cands) = Return (Some (trig, data)).
Proof.
  intros H1 H2 H3 H4 H5 H6 H7; simpl.
  rewrite H1; simpl; rewrite H2; simpl; rewrite H3; simpl; rewrite H4; simpl;
    rewrite H5; simpl; rewrite H6; simpl; rewrite H7; reflexivity.
Qed.

Lemma earLoop_done random plane_ fuel poly draw triangles :
  isTriangle poly = true ->
  earLoop random plane_ (S fuel) poly draw triangles
  = Some (Return (triangles ++ [poly])).
Proof. intros H; simpl; rewrite H; reflexivity. Qed.

Lemma earLoop_clip random plane_ fuel poly draw triangles trig data poly' :
  isTriangle poly = false ->
  scanCandidates plane_ poly
    (floor_index (random draw * INR (length (convexVertices poly))))
    (seq 0 (length (convexVertices poly))) = Return (Some (trig, data)) ->
  removeVertex poly data = Return poly' ->
  earLoop random plane_ (S fuel) poly draw triangles
  = earLoop random plane_ fuel poly' (S draw) (triangles ++ [trig]).
Proof.
  intros H1 H2 H3; cbn [earLoop]; rewrite H1; cbv zeta.
  rewrite H2, H3; reflexivity.
Qed.

Lemma area_closed_triangle t a b c :
  vertices t = [a; b; c] ->
  area_closed t =
  Return (0.5 * Vector.modulus
                  (Vector.cross (Vector.subtract (elements a) (elements b))
                                (Vector.subtract (elements c) (elements b)))).
Proof. intros H; unfold area_closed; rewrite H; reflexivity. Qed.

Lemma area_triangle t a b c m :
  vertices t = [a; b; c] -> 0 <= m ->
  (let n := Vector.cross (Vector.subtract (elements a) (elements b))
                         (Vector.subtract (elements c) (elements b)) in
   Vector.dot n n = m * m) ->
  area t = Return (0.5 * m) /\ area_closed t = Return (0.5 * m).
Proof.
  intros H Hm Hn.
  assert (area_closed t = Return (0.5 * m)).
  { rewrite (area_closed_triangle t a b c H), (@modulus_eq _ m Hm Hn); reflexivity. }
  split; [| assumption].
  unfold area, isTriangle; rewrite H; simpl; assumption.
Qed.

Lemma dart_area : area dartPolygon = Return 8.
Proof.
  destruct (dart_fan dartPolygon eq_refl eq_refl)
    as [t1 [t2 [Hf [V1 [P1 [V2 P2]]]]]].
  unfold area; change (isTriangle dartPolygon) with false; cbv iota.
  rewrite Hf; simpl.
  destruct (@area_triangle t1 _ _ _ 4 V1) as [_ ->]; [lra | arith_eval |].
  destruct (@area_triangle t2 _ _ _ 12 V2) as [_ ->]; [lra | arith_eval |].
  rewrite P1, P2; simpl.
  f_equal; unfold Vector.dot; simpl; lra.
Qed.

Lemma dart_triangles random :
  0 <= random 0%nat < / 3 ->
  exists trig rest,
    toTriangles random dartPolygon = Some (Return [trig; rest]) /\
    vertices trig = [Sample.dartA; Sample.dartB; Sample.dartD] /\
    vertices rest = [Sample.dartB; Sample.dartC; Sample.dartD].
Proof.
  intros Hr.
  destruct (new_total [Sample.dartA; Sample.dartB; Sample.dartD] Sample.ground)
    as [trig [Ht [Vt _]]].
  destruct (new_total [Sample.dartB; Sample.dartC; Sample.dartD] Sample.ground)
    as [rest [Hq [Vq _]]].
  exists trig, rest; repeat split; try assumption.
  unfold toTriangles, triangulateByEarClipping.
  change (S (length (vertices dartPolygon))) with 5%nat.
  rewrite (@earLoop_clip random _ 4 dartPolygon 0 [] trig Sample.dartA rest).
  - apply earLoop_done; unfold isTriangle; rewrite Vq; reflexivity.
  - reflexivity.
  - change (length (convexVertices dartPolygon)) with 3%nat.
    rewrite floor_index_unit by (simpl; lra).
    change (seq 0 3) with [0; 1; 2]%nat.
    eapply scan_accept with (mainNode := 0%nat).
    + reflexivity.
    + node_eval.
    + reflexivity.
    + reflexivity.
    + reflexivity.
    + exact Ht.
    + reflexivity.
  - unfold removeVertex; change (isTriangle dartPolygon) with false; cbv iota.
    replace (filter _ (vertices dartPolygon))
      with [Sample.dartB; Sample.dartC; Sample.dartD]; [exact Hq |].
    simpl; unfold Vector.eql; simpl; rdecide.
Qed.

(** C2 (the code departs from the claim): the simple quadrilateral
    [Sample.dart], of area 4.  The two triangles of [toTriangles] (here
    for a first random draw of 0) have the areas 1 and 3, but [area]
    returns 8: the fan triangle (a, b, c), which is wound against the
    polygon, passes the [colinear] test, gets the plane of the polygon and
    is added instead of subtracted. *)
Theorem triangle_areas_differ_from_area :
  exists P ts,
    new Sample.dart (Some Sample.ground) = Return P /\
    toTriangles (fun _ => 0) P = Some (Return ts) /\
    length ts = 2%nat /\
    sumOfAreas ts = Return 4 /\
    area P = Return 8 /\
    Sylvester.precision < Rabs (4 - 8).
Proof.
  destruct (dart_triangles (fun _ => 0)) as [trig [rest [Ht [Vt Vr]]]];
    [lra |].
  exists dartPolygon, [trig; rest].
  split; [exact dart_new |].
  split; [exact Ht |].
  split; [reflexivity |].
  split; [| split; [exact dart_area | rdecide]].
  simpl.
  destruct (area_triangle trig _ _ _ 2 Vt) as [-> _]; [lra | arith_eval |].
  destruct (area_triangle rest _ _ _ 6 Vr) as [-> _]; [lra | arith_eval |].
  simpl; f_equal; lra.
Qed.

(* ------------------------------------------------------------------ *)
(** ** Triangulation and containment *)

Lemma eql_sym a b eps : Vector.eql a b eps = Vector.eql b a eps.
Proof.
  unfold Vector.eql.
  rewrite (Rabs_minus_sym (Vector.E0 a)), (Rabs_minus_sym (Vector.E1 a)),
          (Rabs_minus_sym (Vector.E2 a)); reflexivity.
Qed.

Lemma precision_nonneg : 0 <= Sylvester.precision.
Proof. pose proof precision_pos; lra. Qed.

Lemma filter_all {A} (f : A -> bool) l :
  (forall a, In a l -> f a = true) -> filter f l = l.
Proof.
  induction l as [| a l IH]; intros H; simpl; [reflexivity |].
  rewrite (H a (or_introl eq_refl)), IH; [reflexivity |].
  intros b Hb; apply H; right; exact Hb.
Qed.

Lemma filter_length_lt {A} (f : A -> bool) l d :
  In d l -> f d = false -> (length (filter f l) < length l)%nat.
Proof.
  induction l as [| a l IH]; intros Hin Hf; [destruct Hin |].
  simpl; destruct Hin as [-> | Hin].
  - rewrite Hf; pose proof (filter_length_le f l); lia.
  - specialize (IH Hin Hf); destruct (f a); simpl; lia.
Qed.


Lemma distinct_nth l i j u v :
  distinctVertices l -> i <> j ->
  nth_error l i = Some u -> nth_error l j = Some v ->
  elements u <> elements v.
Proof.
  intros Hd; revert i j; induction Hd as [| x l Hx Hl IH]; intros i j Hij Hi Hj.
  - destruct i; discriminate.
  - rewrite Forall_forall in Hx.
    destruct i as [| i], j as [| j]; simpl in Hi, Hj.
    + contradiction.
    + injection Hi as <-; apply nth_error_In in Hj.
      apply (eql_false_neq _ _ _ precision_nonneg (Hx v Hj)).
    + injection Hj as <-; apply nth_error_In in Hi.
      intros E; symmetry in E; revert E.
      apply (eql_false_neq _ _ _ precision_nonneg (Hx u Hi)).
    + apply (IH i j); [lia | assumption | assumption].
Qed.

Lemma next_eq {A} (l : list A) k :
  (k < length l)%nat ->
  Ring.next l k = if Nat.eqb (S k) (length l) then 0%nat else S k.
Proof.
  intros H; unfold Ring.next; rewrite Nat.add_1_r.
  destruct (Nat.eqb (S k) (length l)) eqn:E.
  - apply Nat.eqb_eq in E; rewrite E; apply Nat.Div0.mod_same.
  - apply Nat.eqb_neq in E; apply Nat.mod_small; lia.
Qed.

Lemma prev_eq {A} (l : list A) k :
  (k < length l)%nat ->
  Ring.prev l k = if Nat.eqb k 0 then (length l - 1)%nat else (k - 1)%nat.
Proof.
  intros H; unfold Ring.prev.
  destruct (Nat.eqb k 0) eqn:E.
  - apply Nat.eqb_eq in E; subst k; apply Nat.mod_small; lia.
  - apply Nat.eqb_neq in E.
    replace (k + (length l - 1))%nat with ((k - 1) + 1 * length l)%nat by lia.
    rewrite Nat.Div0.mod_add; apply Nat.mod_small; lia.
Qed.

Lemma neighbours_apart {A} (l : list A) k :
  (3 <= length l)%nat -> (k < length l)%nat ->
  Ring.next l k <> k /\ Ring.prev l k <> k /\ Ring.next l k <> Ring.prev l k.
Proof.
  intros H3 Hk; rewrite (next_eq l k Hk), (prev_eq l k Hk).
  destruct (Nat.eqb_spec (S k) (length l)), (Nat.eqb_spec k 0); lia.
Qed.

Lemma someM_total {A} (f : A -> result bool) l :
  (forall a, In a l -> exists b, f a = Return b) ->
  exists b, someM f l = Return b.
Proof.
  induction l as [| a l IH]; intros H; simpl; [eexists; reflexivity |].
  destruct (H a (or_introl eq_refl)) as [b ->]; simpl.
  destruct b; [eexists; reflexivity |].
  apply IH; intros x Hx; apply H; right; exact Hx.
Qed.

Lemma someM_true {A} (f : A -> result bool) l :
  (forall a, In a l -> exists b, f a = Return b) ->
  (exists a, In a l /\ f a = Return true) ->
  someM f l = Return true.
Proof.
  induction l as [| a l IH]; intros H [x [Hx Hf]]; [destruct Hx |].
  simpl; destruct (H a (or_introl eq_refl)) as [b Hb]; rewrite Hb; simpl.
  destruct b; [reflexivity |].
  apply IH.
  - intros y Hy; apply H; right; exact Hy.
  - destruct Hx as [-> | Hx]; [congruence |].
    exists x; split; assumption.
Qed.

Lemma dataAt_nth l i u : dataAt l i = Return u <-> nth_error l i = Some u.
Proof.
  unfold dataAt, Ring.data; destruct (nth_error l i); simpl; split;
    intros H; try discriminate; injection H as ->; reflexivity.
Qed.

Lemma dataAt_return l i u :
  dataAt l i = Return u -> (i < length l)%nat /\ In u l.
Proof.
  intros H; apply dataAt_nth in H; split.
  - apply nth_error_Some; congruence.
  - eapply nth_error_In; exact H.
Qed.

Lemma hasEdgeContaining_edges P q :
  hasEdgeContaining P q
  = someM (edgeContains (vertices P) q) (Ring.nodes (vertices P)).
Proof. reflexivity. Qed.

Lemma edgeContains_total ring q node :
  properEdges ring -> (node < length ring)%nat ->
  exists data next l,
    dataAt ring node = Return data /\
    dataAt ring (Ring.next ring node) = Return next /\
    edgeContains ring q node
    = Return (Segment.contains (Segment.mk l (elements data) (elements next)) q).
Proof.
  intros Hpe Hn.
  destruct (dataAt_lt ring _ Hn) as [d [Hd _]].
  destruct (dataAt_lt ring _ (next_lt ring _ Hn)) as [n [Hx _]].
  destruct (Segment_new_distinct _ _ (Hpe node d n Hd Hx)) as [l Hl].
  exists d, n, l; repeat split; try assumption.
  unfold edgeContains; rewrite Hd, Hx; simpl; rewrite Hl; reflexivity.
Qed.

Lemma hasEdgeContaining_total P q :
  properEdges (vertices P) -> exists b, hasEdgeContaining P q = Return b.
Proof.
  intros Hpe; rewrite hasEdgeContaining_edges; apply someM_total.
  intros node Hin; unfold Ring.nodes in Hin; apply in_seq in Hin.
  destruct (edgeContains_total (vertices P) q node Hpe) as [d [n [l [_ [_ H]]]]];
    [lia |].
  eexists; exact H.
Qed.

Lemma windingStep_total P pl q eps st node :
  plane P = Some pl -> (node < length (vertices P))%nat ->
  exists st', windingStep P q eps st node = Return st'.
Proof.
  intros Hp Hn; unfold windingStep.
  destruct (dataAt_lt (vertices P) _ Hn) as [d [Hd _]].
  destruct (dataAt_lt (vertices P) _ (next_lt (vertices P) _ Hn)) as [n [Hx _]].
  rewrite Hd, Hx; simpl.
  destruct (Vector.angleFrom _ _); [| eexists; reflexivity].
  destruct (Reqb r 0); [eexists; reflexivity |].
  rewrite Hp; simpl.
  repeat match goal with
         | |- context [if ?c then _ else _] => destruct c
         end; eexists; reflexivity.
Qed.

Lemma windingLoop_total P pl q eps nodes st :
  plane P = Some pl ->
  (forall node, In node nodes -> (node < length (vertices P))%nat) ->
  exists st', windingLoop P q eps nodes st = Return st'.
Proof.
  intros Hp; revert st; induction nodes as [| node nodes IH]; intros st H;
    simpl; [eexists; reflexivity |].
  destruct (windingStep_total P pl q eps st node Hp (H node (or_introl eq_refl)))
    as [st' ->]; simpl.
  apply IH; intros x Hx; apply H; right; exact Hx.
Qed.

Lemma contains_total P pl q eps :
  plane P = Some pl -> properEdges (vertices P) ->
  exists b, contains P q eps = Return b.
Proof.
  intros Hp Hpe; rewrite contains_verdict; unfold containsVerdict.
  rewrite Hp; simpl.
  destruct (negb (Plane.contains pl q eps)); [eexists; reflexivity |].
  destruct (hasEdgeContaining_total P q Hpe) as [b ->]; simpl.
  destruct b; [eexists; reflexivity |].
  destruct (windingLoop_total P pl q eps (Ring.nodes (vertices P)) (0, 0%Z) Hp)
    as [st ->].
  - intros node Hin; apply in_seq in Hin; lia.
  - eexists; reflexivity.
Qed.

Lemma properEdges_triangle a b c :
  elements a <> elements b -> elements b <> elements c ->
  elements c <> elements a -> properEdges [a; b; c].
Proof.
  intros Hab Hbc Hca i u v Hu Hv.
  destruct i as [| [| [| i]]]; simpl in Hu, Hv;
    try (injection Hu as <-; injection Hv as <-; assumption).
  apply dataAt_nth in Hu; simpl in Hu; destruct i; discriminate.
Qed.

Lemma insideEar_total trig pl prev next node :
  plane trig = Some pl -> properEdges (vertices trig) ->
  exists b, insideEar trig prev next node = Return b.
Proof.
  intros Hp Hpe; unfold insideEar.
  destruct (differs node prev && differs node next); [| eexists; reflexivity].
  destruct (contains_total trig pl (elements node) Sylvester.precision Hp Hpe)
    as [b ->]; simpl.
  destruct b; [eexists; reflexivity |].
  apply hasEdgeContaining_total, Hpe.
Qed.

(** What an accepted candidate is, whatever the polygon. *)
Lemma scan_returns plane_ poly offset cands trig data :
  scanCandidates plane_ poly offset cands = Return (Some (trig, data)) ->
  In data (vertices poly) /\
  exists next prev, new [data; next; prev] plane_ = Return trig.
Proof.
  induction cands as [| i cands IH]; simpl; [discriminate |].
  intros H.
  bind_as H cv Ecv. bind_as H k Ek. bind_as H d Ed. bind_as H n En.
  bind_as H p Ep. bind_as H tr Et. bind_as H found Ef.
  destruct found; simpl in H; [apply IH, H |].
  injection H as <- <-.
  split; [apply (dataAt_return _ _ _ Ed) |].
  exists n, p; exact Et.
Qed.

Lemma at_in {A} (l : list A) i :
  l <> [] -> exists a, Ring.at_ l i = Some a /\ In a l.
Proof.
  intros H; unfold Ring.at_.
  assert (i mod length l < length l)%nat.
  { apply Nat.mod_upper_bound; destruct l; [contradiction | simpl; lia]. }
  destruct (nth_error l (i mod length l)) eqn:E.
  - exists a; split; [reflexivity | eapply nth_error_In; exact E].
  - apply nth_error_None in E; lia.
Qed.


(** The loop ends: whatever the polygon and the random draws, one turn
    per vertex and one more are enough. *)
Lemma earLoop_fuel random plane_ fuel poly draw triangles :
  (length (vertices poly) < fuel)%nat ->
  earLoop random plane_ fuel poly draw triangles <> None.
Proof.
  revert poly draw triangles; induction fuel as [| fuel IH];
    intros poly draw triangles Hlt; [lia |].
  cbn [earLoop].
  destruct (isTriangle poly) eqn:Et; [discriminate |].
  cbv zeta.
  destruct (scanCandidates _ _ _ _) as [[[trig data] |] |] eqn:Es;
    try discriminate.
  destruct (removeVertex poly data) as [poly' |] eqn:Er; [| discriminate].
  apply IH.
  apply scan_returns in Es; destruct Es as [Hin _].
  unfold removeVertex in Er; rewrite Et in Er.
  apply new_fields in Er; destruct Er as [-> _].
  pose proof (filter_length_lt
                (fun n => negb (Vector.eql (elements data) (elements n)
                                           Sylvester.precision))
                (vertices poly) data Hin) as Hf.
  cbv beta in Hf; rewrite eql_refl in Hf by exact precision_nonneg.
  specialize (Hf eq_refl); lia.
Qed.


(** *** Rings that are convex except at one vertex *)




Lemma subring_length l' l : subring l' l -> (length l' <= length l)%nat.
Proof. intros H; induction H; simpl; lia. Qed.

Lemma subring_full l' l :
  subring l' l -> (length l <= length l')%nat -> l' = l.
Proof.
  intros H; induction H as [| v l' l H IH | v l' l H IH]; simpl; intros Hl.
  - reflexivity.
  - pose proof (subring_length _ _ H); lia.
  - f_equal; apply IH; lia.
Qed.





Lemma findFrom_distinct l j v s :
  distinctVertices l -> nth_error l j = Some v ->
  Ring.findFrom (fun d => vertexCompare d v) l s = Some (s + j)%nat.
Proof.
  intros Hd; revert j s; induction Hd as [| x l Hx Hl IH]; intros j s Hj.
  - destruct j; discriminate.
  - destruct j as [| j]; simpl in Hj |- *.
    + injection Hj as ->; rewrite vertexCompare_refl, Nat.add_0_r; reflexivity.
    + rewrite Forall_forall in Hx.
      unfold vertexCompare at 1; rewrite (Hx v (nth_error_In _ _ Hj)).
      rewrite (IH j (S s) Hj); f_equal; lia.
Qed.






(** One candidate of the scan: it is accepted, or the scan goes on. *)
Lemma scan_candidate pl poly offset i cands cv j :
  plane poly = Some pl ->
  distinctVertices (vertices poly) ->
  (3 <= length (vertices poly))%nat ->
  Ring.at_ (convexVertices poly) (offset + i) = Some cv ->
  nth_error (vertices poly) j = Some cv ->
  exists n p trig found,
    dataAt (vertices poly) (Ring.next (vertices poly) j) = Return n /\
    dataAt (vertices poly) (Ring.prev (vertices poly) j) = Return p /\
    vertices trig = [cv; n; p] /\ plane trig = Some pl /\
    properEdges (vertices trig) /\
    someM (insideEar trig p n) (reflexVertices poly) = Return found /\
    scanCandidates (Some pl) poly offset (i :: cands)
    = if negb found then Return (Some (trig, cv))
      else scanCandidates (Some pl) poly offset cands.
Proof.
  intros Hp Hd H3 Hat Hj.
  assert (Hlt : (j < length (vertices poly))%nat)
    by (apply nth_error_Some; congruence).
  assert (Hk : Ring.findNode (vertices poly) (fun d => vertexCompare d cv)
               = Some j) by (apply (findFrom_distinct _ _ _ 0%nat Hd Hj)).
  pose proof (proj2 (dataAt_nth _ _ _) Hj) as Hd0.
  destruct (dataAt_lt (vertices poly) _ (next_lt (vertices poly) _ Hlt))
    as [n [Hn _]].
  destruct (dataAt_lt (vertices poly) _ (prev_lt (vertices poly) _ Hlt))
    as [p [Hpv _]].
  destruct (neighbours_apart (vertices poly) j H3 Hlt) as [N1 [N2 N3]].
  pose proof (proj1 (dataAt_nth _ _ _) Hn) as En.
  pose proof (proj1 (dataAt_nth _ _ _) Hpv) as Ep.
  destruct (new_total [cv; n; p] pl) as [trig [Ht [Vt [Pt _]]]].
  assert (Hpe : properEdges (vertices trig)).
  { rewrite Vt; apply properEdges_triangle.
    - apply (distinct_nth _ _ _ _ _ Hd (not_eq_sym N1) Hj En).
    - apply (distinct_nth _ _ _ _ _ Hd N3 En Ep).
    - apply (distinct_nth _ _ _ _ _ Hd N2 Ep Hj). }
  destruct (@someM_total _ (insideEar trig p n) (reflexVertices poly))
    as [found Hf].
  { intros a _; apply (insideEar_total trig pl p n a Pt Hpe). }
  exists n, p, trig, found; repeat split; try assumption.
  simpl; rewrite Hat; simpl; rewrite Hk; simpl.
  rewrite Hd0; simpl; rewrite Hn; simpl; rewrite Hpv; simpl.
  rewrite Ht; simpl; rewrite Hf; reflexivity.
Qed.







Lemma dart_distinct : distinctVertices Sample.dart.
Proof.
  unfold distinctVertices, Sample.dart.
  repeat (constructor; [repeat (constructor; [unfold Vector.eql; simpl; rdecide |]); constructor |]).
  constructor.
Qed.


(** The anticlockwise unit square is convex at every vertex: the
    exceptional vertex is taken outside the ring. *)
Lemma raised_convexExceptAt :
  convexExceptAt (Plane.normal Sample.raised) stranger Sample.raisedSquare.
Proof.
  intros l' Hs H4 j p v n Hj Hr Hp Hn.
  assert (E : l' = Sample.raisedSquare)
    by (apply subring_full; [exact Hs | exact H4]).
  subst l'.
  destruct j as [| [| [| [| j]]]]; simpl in Hj;
    try (destruct j; discriminate Hj);
    injection Hj as <-; vm_compute in Hp, Hn;
    injection Hp as <-; injection Hn as <-;
    unfold turnsLeft; cbv zeta; split; arith_eval.
Qed.


(** A corner one side of which has length zero has no angle, and is
    convex. *)
Lemma isConvex_degenerate v P node prev next :
  nodeFor P v = Some node ->
  dataAt (vertices P) (Ring.prev (vertices P) node) = Return prev ->
  dataAt (vertices P) (Ring.next (vertices P) node) = Return next ->
  elements prev = elements v ->
  Vertex.isConvex v P = Return true.
Proof.
  intros Hn Hp Hx He.
  unfold Vertex.isConvex; rewrite Hn; cbv zeta; rewrite Hp, Hx; simpl.
  rewrite He, subtract_self.
  unfold Vector.angleFrom.
  assert (Vector.modulus Vector.Zero3 = 0) as ->
      by (apply modulus_zero_iff; reflexivity).
  rewrite Rmult_0_r.
  assert (Reqb 0 0 = true) as -> by (apply Reqb_true; reflexivity).
  simpl.
  assert (Rleb 0 Sylvester.precision = true) as ->
      by (apply Rleb_true, precision_nonneg).
  reflexivity.
Qed.

Lemma near_new :
  new Sample.nearPentagon (Some Sample.ground) = Return nearPolygon.
Proof.
  unfold new, populateVertexTypeLists; simpl.
  convex_eval 0%nat Sample.nearE Sample.nearB Sample.ground.
  convex_eval 1%nat Sample.nearA Sample.nearC Sample.ground.
  convex_eval 2%nat Sample.nearB Sample.nearD Sample.ground.
  convex_eval 3%nat Sample.nearC Sample.nearE Sample.ground.
  rewrite (isConvex_degenerate _ _ 0%nat Sample.nearE Sample.nearB);
    [reflexivity | node_eval | reflexivity | reflexivity | reflexivity].
Qed.

(** A simple pentagon two vertices of which are equal within the
    precision: the first ear takes both away, and [toTriangles] returns
    two triangles, not three. *)
Lemma near_vertices_removed_together :
  new Sample.nearPentagon (Some Sample.ground) = Return nearPolygon /\
  length (vertices nearPolygon) = 5%nat /\
  exists trig rest,
    toTriangles (fun _ => 0) nearPolygon = Some (Return [trig; rest]) /\
    vertices trig = [Sample.nearA; Sample.nearB; Sample.nearE] /\
    vertices rest = [Sample.nearB; Sample.nearC; Sample.nearD].
Proof.
  split; [exact near_new |].
  split; [reflexivity |].
  destruct (new_total [Sample.nearA; Sample.nearB; Sample.nearE] Sample.ground)
    as [trig [Ht [Vt _]]].
  destruct (new_total [Sample.nearB; Sample.nearC; Sample.nearD] Sample.ground)
    as [rest [Hq [Vq _]]].
  exists trig, rest; repeat split; try assumption.
  unfold toTriangles, triangulateByEarClipping.
  change (S (length (vertices nearPolygon))) with 6%nat.
  rewrite (earLoop_clip _ _ 5 nearPolygon 0 [] trig Sample.nearA rest).
  - apply earLoop_done; unfold isTriangle; rewrite Vq; reflexivity.
  - reflexivity.
  - change (length (convexVertices nearPolygon)) with 5%nat.
    rewrite floor_index_unit by (simpl; lra).
    change (seq 0 5) with [0; 1; 2; 3; 4]%nat.
    eapply scan_accept with (mainNode := 0%nat).
    + reflexivity.
    + node_eval.
    + reflexivity.
    + reflexivity.
    + reflexivity.
    + exact Ht.
    + reflexivity.
  - unfold removeVertex; change (isTriangle nearPolygon) with false; cbv iota.
    replace (filter _ (vertices nearPolygon)) with [Sample.nearB; Sample.nearC; Sample.nearD];
      [exact Hq |].
    simpl; unfold Vector.eql; simpl; rdecide.
Qed.

(** The loop of [toTriangles] ends for every polygon and every sequence
    of random draws. *)
Lemma toTriangles_ends random P : toTriangles random P <> None.
Proof.
  unfold toTriangles, triangulateByEarClipping; apply earLoop_fuel; lia.
Qed.

(* ------------------------------------------------------------------ *)
(** ** Points of the boundary *)

Lemma distinct_properEdges l :
  distinctVertices l -> (3 <= length l)%nat -> properEdges l.
Proof.
  intros Hd H3 i u v Hu Hv.
  destruct (dataAt_return _ _ _ Hu) as [Hi _].
  destruct (neighbours_apart l i H3 Hi) as [N _].
  apply dataAt_nth in Hu; apply dataAt_nth in Hv.
  apply (distinct_nth l i (Ring.next l i) u v Hd (not_eq_sym N) Hu Hv).
Qed.

Lemma modulus_scaled V d t :
  0 <= t -> Vector.dot V V = t * t * Vector.dot d d ->
  Vector.modulus V = t * Vector.modulus d.
Proof.
  intros Ht H; unfold Vector.modulus; rewrite H.
  rewrite sqrt_mult by (try apply dot_self_nonneg; nra).
  rewrite sqrt_square by exact Ht; reflexivity.
Qed.

Lemma acos_minus_1 : acos (-1) = PI.
Proof.
  replace (-1) with (Ropp 1) by lra.
  rewrite acos_opp, acos_1; ring.
Qed.

(** A point of the closed segment from [s] to [e] is contained in the
    Segment. *)
Lemma segment_contains_between l s e t :
  s <> e -> 0 <= t <= 1 ->
  Segment.contains (Segment.mk l s e) (between s e t) = true.
Proof.
  intros Hse [H0 H1]; unfold Segment.contains; cbn [Segment.start].
  destruct (Vector.eql s (between s e t) Sylvester.precision) eqn:Eq;
    [reflexivity |].
  set (d := Segment.toVector (Segment.mk l s e)).
  set (V := Vector.V3 _ _ _).
  assert (Hd : d = Vector.subtract e s) by reflexivity.
  assert (Ht : 0 < t).
  { destruct H0 as [H | <-]; [exact H |].
    exfalso; apply (eql_false_neq _ _ _ precision_nonneg Eq).
    destruct s, e; unfold between, Vector.add, Vector.x, Vector.subtract; simpl.
    f_equal; ring. }
  assert (Hdd : 0 < Vector.dot d d).
  { destruct (dot_self_nonneg d) as [H | H]; [exact H |].
    exfalso; apply Hse; symmetry; apply subtract_zero_iff.
    rewrite <- Hd; apply modulus_zero_iff.
    unfold Vector.modulus; rewrite <- H; apply sqrt_0. }
  assert (HVV : Vector.dot V V = t * t * Vector.dot d d).
  { subst V d; destruct s, e;
      unfold between, Vector.add, Vector.x, Vector.subtract, Vector.dot,
      Segment.toVector; simpl; ring. }
  assert (HVd : Vector.dot V d = - (t * Vector.dot d d)).
  { subst V d; destruct s, e;
      unfold between, Vector.add, Vector.x, Vector.subtract, Vector.dot,
      Segment.toVector; simpl; ring. }
  pose proof (modulus_scaled V d t H0 HVV) as MV.
  pose proof (modulus_pos d Hdd) as Md.
  pose proof (modulus_sqr d) as Sd.
  assert (Ha : Vector.angleFrom V d = Some PI).
  { unfold Vector.angleFrom; rewrite MV, HVd.
    assert (Hne : t * Vector.modulus d * Vector.modulus d <> 0) by nra.
    assert (Reqb (t * Vector.modulus d * Vector.modulus d) 0 = false) as ->
        by (apply Reqb_false; exact Hne).
    replace (- (t * Vector.dot d d) / (t * Vector.modulus d * Vector.modulus d))
      with (-1).
    - rewrite acos_minus_1; reflexivity.
    - rewrite <- Sd; field; split; lra. }
  unfold Vector.isAntiparallelTo; rewrite Ha.
  replace (PI - PI) with 0 by ring; rewrite Rabs_R0.
  assert (Rleb 0 Sylvester.precision = true) as ->
      by (apply Rleb_true, precision_nonneg).
  simpl; apply Rleb_true; rewrite MV; nra.
Qed.

Lemma segment_contains_start l s e q :
  Vector.eql s q Sylvester.precision = true ->
  Segment.contains (Segment.mk l s e) q = true.
Proof. intros H; unfold Segment.contains; simpl; rewrite H; reflexivity. Qed.

(** A point that some edge contains is found by [hasEdgeContaining]. *)
Lemma hasEdgeContaining_found P q node s e :
  properEdges (vertices P) ->
  dataAt (vertices P) node = Return s ->
  dataAt (vertices P) (Ring.next (vertices P) node) = Return e ->
  (forall l, Segment.contains (Segment.mk l (elements s) (elements e)) q = true) ->
  hasEdgeContaining P q = Return true.
Proof.
  intros Hpe Hs He Hc; rewrite hasEdgeContaining_edges.
  apply someM_true.
  - intros n Hin; apply in_seq in Hin.
    destruct (edgeContains_total (vertices P) q n Hpe) as [d [x [l [_ [_ H]]]]];
      [lia |].
    eexists; exact H.
  - exists node; destruct (dataAt_return _ _ _ Hs) as [Hlt _]; split.
    + apply in_seq; lia.
    + destruct (edgeContains_total (vertices P) q node Hpe Hlt)
        as [d [x [l [Hd [Hx H]]]]].
      rewrite Hs in Hd; injection Hd as <-.
      rewrite He in Hx; injection Hx as <-.
      rewrite H, Hc; reflexivity.
Qed.

Lemma contains_on_edge P pl q eps :
  plane P = Some pl -> hasEdgeContaining P q = Return true ->
  contains P q eps = Return false.
Proof.
  intros Hp He; rewrite contains_verdict; unfold containsVerdict.
  rewrite Hp; simpl.
  destruct (negb (Plane.contains pl q eps)); [reflexivity |].
  rewrite He; reflexivity.
Qed.

(** C4, as amended: for a polygon with a plane, [contains(q, epsilon)]
    returns false when q is not in the plane within epsilon, and when
    [hasEdgeContaining] finds q on an edge.  When moreover every edge of
    the polygon joins two different points, it returns false for every
    vertex of the polygon and for every point of the closed segment
    between two consecutive vertices. *)
Theorem contains_rejects_boundary (P : Polygon.t) (pl : Plane.t) (epsilon : R) :
  plane P = Some pl ->
  (forall q, Plane.contains pl q epsilon = false ->
             contains P q epsilon = Return false) /\
  (forall q, hasEdgeContaining P q = Return true ->
             contains P q epsilon = Return false) /\
  (properEdges (vertices P) ->
   (forall v, In v (vertices P) ->
              contains P (elements v) epsilon = Return false) /\
   (forall node s e t,
       dataAt (vertices P) node = Return s ->
       dataAt (vertices P) (Ring.next (vertices P) node) = Return e ->
       0 <= t <= 1 ->
       contains P (between (elements s) (elements e) t) epsilon
       = Return false)).
Proof.
  intros Hp; split; [| split].
  - intros q Hq; rewrite contains_verdict.
    rewrite (containsVerdict_off_plane P pl q epsilon Hp Hq); reflexivity.
  - intros q Hq; apply (contains_on_edge P pl q epsilon Hp Hq).
  - intros Hpe; split.
    + intros v Hin; apply (contains_on_edge P pl _ epsilon Hp).
      destruct (In_nth_error _ _ Hin) as [node Hn].
      apply dataAt_nth in Hn.
      destruct (dataAt_return _ _ _ Hn) as [Hlt _].
      destruct (dataAt_lt (vertices P) _ (next_lt (vertices P) _ Hlt))
        as [e [He _]].
      apply (hasEdgeContaining_found P _ node v e Hpe Hn He).
      intros l; apply segment_contains_start, eql_refl, precision_nonneg.
    + intros node s e t Hs He Ht; apply (contains_on_edge P pl _ epsilon Hp).
      apply (hasEdgeContaining_found P _ node s e Hpe Hs He).
      intros l; apply segment_contains_between; [| exact Ht].
      apply (Hpe node s e Hs He).
Qed.

Lemma dart_properEdges : properEdges (vertices dartPolygon).
Proof. apply distinct_properEdges; [exact dart_distinct | simpl; lia]. Qed.

Lemma contains_rejects_boundary_witness :
  plane dartPolygon = Some Sample.ground /\
  properEdges (vertices dartPolygon) /\
  contains dartPolygon (elements Sample.dartB) Sylvester.precision
  = Return false /\
  contains dartPolygon
           (between (elements Sample.dartB) (elements Sample.dartC) (/ 2))
           Sylvester.precision
  = Return false.
Proof.
  destruct (contains_rejects_boundary dartPolygon Sample.ground
              Sylvester.precision eq_refl) as [_ [_ H]].
  destruct (H dart_properEdges) as [Hv He].
  split; [reflexivity |].
  split; [exact dart_properEdges |].
  split.
  - apply Hv; simpl; auto.
  - apply (He 1%nat Sample.dartB Sample.dartC (/ 2)); [reflexivity .. | lra].
Defined.

(** C4, the claim as stated fails: a quadrilateral whose first two
    vertices are the same point.  The first edge is a segment of length
    zero, its construction raises, and [contains] called on a vertex of
    the polygon raises instead of returning false. *)
Lemma contains_raises_on_doubled_vertex :
  exists P,
    new Sample.doubled (Some Sample.ground) = Return P /\
    (forall v, In v (vertices P) ->
               contains P (elements v) Sylvester.precision
               = Throw DimensionalityMismatchError).
Proof.
  destruct (new_total Sample.doubled Sample.ground) as [P [HP [Hv [Hp _]]]].
  exists P; split; [exact HP |].
  intros v Hin; rewrite contains_verdict; unfold containsVerdict.
  rewrite Hp; simpl.
  assert (Plane.contains Sample.ground (elements v) Sylvester.precision = true)
    as ->.
  { rewrite Hv in Hin; simpl in Hin.
    repeat destruct Hin as [<- | Hin]; try contradiction;
      unfold Plane.contains, Vector.dot, Vector.subtract; simpl; rdecide. }
  simpl; unfold hasEdgeContaining; rewrite Hv; simpl.
  unfold Segment.new; rewrite subtract_self, Line_new_zero; reflexivity.
Qed.

(* ------------------------------------------------------------------ *)
(** ** Instances of the theorems *)

Lemma angleFrom_nonzero a b :
  0 < Vector.dot a a -> 0 < Vector.dot b b ->
  Vector.angleFrom a b
  = Some (acos (Vector.dot a b / (Vector.modulus a * Vector.modulus b))).
Proof.
  intros Ha Hb; unfold Vector.angleFrom.
  pose proof (modulus_pos a Ha); pose proof (modulus_pos b Hb).
  assert (Reqb (Vector.modulus a * Vector.modulus b) 0 = false) as ->
      by (apply Reqb_false; nra).
  reflexivity.
Qed.

Lemma isConvex_foreign_vertex_witness :
  (forall u, In u (vertices dartPolygon) ->
             Vector.eql (elements u) (elements stranger) Sylvester.precision
             = false) /\
  Vertex.isConvex stranger dartPolygon = Throw InvalidOperationError /\
  Vertex.isReflex stranger dartPolygon = Throw InvalidOperationError.
Proof.
  assert (H : forall u, In u (vertices dartPolygon) ->
                Vector.eql (elements u) (elements stranger) Sylvester.precision
                = false).
  { intros u Hin; simpl in Hin.
    repeat destruct Hin as [<- | Hin]; try contradiction;
      unfold Vector.eql; simpl; rdecide. }
  split; [exact H |].
  exact (@isConvex_foreign_vertex stranger dartPolygon H).
Defined.


Lemma modulus_unit x : Vector.modulus (Vector.V3 x 0 0) = Rabs x.
Proof.
  unfold Vector.modulus, Vector.dot; simpl.
  replace (x * x + 0 * 0 + 0 * 0) with (Rsqr x) by (unfold Rsqr; ring).
  apply sqrt_Rsqr_abs.
Qed.

Lemma axisX_parallel : Line.isParallelTo axisX axisX' Sylvester.precision = true.
Proof.
  unfold Line.isParallelTo; simpl.
  rewrite angleFrom_nonzero by arith_eval.
  rewrite (@modulus_eq (Vector.V3 1 0 0) 1) by (try lra; arith_eval).
  replace (Vector.dot (Vector.V3 1 0 0) (Vector.V3 1 0 0) / (1 * 1)) with 1
    by (unfold Vector.dot; simpl; field).
  rewrite acos_1; simpl; rewrite Rabs_R0.
  assert (Rleb 0 Sylvester.precision = true) as ->
      by (apply Rleb_true, precision_nonneg).
  reflexivity.
Qed.

Lemma axisX_apart :
  Line.contains axisX (Line.anchor axisX') Sylvester.precision = false.
Proof.
  unfold Line.contains, Line.distanceFrom, Line.distanceFrom_point; simpl.
  replace ((0 - 0) * (0 - 0) + (1 - 0) * (1 - 0) + (0 - 0) * (0 - 0)) with 1
    by ring.
  rewrite sqrt_1.
  assert (Reqb 1 0 = false) as -> by (apply Reqb_false; lra).
  replace (1 - ((0 - 0) * 1 + (1 - 0) * 0 + (0 - 0) * 0) / 1
               * (((0 - 0) * 1 + (1 - 0) * 0 + (0 - 0) * 0) / 1)) with 1
    by field.
  assert (Rltb 1 0 = false) as -> by (apply Rltb_false; lra).
  rewrite sqrt_1; rdecide.
Qed.

Lemma parallel_lines_do_not_intersect_witness :
  Line.isParallelTo axisX axisX' Sylvester.precision = true /\
  Line.contains axisX (Line.anchor axisX') Sylvester.precision = false /\
  Line.intersects axisX axisX' Sylvester.precision = false /\
  Line.intersectionWith axisX axisX' = None.
Proof.
  split; [exact axisX_parallel |].
  split; [exact axisX_apart |].
  exact (@parallel_lines_do_not_intersect axisX axisX' Sylvester.precision
                                         axisX_parallel).
Defined.

Lemma ground_contains_origin eps :
  0 <= eps -> Plane.contains Sample.ground (elements Sample.dartA) eps = true.
Proof.
  intros H; unfold Plane.contains, Vector.dot, Vector.subtract; simpl.
  replace (0 * (0 - 0) + 0 * (0 - 0) + 1 * (0 - 0)) with 0 by ring.
  rewrite Rabs_R0; apply Rleb_true, H.
Qed.

Lemma edge_step_ignores_epsilon_witness :
  Plane.contains Sample.ground (elements Sample.dartA) Sylvester.precision
  = true /\
  Plane.contains Sample.ground (elements Sample.dartA) 1 = true /\
  (containsVerdict dartPolygon (elements Sample.dartA) Sylvester.precision
   = Return OnEdge <->
   containsVerdict dartPolygon (elements Sample.dartA) 1 = Return OnEdge).
Proof.
  assert (H1 := ground_contains_origin Sylvester.precision precision_nonneg).
  assert (H2 := ground_contains_origin 1 Rle_0_1).
  split; [exact H1 |].
  split; [exact H2 |].
  exact (proj1 (proj2 (@edge_step_ignores_epsilon
                         dartPolygon Sample.ground (elements Sample.dartA)
                         Sylvester.precision 1 eq_refl H1 H2))).
Defined.

(** The edge step works at the default precision even when the caller
    asks for none: with epsilon = 0, a point of the plane that is on no
    edge, but within the precision of a vertex, is rejected as a point of
    the boundary. *)
Lemma edge_step_uses_default_precision :
  let q := Vector.V3 (Sylvester.precision / 2) 0 0 in
  Plane.contains Sample.ground q 0 = true /\
  q <> elements Sample.dartA /\
  containsVerdict dartPolygon q 0 = Return OnEdge /\
  contains dartPolygon q 0 = Return false.
Proof.
  intros q.
  assert (Hq : Plane.contains Sample.ground q 0 = true).
  { unfold Plane.contains, Vector.dot, Vector.subtract; simpl.
    replace (0 * (0 - Sylvester.precision / 2) + 0 * (0 - 0) + 1 * (0 - 0))
      with 0 by ring.
    rewrite Rabs_R0; apply Rleb_true; lra. }
  assert (He : hasEdgeContaining dartPolygon q = Return true).
  { apply (hasEdgeContaining_found dartPolygon q 0%nat Sample.dartA Sample.dartB
             dart_properEdges eq_refl eq_refl).
    intros l; apply segment_contains_start.
    unfold Vector.eql, q; simpl; rdecide. }
  split; [exact Hq |].
  split; [intros [= H]; pose proof precision_pos; lra |].
  split.
  - rewrite (@containsVerdict_in_plane dartPolygon Sample.ground q 0 eq_refl Hq).
    rewrite He; reflexivity.
  - apply (contains_on_edge dartPolygon Sample.ground q 0 eq_refl He).
Qed.

Lemma Line_new_fields a d L :
  Line.new a d = Return L ->
  0 < Vector.modulus d /\
  Line.anchor L = a /\
  Line.direction L =
  Vector.V3 (Vector.E0 d / Vector.modulus d) (Vector.E1 d / Vector.modulus d)
            (Vector.E2 d / Vector.modulus d).
Proof.
  unfold Line.new; intros H.
  destruct (Reqb (Vector.modulus d) 0) eqn:E; [discriminate |].
  injection H as <-; apply Reqb_false in E.
  pose proof (modulus_nonneg d); repeat split; simpl; lra.
Qed.

(** Two lines built on directions that are multiples of one another are
    parallel for [isParallelTo]. *)
Lemma proportional_directions_parallel a1 a2 d k L M :
  k <> 0 ->
  Line.new a1 d = Return L ->
  Line.new a2 (Vector.x d k) = Return M ->
  Line.isParallelTo L M Sylvester.precision = true.
Proof.
  intros Hk HL HM.
  destruct (Line_new_fields _ _ _ HL) as [Hm [_ HdL]].
  destruct (Line_new_fields _ _ _ HM) as [Hm' [_ HdM]].
  pose proof (modulus_sqr d) as Sd.
  set (m := Vector.modulus d) in *.
  assert (Hmk : Vector.modulus (Vector.x d k) = Rabs k * m).
  { apply modulus_scaled; [apply Rabs_pos |].
    replace (Rabs k * Rabs k) with (k * k)
      by (unfold Rabs; destruct (Rcase_abs k); ring).
    unfold Vector.x, Vector.dot; simpl; ring. }
  rewrite Hmk in HdM.
  assert (Ha : 0 < Rabs k) by (apply Rabs_pos_lt, Hk).
  set (u := Line.direction L) in *; set (w := Line.direction M) in *.
  assert (Huu : Vector.dot u u = 1 * 1).
  { rewrite HdL; unfold Vector.dot; simpl.
    replace (1 * 1) with (Vector.dot d d / (m * m)) by (rewrite Sd; field; nra).
    unfold Vector.dot; field; lra. }
  assert (Hww : Vector.dot w w = 1 * 1).
  { rewrite HdM; unfold Vector.dot, Vector.x; simpl.
    replace (1 * 1) with (k * k * Vector.dot d d / (Rabs k * Rabs k * (m * m))).
    - unfold Vector.dot; field; split; lra.
    - rewrite Sd.
      replace (Rabs k * Rabs k) with (k * k)
        by (unfold Rabs; destruct (Rcase_abs k); ring).
      field; split; first [exact Hk | lra | nra]. }
  assert (Huw : Vector.dot u w = k / Rabs k).
  { rewrite HdL, HdM; unfold Vector.dot, Vector.x; simpl.
    replace (k / Rabs k) with (k * Vector.dot d d / (Rabs k * (m * m)))
      by (rewrite Sd; field; split; first [lra | nra]).
    unfold Vector.dot; field; split; lra. }
  unfold Line.isParallelTo; fold u w.
  rewrite angleFrom_nonzero by lra.
  rewrite (@modulus_eq u 1 Rle_0_1 Huu), (@modulus_eq w 1 Rle_0_1 Hww), Huw.
  replace (k / Rabs k / (1 * 1)) with (k / Rabs k) by (field; lra).
  simpl; destruct (Rlt_dec k 0) as [Hn | Hp].
  - replace (k / Rabs k) with (-1)
      by (rewrite (Rabs_left k Hn); field; lra).
    rewrite acos_minus_1.
    replace (PI - PI) with 0 by ring; rewrite Rabs_R0.
    assert (Rleb 0 Sylvester.precision = true) as ->
        by (apply Rleb_true, precision_nonneg).
    apply orb_true_r.
  - replace (k / Rabs k) with 1
      by (rewrite (Rabs_right k) by lra; field; lra).
    rewrite acos_1, Rabs_R0.
    assert (Rleb 0 Sylvester.precision = true) as ->
        by (apply Rleb_true, precision_nonneg).
    reflexivity.
Qed.

Lemma zero_length_segment_rejected_witness :
  exists seg,
    Segment.new (Vector.V3 0 0 0) (Vector.V3 1 0 0) = Return seg /\
    Vector.V3 0 0 0 <> Vector.V3 1 0 0 /\
    0 < Vector.modulus (Segment.toVector seg).
Proof.
  assert (Hne : Vector.V3 0 0 0 <> Vector.V3 1 0 0) by (intros [= H]; lra).
  destruct (Segment_new_distinct _ _ Hne) as [l Hl].
  exists (Segment.mk l (Vector.V3 0 0 0) (Vector.V3 1 0 0)).
  split; [exact Hl |].
  destruct (proj2 zero_length_segment_rejected _ _ _ Hl) as [H1 [_ [_ H2]]].
  split; assumption.
Defined.

(* ------------------------------------------------------------------ *)
(** ** A needle: wound anticlockwise, and not triangulated *)

Lemma sin_half x : 0 <= x <= 1 -> x / 2 <= sin x.
Proof.
  intros [H0 H1].
  assert (Hpi : x <= PI) by (pose proof PI_gt_3; lra).
  destruct (sin_bound x 0 H0 Hpi) as [Hlb _].
  unfold sin_approx, sin_term in Hlb; simpl in Hlb.
  assert (x * (x * x) <= x) by nra.
  lra.
Qed.

Lemma cosine_range a b :
  0 < Vector.dot a a -> 0 < Vector.dot b b ->
  let x := Vector.dot a b / (Vector.modulus a * Vector.modulus b) in
  Vector.angleFrom a b = Some (acos x) /\ -1 <= x <= 1 /\
  1 - x * x = Vector.dot (Vector.cross a b) (Vector.cross a b)
              / (Vector.dot a a * Vector.dot b b) /\
  0 < Vector.modulus a * Vector.modulus b.
Proof.
  intros Ha Hb x.
  pose proof (modulus_pos a Ha) as Ma; pose proof (modulus_pos b Hb) as Mb.
  pose proof (modulus_sqr a) as Sa; pose proof (modulus_sqr b) as Sb.
  assert (Hm : 0 < Vector.modulus a * Vector.modulus b)
    by (apply Rmult_lt_0_compat; assumption).
  assert (Hx : 1 - x * x =
               Vector.dot (Vector.cross a b) (Vector.cross a b)
               / (Vector.dot a a * Vector.dot b b)).
  { rewrite lagrange; unfold x; rewrite <- Sa, <- Sb; field; lra. }
  assert (Hd : 0 < Vector.dot a a * Vector.dot b b)
    by (apply Rmult_lt_0_compat; assumption).
  assert (Hc : 0 <= Vector.dot (Vector.cross a b) (Vector.cross a b)
                    / (Vector.dot a a * Vector.dot b b)).
  { apply Rmult_le_pos; [apply dot_self_nonneg |].
    left; apply Rinv_0_lt_compat, Hd. }
  repeat split; try assumption; try nra.
  unfold Vector.angleFrom.
  assert (Reqb (Vector.modulus a * Vector.modulus b) 0 = false) as ->
      by (apply Reqb_false; lra).
  reflexivity.
Qed.

(** Two vectors with a non-negative scalar product make an angle of at
    most a right angle. *)
Lemma angle_acute a b :
  0 < Vector.dot a a -> 0 < Vector.dot b b -> 0 <= Vector.dot a b ->
  exists theta, Vector.angleFrom a b = Some theta /\ 0 <= theta <= PI / 2.
Proof.
  intros Ha Hb Hab.
  destruct (cosine_range a b Ha Hb) as [Ht [Hr [_ Hm]]].
  eexists; split; [exact Ht |].
  set (x := Vector.dot a b / (Vector.modulus a * Vector.modulus b)) in *.
  destruct (acos_bound x) as [B0 B1]; split; [exact B0 |].
  destruct (Rle_lt_dec (acos x) (PI / 2)) as [H | H]; [exact H |].
  exfalso.
  assert (Hc : cos (acos x) < 0) by (apply cos_lt_0; lra).
  rewrite cos_acos in Hc by exact Hr.
  assert (0 <= x); [| lra].
  unfold x; apply Rmult_le_pos; [exact Hab |].
  left; apply Rinv_0_lt_compat, Hm.
Qed.

(** Two vectors that point opposite ways, the sine of their angle at
    most half the precision, make an angle within the precision of
    PI. *)
Lemma angle_nearly_flat a b :
  0 < Vector.dot a a -> 0 < Vector.dot b b -> Vector.dot a b < 0 ->
  Vector.dot (Vector.cross a b) (Vector.cross a b)
  <= Sylvester.precision / 2 * (Sylvester.precision / 2)
     * (Vector.dot a a * Vector.dot b b) ->
  exists theta, Vector.angleFrom a b = Some theta /\
                PI - Sylvester.precision <= theta <= PI.
Proof.
  intros Ha Hb Hab Hc.
  destruct (cosine_range a b Ha Hb) as [Ht [Hr [Hx Hm]]].
  eexists; split; [exact Ht |].
  set (x := Vector.dot a b / (Vector.modulus a * Vector.modulus b)) in *.
  destruct (acos_bound x) as [B0 B1]; split; [| exact B1].
  pose proof precision_pos as Hp; pose proof precision_small as Hs.
  pose proof PI_gt_3 as HPI.
  assert (Hneg : x < 0).
  { unfold x, Rdiv.
    pose proof (Rinv_0_lt_compat _ Hm) as Hinv.
    set (k := / (Vector.modulus a * Vector.modulus b)) in *.
    nra. }
  assert (Hgt : PI / 2 < acos x).
  { destruct (Rle_lt_dec (acos x) (PI / 2)) as [H | H]; [| exact H].
    exfalso.
    assert (0 <= cos (acos x)) by (apply cos_ge_0; lra).
    rewrite cos_acos in H0 by exact Hr; lra. }
  assert (Hsin : sin (PI - acos x) <= sin Sylvester.precision).
  { rewrite sin_PI_x, sin_acos by exact Hr.
    apply Rle_trans with (Sylvester.precision / 2);
      [| apply sin_half; lra].
    rewrite <- (sqrt_square (Sylvester.precision / 2)) by lra.
    apply sqrt_le_1_alt.
    unfold Rsqr; rewrite Hx.
    assert (Hd : 0 < Vector.dot a a * Vector.dot b b)
      by (apply Rmult_lt_0_compat; assumption).
    apply Rmult_le_reg_r with (Vector.dot a a * Vector.dot b b); [exact Hd |].
    replace (Vector.dot (Vector.cross a b) (Vector.cross a b)
             / (Vector.dot a a * Vector.dot b b)
             * (Vector.dot a a * Vector.dot b b))
      with (Vector.dot (Vector.cross a b) (Vector.cross a b))
      by (field; lra).
    exact Hc. }
  apply sin_incr_0 in Hsin; lra.
Qed.

(** A sharp corner that turns anticlockwise is convex. *)
Lemma isConvex_acute v P node prev next pl :
  nodeFor P v = Some node ->
  dataAt (vertices P) (Ring.prev (vertices P) node) = Return prev ->
  dataAt (vertices P) (Ring.next (vertices P) node) = Return next ->
  plane P = Some pl ->
  let A := Vector.subtract (elements next) (elements v) in
  let B := Vector.subtract (elements prev) (elements v) in
  0 < Vector.dot A A -> 0 < Vector.dot B B -> 0 <= Vector.dot A B ->
  0 < Vector.dot (Vector.cross A B) (Plane.normal pl) ->
  Vertex.isConvex v P = Return true.
Proof.
  intros Hn Hp Hx Hpl A B Ha Hb Hab Ho.
  destruct (angle_acute A B Ha Hb Hab) as [theta [Ht [H0 H1]]].
  unfold Vertex.isConvex; rewrite Hn; cbv zeta; rewrite Hp, Hx; simpl.
  fold A B; rewrite Ht, Hpl; simpl.
  destruct (Rleb theta Sylvester.precision); [reflexivity |].
  pose proof PI_gt_3 as HPI; pose proof precision_small as Hs.
  assert (Rleb (Rabs (theta - PI)) Sylvester.precision = false) as ->.
  { apply Rleb_false; rewrite Rabs_left by lra; lra. }
  apply Rltb_true in Ho; rewrite Ho; reflexivity.
Qed.

(** A corner that is flat within the precision is not convex. *)
Lemma isConvex_flat v P node prev next :
  nodeFor P v = Some node ->
  dataAt (vertices P) (Ring.prev (vertices P) node) = Return prev ->
  dataAt (vertices P) (Ring.next (vertices P) node) = Return next ->
  let A := Vector.subtract (elements next) (elements v) in
  let B := Vector.subtract (elements prev) (elements v) in
  0 < Vector.dot A A -> 0 < Vector.dot B B -> Vector.dot A B < 0 ->
  Vector.dot (Vector.cross A B) (Vector.cross A B)
  <= Sylvester.precision / 2 * (Sylvester.precision / 2)
     * (Vector.dot A A * Vector.dot B B) ->
  Vertex.isConvex v P = Return false.
Proof.
  intros Hn Hp Hx A B Ha Hb Hab Hc.
  destruct (angle_nearly_flat A B Ha Hb Hab Hc) as [theta [Ht [H0 H1]]].
  unfold Vertex.isConvex; rewrite Hn; cbv zeta; rewrite Hp, Hx; simpl.
  fold A B; rewrite Ht; simpl.
  pose proof PI_gt_3 as HPI; pose proof precision_small as Hs.
  pose proof precision_pos as Hpp.
  assert (Rleb theta Sylvester.precision = false) as ->
      by (apply Rleb_false; lra).
  assert (Rleb (Rabs (theta - PI)) Sylvester.precision = true) as ->.
  { apply Rleb_true.
    destruct H1 as [H1 | ->].
    - rewrite Rabs_left by lra; lra.
    - replace (PI - PI) with 0 by ring; rewrite Rabs_R0; lra. }
  reflexivity.
Qed.

(** A point within the angular tolerance of a segment, no further from
    its start than its end is, is contained by the segment. *)
Lemma segment_contains_near l s e q :
  let V := Vector.subtract s q in
  let W := Vector.subtract e s in
  0 < Vector.dot V V -> 0 < Vector.dot W W -> Vector.dot V W < 0 ->
  Vector.dot (Vector.cross V W) (Vector.cross V W)
  <= Sylvester.precision / 2 * (Sylvester.precision / 2)
     * (Vector.dot V V * Vector.dot W W) ->
  Vector.dot V V <= Vector.dot W W ->
  Segment.contains (Segment.mk l s e) q = true.
Proof.
  intros V W HV HW Hneg Hc Hlen.
  unfold Segment.contains; cbn [Segment.start].
  destruct (Vector.eql s q Sylvester.precision); [reflexivity |].
  change (Vector.V3 (Vector.E0 s - Vector.E0 q) (Vector.E1 s - Vector.E1 q)
                    (Vector.E2 s - Vector.E2 q)) with V.
  change (Segment.toVector (Segment.mk l s e)) with W.
  destruct (angle_nearly_flat V W HV HW Hneg Hc) as [theta [Ht [H0 H1]]].
  unfold Vector.isAntiparallelTo; rewrite Ht.
  pose proof precision_pos as Hpp.
  assert (Rleb (Rabs (theta - PI)) Sylvester.precision = true) as ->.
  { apply Rleb_true.
    destruct H1 as [H1 | ->].
    - rewrite Rabs_left by lra; lra.
    - replace (PI - PI) with 0 by ring; rewrite Rabs_R0; lra. }
  simpl; apply Rleb_true; unfold Vector.modulus.
  apply sqrt_le_1_alt, Hlen.
Qed.

(** A reflex vertex on an edge of the candidate triangle, within the
    tolerance, makes the ear test answer yes. *)
Lemma ear_blocked trig pl p n r node s e :
  plane trig = Some pl -> properEdges (vertices trig) ->
  differs r p = true -> differs r n = true ->
  dataAt (vertices trig) node = Return s ->
  dataAt (vertices trig) (Ring.next (vertices trig) node) = Return e ->
  (forall l, Segment.contains (Segment.mk l (elements s) (elements e))
                              (elements r) = true) ->
  insideEar trig p n r = Return true.
Proof.
  intros Hp Hpe Dp Dn Hs He Hc; unfold insideEar; rewrite Dp, Dn; simpl.
  pose proof (hasEdgeContaining_found trig (elements r) node s e Hpe Hs He Hc)
    as Hedge.
  rewrite (contains_on_edge trig pl _ _ Hp Hedge); simpl; exact Hedge.
Qed.

(** When the ear test rejects every convex vertex, the scan finds no
    candidate. *)
Lemma scan_blocked pl poly offset cands :
  plane poly = Some pl ->
  distinctVertices (vertices poly) ->
  (3 <= length (vertices poly))%nat ->
  incl (convexVertices poly) (vertices poly) ->
  convexVertices poly <> [] ->
  (forall cv j n p trig,
      In cv (convexVertices poly) ->
      nth_error (vertices poly) j = Some cv ->
      dataAt (vertices poly) (Ring.next (vertices poly) j) = Return n ->
      dataAt (vertices poly) (Ring.prev (vertices poly) j) = Return p ->
      vertices trig = [cv; n; p] -> plane trig = Some pl ->
      properEdges (vertices trig) ->
      exists r, In r (reflexVertices poly) /\
                insideEar trig p n r = Return true) ->
  scanCandidates (Some pl) poly offset cands = Return None.
Proof.
  intros Hp Hd H3 Hi Hne Hb.
  induction cands as [| i cands IH]; [reflexivity |].
  destruct (at_in (convexVertices poly) (offset + i) Hne) as [cv [Hat Hin]].
  destruct (In_nth_error _ _ (Hi cv Hin)) as [j Hj].
  destruct (scan_candidate pl poly offset i cands cv j Hp Hd H3 Hat Hj)
    as [n [p [trig [found [Hn [Hpv [Vt [Pt [Hpe [Hf ->]]]]]]]]]].
  destruct (Hb cv j n p trig Hin Hj Hn Hpv Vt Pt Hpe) as [r [Hr Hear]].
  rewrite (someM_true (insideEar trig p n) (reflexVertices poly)) in Hf.
  - injection Hf as <-; simpl; exact IH.
  - intros a _; apply (insideEar_total trig pl p n a Pt Hpe).
  - exists r; split; assumption.
Qed.

Ltac acute_eval node prev next pl :=
  rewrite (@isConvex_acute _ _ node prev next pl);
  [ | node_eval | reflexivity | reflexivity | reflexivity
    | arith_eval | arith_eval | arith_eval | arith_eval ].

Ltac flat_eval node prev next :=
  rewrite (@isConvex_flat _ _ node prev next);
  [ | node_eval | reflexivity | reflexivity
    | arith_eval | arith_eval | arith_eval | arith_eval ].

Lemma needle_new : new Sample.needle (Some Sample.ground) = Return needlePolygon.
Proof.
  unfold new, populateVertexTypeLists; simpl.
  acute_eval 0%nat Sample.needleD Sample.needleE Sample.ground.
  flat_eval 1%nat Sample.needleA Sample.needleB.
  flat_eval 2%nat Sample.needleE Sample.needleC.
  acute_eval 3%nat Sample.needleB Sample.needleF Sample.ground.
  flat_eval 4%nat Sample.needleC Sample.needleD.
  flat_eval 5%nat Sample.needleF Sample.needleA.
  reflexivity.
Qed.

Lemma needle_distinct : distinctVertices Sample.needle.
Proof.
  unfold distinctVertices, Sample.needle.
  repeat (constructor; [repeat (constructor; [unfold Vector.eql; simpl; rdecide |]); constructor |]).
  constructor.
Qed.

Lemma needle_blocked cv j n p trig :
  In cv (convexVertices needlePolygon) ->
  nth_error (vertices needlePolygon) j = Some cv ->
  dataAt (vertices needlePolygon) (Ring.next (vertices needlePolygon) j)
  = Return n ->
  dataAt (vertices needlePolygon) (Ring.prev (vertices needlePolygon) j)
  = Return p ->
  vertices trig = [cv; n; p] -> plane trig = Some Sample.ground ->
  properEdges (vertices trig) ->
  exists r, In r (reflexVertices needlePolygon) /\
            insideEar trig p n r = Return true.
Proof.
  intros Hin Hj Hn Hp Vt Pt Hpe.
  assert (Hcases : (cv = Sample.needleA /\ j = 0%nat) \/ (cv = Sample.needleC /\ j = 3%nat)).
  { destruct Hin as [<- | [<- | []]]; [left | right]; split; try reflexivity;
      destruct j as [| [| [| [| [| [| j]]]]]]; simpl in Hj;
      try reflexivity; try discriminate Hj; destruct j; discriminate Hj. }
  destruct Hcases as [[-> ->] | [-> ->]];
    vm_compute in Hn, Hp; injection Hn as <-; injection Hp as <-.
  - exists Sample.needleB; split; [simpl; auto |].
    apply (ear_blocked trig Sample.ground _ _ _ 1%nat Sample.needleE Sample.needleD Pt Hpe);
      try reflexivity; try (rewrite Vt; reflexivity).
    intros l; apply segment_contains_near; arith_eval.
  - exists Sample.needleD; split; [simpl; auto |].
    apply (ear_blocked trig Sample.ground _ _ _ 1%nat Sample.needleF Sample.needleB Pt Hpe);
      try reflexivity; try (rewrite Vt; reflexivity).
    intros l; apply segment_contains_near; arith_eval.
Qed.

(** The claim fails on a polygon wound anticlockwise with vertices far
    apart.  The polygon is a simple hexagon, 2 10^7 long and 2 wide; no
    corner turns clockwise about the normal.  Its two sharp corners are
    its only convex vertices, and for each of them a vertex classified
    reflex lies within the angular tolerance of the diagonal of the ear:
    every candidate is rejected and [toTriangles] raises, whatever the
    random draws. *)
Lemma needle_not_triangulated :
  new Sample.needle (Some Sample.ground) = Return needlePolygon /\
  distinctVertices Sample.needle /\
  (forall j prev v next,
      nth_error Sample.needle j = Some v ->
      nth_error Sample.needle (Ring.prev Sample.needle j) = Some prev ->
      nth_error Sample.needle (Ring.next Sample.needle j) = Some next ->
      0 <= Vector.dot
             (Vector.cross (Vector.subtract (elements next) (elements v))
                           (Vector.subtract (elements prev) (elements v)))
             (Plane.normal Sample.ground)) /\
  forall random,
    toTriangles random needlePolygon = Some (Throw NoCandidateError).
Proof.
  split; [exact needle_new |]; split; [exact needle_distinct |]; split.
  - intros j p v n Hj Hp Hn.
    destruct j as [| [| [| [| [| [| j]]]]]]; simpl in Hj;
      try (destruct j; discriminate Hj);
      injection Hj as <-; vm_compute in Hp, Hn;
      injection Hp as <-; injection Hn as <-; arith_eval.
  - intros random.
    unfold toTriangles, triangulateByEarClipping.
    change (S (length (vertices needlePolygon))) with 7%nat.
    cbn [earLoop].
    change (isTriangle needlePolygon) with false; cbv iota zeta.
    rewrite (scan_blocked Sample.ground needlePolygon).
    + reflexivity.
    + reflexivity.
    + exact needle_distinct.
    + simpl; lia.
    + intros v [<- | [<- | []]]; simpl; auto.
    + discriminate.
    + exact needle_blocked.
Qed.

(* ------------------------------------------------------------------ *)
(** ** Lines: construction, translation, reversal, position, equality *)

Lemma vector_eta v : Vector.V3 (Vector.E0 v) (Vector.E1 v) (Vector.E2 v) = v.
Proof. destruct v; reflexivity. Qed.

Lemma unit_dot d : Vector.modulus d = 1 -> Vector.dot d d = 1.
Proof. intros H; rewrite <- modulus_sqr, H; ring. Qed.

Lemma Line_new_unit a d :
  Vector.modulus d = 1 -> Line.new a d = Return (Line.mk a d).
Proof.
  intros H; unfold Line.new; rewrite H.
  assert (Reqb 1 0 = false) as -> by (apply Reqb_false; lra).
  do 2 f_equal; destruct d; simpl; f_equal; field.
Qed.

Lemma normalised_unit d :
  d <> Vector.Zero3 ->
  Vector.modulus (Vector.V3 (Vector.E0 d / Vector.modulus d)
                            (Vector.E1 d / Vector.modulus d)
                            (Vector.E2 d / Vector.modulus d)) = 1.
Proof.
  intros Hd.
  assert (Hm : 0 < Vector.modulus d).
  { destruct (modulus_nonneg d) as [H | H]; [exact H |].
    symmetry in H; apply modulus_zero_iff in H; contradiction. }
  pose proof (modulus_sqr d) as Sd.
  apply modulus_eq; [lra |].
  unfold Vector.dot; simpl.
  replace (1 * 1) with (Vector.dot d d / (Vector.modulus d * Vector.modulus d))
    by (rewrite Sd; field; nra).
  unfold Vector.dot; field; lra.
Qed.

(** X1: [new Line(anchor, direction)] raises the dimensionality error
    exactly when the direction is the zero vector.  Otherwise it returns
    a line with the given anchor whose direction has length one and
    points the way of the argument: the argument is the stored direction
    times its own length. *)
Theorem Line_new_normalises (a d : Vector.t) :
  (d = Vector.Zero3 /\ Line.new a d = Throw DimensionalityMismatchError) \/
  (d <> Vector.Zero3 /\
   exists L, Line.new a d = Return L /\
             Line.anchor L = a /\
             unitLine L /\
             d = Vector.x (Line.direction L) (Vector.modulus d)).
Proof.
  destruct (Reqb (Vector.modulus d) 0) eqn:E.
  - left; apply Reqb_true, modulus_zero_iff in E; subst d.
    split; [reflexivity | apply Line_new_zero].
  - right; apply Reqb_false in E.
    assert (Hd : d <> Vector.Zero3).
    { intros ->; apply E, modulus_zero_iff; reflexivity. }
    split; [exact Hd |].
    destruct (Line_new_nonzero a d Hd) as [L HL].
    destruct (Line_new_fields _ _ _ HL) as [Hm [Ha Hdir]].
    exists L; repeat split; try assumption.
    + unfold unitLine; rewrite Hdir; apply normalised_unit, Hd.
    + rewrite Hdir; unfold Vector.x; simpl.
      rewrite <- (vector_eta d) at 1; f_equal; field; lra.
Qed.

Lemma modulus_opposite d : Vector.modulus (opposite d) = Vector.modulus d.
Proof.
  unfold Vector.modulus; f_equal; unfold opposite, Vector.x, Vector.dot; simpl; ring.
Qed.

Lemma opposite_involutive d : opposite (opposite d) = d.
Proof. destruct d; unfold opposite, Vector.x; simpl; f_equal; ring. Qed.

(** X2: [translate] of a line of unit direction returns the line with
    the anchor moved by the vector and the same direction, and two
    translations one after the other are the translation by the sum. *)
Theorem Line_translate_compose (L : Line.t) (v w : Vector.t) :
  unitLine L ->
  Line.translate L v
  = Return (Line.mk (Vector.add (Line.anchor L) v) (Line.direction L)) /\
  (L' <- Line.translate L v ;; Line.translate L' w)
  = Line.translate L (Vector.add v w).
Proof.
  intros HL.
  assert (T : forall M u, unitLine M ->
            Line.translate M u
            = Return (Line.mk (Vector.add (Line.anchor M) u) (Line.direction M))).
  { intros M u HM; unfold Line.translate; apply (Line_new_unit _ _ HM). }
  split; [apply T, HL |].
  rewrite (T L v HL); simpl.
  rewrite (T _ w), (T L _ HL) by exact HL; simpl.
  do 2 f_equal; unfold Vector.add; simpl; f_equal; ring.
Qed.

(** X3: [reverse] of a line of unit direction keeps the anchor and
    returns the opposite direction, and reversing twice gives the line
    back. *)
Theorem Line_reverse_involutive (L : Line.t) :
  unitLine L ->
  Line.reverse L = Return (Line.mk (Line.anchor L) (opposite (Line.direction L))) /\
  (L' <- Line.reverse L ;; Line.reverse L') = Return L.
Proof.
  intros HL.
  assert (T : forall M, unitLine M ->
            Line.reverse M
            = Return (Line.mk (Line.anchor M) (opposite (Line.direction M)))).
  { intros M HM; unfold Line.reverse; apply Line_new_unit.
    fold (opposite (Line.direction M)); rewrite modulus_opposite; exact HM. }
  split; [apply T, HL |].
  rewrite (T L HL); simpl; rewrite T.
  - simpl; rewrite opposite_involutive; destruct L; reflexivity.
  - unfold unitLine; simpl; rewrite modulus_opposite; exact HL.
Qed.








Lemma dot_comm a b : Vector.dot a b = Vector.dot b a.
Proof. unfold Vector.dot; ring. Qed.

Lemma angleFrom_sym a b : Vector.angleFrom a b = Vector.angleFrom b a.
Proof.
  unfold Vector.angleFrom.
  rewrite (Rmult_comm (Vector.modulus a)), (dot_comm a b); reflexivity.
Qed.

Lemma Line_isParallelTo_sym L M eps :
  Line.isParallelTo L M eps = Line.isParallelTo M L eps.
Proof. unfold Line.isParallelTo; rewrite angleFrom_sym; reflexivity. Qed.

Lemma cross_swap a b : Vector.cross b a = opposite (Vector.cross a b).
Proof. unfold opposite, Vector.x, Vector.cross; simpl; f_equal; ring. Qed.

Lemma toUnitVector_opposite c :
  Vector.toUnitVector (opposite c) = opposite (Vector.toUnitVector c).
Proof.
  unfold Vector.toUnitVector; rewrite modulus_opposite.
  destruct (Reqb (Vector.modulus c) 0) eqn:E; [reflexivity |].
  apply Reqb_false in E.
  unfold opposite, Vector.x; simpl; f_equal; field; exact E.
Qed.

(** X6: [intersects] on two lines is symmetric: [L.intersects(M, eps)]
    and [M.intersects(L, eps)] are the same boolean. *)
Theorem Line_intersects_sym (L M : Line.t) (eps : R) :
  Line.intersects L M eps = Line.intersects M L eps.
Proof.
  unfold Line.intersects, Line.distanceFrom.
  rewrite (Line_isParallelTo_sym M L).
  destruct (Line.isParallelTo L M Sylvester.precision); simpl; [reflexivity |].
  f_equal.
  rewrite (cross_swap (Line.direction L) (Line.direction M)),
          toUnitVector_opposite.
  set (N := Vector.toUnitVector _).
  unfold opposite, Vector.x; simpl.
  f_equal; ring.
Qed.

(* ------------------------------------------------------------------ *)
(** ** The crossing of two lines *)

Lemma unit_cosine_parallel X Y :
  Vector.modulus X = 1 -> Vector.modulus Y = 1 ->
  Vector.dot X Y * Vector.dot X Y = 1 ->
  Rleb (Rabs (toNumber (Vector.angleFrom X Y))) Sylvester.precision
  || Rleb (Rabs (toNumber (Vector.angleFrom X Y) - PI)) Sylvester.precision
  = true.
Proof.
  intros HX HY Hc; unfold Vector.angleFrom; rewrite HX, HY.
  assert (Reqb (1 * 1) 0 = false) as -> by (apply Reqb_false; lra).
  simpl.
  replace (Vector.dot X Y / (1 * 1)) with (Vector.dot X Y) by field.
  assert (Hc' : Vector.dot X Y = 1 \/ Vector.dot X Y = -1) by nra.
  pose proof precision_pos as Hp.
  destruct Hc' as [-> | ->].
  - rewrite acos_1, Rabs_R0.
    assert (Rleb 0 Sylvester.precision = true) as ->
        by (apply Rleb_true; lra).
    reflexivity.
  - rewrite acos_minus_1.
    replace (PI - PI) with 0 by ring; rewrite Rabs_R0.
    assert (Rleb 0 Sylvester.precision = true) as ->
        by (apply Rleb_true; lra).
    apply orb_true_r.
Qed.

Lemma dot_unit_cross_l X Y :
  Vector.dot X (Vector.toUnitVector (Vector.cross X Y)) = 0.
Proof.
  unfold Vector.toUnitVector; destruct (Reqb _ 0) eqn:E.
  - unfold Vector.dot, Vector.cross; simpl; ring.
  - apply Reqb_false in E.
    unfold Vector.dot; simpl.
    set (m := Vector.modulus (Vector.cross X Y)) in *.
    unfold Vector.cross; simpl; field; exact E.
Qed.

Lemma dot_unit_cross_r X Y :
  Vector.dot Y (Vector.toUnitVector (Vector.cross X Y)) = 0.
Proof.
  unfold Vector.toUnitVector; destruct (Reqb _ 0) eqn:E.
  - unfold Vector.dot, Vector.cross; simpl; ring.
  - apply Reqb_false in E.
    unfold Vector.dot; simpl.
    set (m := Vector.modulus (Vector.cross X Y)) in *.
    unfold Vector.cross; simpl; field; exact E.
Qed.

(** X9: Two lines of unit direction that pass through a common point
    and are not parallel within the precision intersect, at every
    non-negative tolerance, and [intersectionWith] returns the common
    point. *)
Theorem Line_intersection_of_crossing_lines (L M : Line.t) (t s : R) :
  unitLine L -> unitLine M ->
  pointAt L t = pointAt M s ->
  Line.isParallelTo L M Sylvester.precision = false ->
  (forall eps, 0 <= eps -> Line.intersects L M eps = true) /\
  Line.intersectionWith L M = Some (pointAt L t).
Proof.
  intros HL HM Hcross Hnp.
  pose proof (unit_dot _ HL) as HdL; pose proof (unit_dot _ HM) as HdM.
  assert (Hdiff : Vector.subtract (Line.anchor L) (Line.anchor M)
                  = Vector.subtract (Vector.x (Line.direction M) s)
                                    (Vector.x (Line.direction L) t)).
  { unfold pointAt, Vector.add, Vector.x in Hcross.
    injection Hcross as H0 H1 H2.
    unfold Vector.subtract, Vector.x; simpl; f_equal; lra. }
  assert (Hdist : Line.distanceFrom L (Line.OfLine M) = 0).
  { unfold Line.distanceFrom; rewrite Hnp.
    set (N := Vector.toUnitVector _).
    change ((Vector.E0 (Line.anchor L) - Vector.E0 (Line.anchor M)) * Vector.E0 N +
            (Vector.E1 (Line.anchor L) - Vector.E1 (Line.anchor M)) * Vector.E1 N +
            (Vector.E2 (Line.anchor L) - Vector.E2 (Line.anchor M)) * Vector.E2 N)
      with (Vector.dot (Vector.subtract (Line.anchor L) (Line.anchor M)) N).
    rewrite Hdiff.
    replace (Vector.dot (Vector.subtract (Vector.x (Line.direction M) s)
                                         (Vector.x (Line.direction L) t)) N)
      with (s * Vector.dot (Line.direction M) N
            - t * Vector.dot (Line.direction L) N)
      by (unfold Vector.dot, Vector.subtract, Vector.x; simpl; ring).
    unfold N; rewrite dot_unit_cross_l, dot_unit_cross_r.
    replace (s * 0 - t * 0) with 0 by ring; apply Rabs_R0. }
  assert (Hint : forall eps, 0 <= eps -> Line.intersects L M eps = true).
  { intros eps He; unfold Line.intersects; rewrite Hnp, Hdist; simpl.
    apply Rleb_true, He. }
  split; [exact Hint |].
  unfold Line.intersectionWith.
  rewrite (Hint _ precision_nonneg); simpl.
  set (c := Vector.dot (Line.direction L) (Line.direction M)).
  assert (Hc : 1 - c * c <> 0).
  { intros Z; unfold Line.isParallelTo in Hnp.
    rewrite (unit_cosine_parallel _ _ HL HM) in Hnp; [discriminate |].
    fold c; lra. }
  unfold pointAt, Vector.add, Vector.x; simpl.
  assert (E0 : Vector.E0 (Line.anchor L) - Vector.E0 (Line.anchor M)
               = Vector.E0 (Line.direction M) * s - Vector.E0 (Line.direction L) * t)
    by (apply (f_equal Vector.E0) in Hdiff; exact Hdiff).
  assert (E1 : Vector.E1 (Line.anchor L) - Vector.E1 (Line.anchor M)
               = Vector.E1 (Line.direction M) * s - Vector.E1 (Line.direction L) * t)
    by (apply (f_equal Vector.E1) in Hdiff; exact Hdiff).
  assert (E2 : Vector.E2 (Line.anchor L) - Vector.E2 (Line.anchor M)
               = Vector.E2 (Line.direction M) * s - Vector.E2 (Line.direction L) * t)
    by (apply (f_equal Vector.E2) in Hdiff; exact Hdiff).
  rewrite E0, E1, E2.
  unfold Vector.dot in HdL, HdM; rewrite HdL, HdM.
  match goal with
  | |- Some (Vector.V3 (_ + ?k * _) _ _) = _ =>
      assert (Hk : k = t)
  end.
  { subst c; unfold Vector.dot in Hc.
    clear - Hc HdL HdM.
    destruct (Line.direction L) as [x0 x1 x2], (Line.direction M) as [y0 y1 y2].
    simpl in *.
    match goal with
    | |- ?n / ?d = t => assert (Hn : n = t * d)
    end.
    { assert (H1 : t * (x0 * x0 + x1 * x1 + x2 * x2) = t) by (rewrite HdL; ring).
      assert (H2 : (x0 * y0 + x1 * y1 + x2 * y2) * s
                   * (y0 * y0 + y1 * y1 + y2 * y2)
                   = (x0 * y0 + x1 * y1 + x2 * y2) * s) by (rewrite HdM; ring).
      nra. }
    rewrite Hn; field; exact Hc. }
  rewrite Hk; do 2 f_equal; ring.
Qed.

(* ------------------------------------------------------------------ *)
(** ** Segments: membership, equality, translation, closest point *)

Lemma between_0 s e : between s e 0 = s.
Proof.
  destruct s, e; unfold between, Vector.add, Vector.x, Vector.subtract; simpl.
  f_equal; ring.
Qed.

Lemma between_1 s e : between s e 1 = e.
Proof.
  destruct s, e; unfold between, Vector.add, Vector.x, Vector.subtract; simpl.
  f_equal; ring.
Qed.

Lemma between_half seg :
  between (Segment.start seg) (Segment.end_ seg) (/ 2) = Segment.midpoint seg.
Proof.
  unfold between, Segment.midpoint, Vector.add, Vector.x, Vector.subtract; simpl.
  f_equal; field.
Qed.

Lemma segment_contains_ends s e seg :
  Segment.new s e = Return seg ->
  s <> e /\
  Segment.contains seg (Segment.start seg) = true /\
  Segment.contains seg (Segment.end_ seg) = true.
Proof.
  intros H.
  assert (Hne : s <> e).
  { intros ->; unfold Segment.new in H.
    rewrite subtract_self, Line_new_zero in H; discriminate. }
  destruct (Segment_new_distinct s e Hne) as [l Hl].
  rewrite H in Hl; injection Hl as ->; simpl.
  split; [exact Hne |]; split.
  - apply segment_contains_start, eql_refl, precision_nonneg.
  - rewrite <- (between_1 s e) at 2.
    apply segment_contains_between; [exact Hne | lra].
Qed.

(** X10: A segment returned by the constructor contains its start, its
    end and its midpoint. *)
Theorem Segment_contains_ends_and_midpoint (s e : Vector.t) (seg : Segment.t) :
  Segment.new s e = Return seg ->
  Segment.contains seg (Segment.start seg) = true /\
  Segment.contains seg (Segment.end_ seg) = true /\
  Segment.contains seg (Segment.midpoint seg) = true.
Proof.
  intros H; destruct (segment_contains_ends s e seg H) as [Hne [Hs He]].
  split; [exact Hs |]; split; [exact He |].
  destruct (Segment_new_distinct s e Hne) as [l Hl].
  rewrite H in Hl; injection Hl as ->.
  rewrite <- between_half; simpl.
  apply segment_contains_between; [exact Hne | lra].
Qed.

(** X11: For a segment with two different ends and a point
    start + t (end - start) of its line: [contains] is true exactly when
    the point equals the start within the precision or [t] is between 0
    and 1. *)
Theorem Segment_contains_span (l : Line.t) (s e : Vector.t) (t : R) :
  s <> e ->
  Segment.contains (Segment.mk l s e) (between s e t) = true <->
  Vector.eql s (between s e t) Sylvester.precision = true \/ 0 <= t <= 1.
Proof.
  intros Hse; split.
  - intros H.
    destruct (Vector.eql s (between s e t) Sylvester.precision) eqn:Eq;
      [left; reflexivity | right].
    unfold Segment.contains in H; cbn [Segment.start] in H; rewrite Eq in H.
    set (d := Segment.toVector (Segment.mk l s e)) in *.
    set (V := Vector.V3 _ _ _) in *.
    assert (Hdd : 0 < Vector.dot d d).
    { destruct (dot_self_nonneg d) as [Hp | Hp]; [exact Hp |].
      exfalso; apply Hse; symmetry; apply subtract_zero_iff.
      change (Vector.subtract e s) with d; apply modulus_zero_iff.
      unfold Vector.modulus; rewrite <- Hp; apply sqrt_0. }
    assert (HVV : Vector.dot V V = Rabs t * Rabs t * Vector.dot d d).
    { replace (Rabs t * Rabs t) with (t * t)
        by (unfold Rabs; destruct (Rcase_abs t); ring).
      subst V d; destruct s, e;
        unfold between, Vector.add, Vector.x, Vector.subtract, Vector.dot,
        Segment.toVector; simpl; ring. }
    assert (HVd : Vector.dot V d = - (t * Vector.dot d d)).
    { subst V d; destruct s, e;
        unfold between, Vector.add, Vector.x, Vector.subtract, Vector.dot,
        Segment.toVector; simpl; ring. }
    pose proof (modulus_scaled V d (Rabs t) (Rabs_pos t) HVV) as MV.
    pose proof (modulus_pos d Hdd) as Md.
    pose proof (modulus_sqr d) as Sd.
    apply andb_prop in H; destruct H as [Ha Hm].
    apply Rleb_true in Hm; rewrite MV in Hm.
    assert (Hle : Rabs t <= 1) by nra.
    destruct (Rle_dec t 0) as [Hneg | Hpos].
    + exfalso.
      unfold Vector.isAntiparallelTo, Vector.angleFrom in Ha.
      rewrite MV, HVd in Ha.
      destruct (Reqb (Rabs t * Vector.modulus d * Vector.modulus d) 0) eqn:Ez;
        [discriminate |].
      apply Reqb_false in Ez.
      assert (t <> 0) by (intros ->; apply Ez; rewrite Rabs_R0; ring).
      rewrite (Rabs_left t) in Ha by lra.
      replace (- (t * Vector.dot d d) / (- t * Vector.modulus d * Vector.modulus d))
        with 1 in Ha by (rewrite <- Sd; field; split; lra).
      rewrite acos_1 in Ha; apply Rleb_true in Ha.
      pose proof PI_gt_3; pose proof precision_small.
      rewrite Rabs_left in Ha by lra; lra.
    + rewrite Rabs_right in Hle by lra; lra.
  - intros [H | H].
    + apply segment_contains_start, H.
    + apply segment_contains_between; assumption.
Qed.

Lemma Vector_eql_refl_default a : Vector.eql a a Sylvester.precision = true.
Proof. apply eql_refl, precision_nonneg. Qed.

(** X12: [eql] on segments: a segment is equal to itself and to the
    segment with the two ends exchanged, and [eql] is symmetric. *)
Theorem Segment_eql_ends_exchanged (a b : Segment.t) (l : Line.t) :
  Segment.eql a a = true /\
  Segment.eql a (Segment.mk l (Segment.end_ a) (Segment.start a)) = true /\
  Segment.eql a b = Segment.eql b a.
Proof.
  unfold Segment.eql; simpl; split; [| split].
  - rewrite !Vector_eql_refl_default; reflexivity.
  - rewrite !Vector_eql_refl_default; apply orb_true_r.
  - rewrite (eql_sym (Segment.start a) (Segment.start b)),
            (eql_sym (Segment.end_ a) (Segment.end_ b)),
            (eql_sym (Segment.start a) (Segment.end_ b)),
            (eql_sym (Segment.end_ a) (Segment.start b)).
    rewrite (andb_comm (Vector.eql (Segment.end_ b) (Segment.start a) _));
      reflexivity.
Qed.

Lemma Segment_new_inv s e seg :
  Segment.new s e = Return seg ->
  s <> e /\ exists l, Line.new s (Vector.subtract e s) = Return l /\
                      seg = Segment.mk l s e.
Proof.
  unfold Segment.new; intros H.
  destruct (Line.new s (Vector.subtract e s)) as [l |] eqn:E; simpl in H;
    [| discriminate].
  injection H as <-; split; [| exists l; split; reflexivity].
  intros ->; rewrite subtract_self, Line_new_zero in E; discriminate.
Qed.

(** X13: [translate] of a constructed segment returns a segment whose
    ends are the two ends moved by the vector, with the same vector from
    start to end, the same length and the same line direction. *)
Theorem Segment_translate_rigid (s e v : Vector.t) (seg : Segment.t) :
  Segment.new s e = Return seg ->
  exists seg',
    Segment.translate seg v = Return seg' /\
    Segment.start seg' = Vector.add s v /\
    Segment.end_ seg' = Vector.add e v /\
    Segment.toVector seg' = Segment.toVector seg /\
    Segment.length seg' = Segment.length seg /\
    Line.direction (Segment.line seg') = Line.direction (Segment.line seg).
Proof.
  intros H; destruct (Segment_new_inv s e seg H) as [Hne [l [Hl ->]]].
  assert (Hsub : Vector.subtract (Vector.add e v) (Vector.add s v)
                 = Vector.subtract e s).
  { unfold Vector.subtract, Vector.add; simpl; f_equal; ring. }
  unfold Segment.translate, Segment.new; simpl.
  fold (Vector.add s v) (Vector.add e v); rewrite Hsub.
  destruct (Line_new_nonzero (Vector.add s v) (Vector.subtract e s))
    as [l' Hl'].
  { intros Z; apply Hne; symmetry; apply (proj1 (subtract_zero_iff e s) Z). }
  rewrite Hl'; simpl; eexists; split; [reflexivity |]; simpl.
  destruct (Line_new_fields _ _ _ Hl) as [_ [_ D1]].
  destruct (Line_new_fields _ _ _ Hl') as [_ [_ D2]].
  repeat split.
  - unfold Segment.toVector; simpl; f_equal; ring.
  - unfold Segment.length; simpl; f_equal; ring.
  - rewrite D1, D2; reflexivity.
Qed.

(** X14: [pointClosestTo] of a constructed segment and a point always
    returns a point, never [null], and the segment contains the point it
    returns. *)
Theorem Segment_pointClosestTo_on_segment (s e P : Vector.t) (seg : Segment.t) :
  Segment.new s e = Return seg ->
  exists Q, Segment.pointClosestTo seg P = Some Q /\
            Segment.contains seg Q = true.
Proof.
  intros H.
  destruct (segment_contains_ends s e seg H) as [_ [Hs He]].
  unfold Segment.pointClosestTo.
  destruct (Line.pointClosestTo (Segment.line seg) P) as [Q |] eqn:EQ.
  - destruct (Segment.contains seg Q) eqn:Ec; [exists Q; auto |].
    destruct (Rltb _ 0); eexists; split; try reflexivity; assumption.
  - unfold Line.pointClosestTo in EQ.
    destruct (Line.contains _ _ _); discriminate.
Qed.

(* ------------------------------------------------------------------ *)
(** ** Equality of polygons *)

Lemma skipn_nth_error {A} (l : list A) a u :
  nth_error l a = Some u -> skipn a l = u :: skipn (S a) l.
Proof.
  revert a; induction l as [| x l IH]; intros a H; destruct a; simpl in *;
    try discriminate.
  - injection H as ->; reflexivity.
  - apply IH, H.
Qed.

Lemma eqlLoop_lockstep l1 l2 eps i :
  length l1 = length l2 ->
  forall a, (a + i = length l1)%nat ->
  eqlLoop l1 l2 eps a a i
  = Return (pairwiseEql (skipn a l1) (skipn a l2) eps).
Proof.
  intros Hlen; induction i as [| i IH]; intros a Ha; cbn [eqlLoop].
  - rewrite !skipn_all2 by lia; reflexivity.
  - destruct (dataAt_lt l1 a) as [u [Hu _]]; [lia |].
    destruct (dataAt_lt l2 a) as [w [Hw _]]; [lia |].
    rewrite Hu, Hw; cbn [bind].
    rewrite (skipn_nth_error l1 a u (proj1 (dataAt_nth _ _ _) Hu)),
            (skipn_nth_error l2 a w (proj1 (dataAt_nth _ _ _) Hw)).
    cbn [pairwiseEql].
    destruct (Vector.eql (elements u) (elements w) eps); cbn [negb andb];
      [| reflexivity].
    destruct i as [| i].
    + cbn [eqlLoop]; rewrite !skipn_all2 by lia; reflexivity.
    + rewrite (next_eq l1 a), (next_eq l2 a) by lia.
      rewrite <- Hlen.
      destruct (Nat.eqb_spec (S a) (length l1)); [lia |].
      apply IH; lia.
Qed.

Lemma pairwiseEql_refl l eps : 0 <= eps -> pairwiseEql l l eps = true.
Proof.
  intros H; induction l as [| u l IH]; simpl; [reflexivity |].
  rewrite eql_refl, IH by exact H; reflexivity.
Qed.

Lemma pairwiseEql_sym l1 l2 eps : pairwiseEql l1 l2 eps = pairwiseEql l2 l1 eps.
Proof.
  revert l2; induction l1 as [| u l1 IH]; intros [| w l2]; simpl;
    try reflexivity.
  rewrite eql_sym, IH; reflexivity.
Qed.

Lemma eql_lockstep P Q eps :
  eql P Q eps
  = Return (Nat.eqb (length (vertices Q)) (length (vertices P)) &&
            pairwiseEql (vertices P) (vertices Q) eps).
Proof.
  unfold eql.
  destruct (Nat.eqb_spec (length (vertices Q)) (length (vertices P))) as [E | E];
    simpl; [| reflexivity].
  rewrite (eqlLoop_lockstep _ _ eps _ (eq_sym E) 0%nat) by lia.
  reflexivity.
Qed.

(** X15: [eql] on polygons never raises: it is true exactly when the
    two rings have the same length and their vertices, taken in order
    from the first, are equal pairwise within epsilon (a rotation of the
    ring is not looked for).  It is symmetric, and at a non-negative
    epsilon a polygon is equal to itself. *)
Theorem Polygon_eql_lockstep (P Q : Polygon.t) (eps : R) :
  eql P Q eps
  = Return (Nat.eqb (length (vertices Q)) (length (vertices P)) &&
            pairwiseEql (vertices P) (vertices Q) eps) /\
  eql P Q eps = eql Q P eps /\
  (0 <= eps -> eql P P eps = Return true).
Proof.
  split; [apply eql_lockstep |]; split.
  - rewrite !eql_lockstep, Nat.eqb_sym, pairwiseEql_sym; reflexivity.
  - intros H; rewrite eql_lockstep, Nat.eqb_refl, pairwiseEql_refl by exact H.
    reflexivity.
Qed.

(* ------------------------------------------------------------------ *)
(** ** The convex and the reflex ring *)

Lemma isConvex_ext v P Q :
  plane P = plane Q -> vertices P = vertices Q ->
  Vertex.isConvex v P = Vertex.isConvex v Q.
Proof.
  intros Hp Hv; unfold Vertex.isConvex, nodeFor; rewrite Hp, Hv; reflexivity.
Qed.

Lemma classify_partition P l cs rs :
  classify P l = Return (cs, rs) ->
  Permutation (cs ++ rs) l /\
  (forall v, In v cs -> Vertex.isConvex v P = Return true) /\
  (forall v, In v rs -> Vertex.isConvex v P = Return false).
Proof.
  revert cs rs; induction l as [| v l IH]; intros cs rs H; simpl in H.
  - injection H as <- <-; repeat split; try constructor; intros v [].
  - bind_as H b Eb; bind_as H rest Er; destruct rest as [cs' rs'].
    destruct (IH cs' rs' eq_refl) as [Hperm [Hc Hr]].
    destruct b; simpl in H; injection H as <- <-.
    + repeat split.
      * simpl; constructor; exact Hperm.
      * intros u [<- | Hu]; [exact Eb | apply Hc, Hu].
      * exact Hr.
    + repeat split.
      * apply Permutation_sym, Permutation_cons_app, Permutation_sym, Hperm.
      * exact Hc.
      * intros u [<- | Hu]; [exact Eb | apply Hr, Hu].
Qed.

(** X16: When the constructor returns, the convex and the reflex ring
    together are a rearrangement of the main ring, no vertex is in both,
    [isConvex] is true of every vertex of the convex ring and [isReflex]
    of every vertex of the reflex ring. *)
Theorem Polygon_new_partition (points : list vertex) (pl : option Plane.t)
        (P : Polygon.t) :
  new points pl = Return P ->
  Permutation (convexVertices P ++ reflexVertices P) (vertices P) /\
  (forall v, In v (convexVertices P) -> Vertex.isConvex v P = Return true) /\
  (forall v, In v (reflexVertices P) -> Vertex.isReflex v P = Return true) /\
  (forall v, In v (convexVertices P) -> In v (reflexVertices P) -> False).
Proof.
  unfold new, populateVertexTypeLists; simpl; intros H.
  bind_as H lists El; destruct lists as [cs rs]; injection H as <-; simpl.
  destruct (classify_partition _ _ _ _ El) as [Hperm [Hc Hr]].
  set (P0 := mk _ points [] []) in *.
  set (P := mk _ points cs rs).
  assert (E : forall v, Vertex.isConvex v P = Vertex.isConvex v P0)
    by (intros v; apply isConvex_ext; reflexivity).
  repeat split.
  - exact Hperm.
  - intros v Hv; rewrite E; apply Hc, Hv.
  - intros v Hv; unfold Vertex.isReflex; rewrite E, (Hr v Hv); reflexivity.
  - intros v Hv1 Hv2; pose proof (Hc v Hv1) as C1; pose proof (Hr v Hv2) as C2.
    rewrite C1 in C2; discriminate.
Qed.

(* ------------------------------------------------------------------ *)
(** ** The triangles of the ear clipping *)

Lemma scan_members plane_ poly offset cands trig data :
  scanCandidates plane_ poly offset cands = Return (Some (trig, data)) ->
  In data (vertices poly) /\
  length (vertices trig) = 3%nat /\
  incl (vertices trig) (vertices poly) /\
  (forall pl, plane_ = Some pl -> plane trig = Some pl).
Proof.
  induction cands as [| i cands IH]; simpl; [discriminate |].
  intros H.
  bind_as H cv Ecv. bind_as H k Ek. bind_as H d Ed. bind_as H n En.
  bind_as H p Ep. bind_as H tr Et. bind_as H found Ef.
  destruct found; simpl in H; [apply IH, H |].
  injection H as <- <-.
  apply new_fields in Et; destruct Et as [Hv Hp].
  destruct (dataAt_return _ _ _ Ed) as [_ Id].
  destruct (dataAt_return _ _ _ En) as [_ In_].
  destruct (dataAt_return _ _ _ Ep) as [_ Ip].
  repeat split; try assumption.
  - rewrite Hv; reflexivity.
  - rewrite Hv; intros u [<- | [<- | [<- | []]]]; assumption.
  - intros pl ->; exact Hp.
Qed.

Lemma earLoop_members random plane_ fuel :
  forall poly draw acc ts,
    (forall pl, plane_ = Some pl -> plane poly = Some pl) ->
    earLoop random plane_ fuel poly draw acc = Some (Return ts) ->
    exists added,
      ts = acc ++ added /\
      Forall (fun t => length (vertices t) = 3%nat /\
                       incl (vertices t) (vertices poly) /\
                       (forall pl, plane_ = Some pl -> plane t = Some pl))
             added.
Proof.
  induction fuel as [| fuel IH]; intros poly draw acc ts Hpl H;
    [discriminate |].
  cbn [earLoop] in H.
  destruct (isTriangle poly) eqn:Et.
  - injection H as <-; exists [poly]; split; [reflexivity |].
    constructor; [| constructor].
    unfold isTriangle in Et; apply Nat.eqb_eq in Et.
    repeat split; [exact Et | apply incl_refl | exact Hpl].
  - cbv zeta in H.
    destruct (scanCandidates _ _ _ _) as [[[trig data] |] |] eqn:Es;
      try discriminate.
    destruct (removeVertex poly data) as [poly' |] eqn:Er; [| discriminate].
    unfold removeVertex in Er; rewrite Et in Er.
    apply new_fields in Er; destruct Er as [Hv Hp].
    assert (Hpl' : forall pl, plane_ = Some pl -> plane poly' = Some pl).
    { intros pl E; rewrite Hp, (Hpl pl E); reflexivity. }
    assert (Hincl : incl (vertices poly') (vertices poly)).
    { rewrite Hv; intros u Hu; apply filter_In in Hu; apply Hu. }
    destruct (IH poly' (S draw) (acc ++ [trig]) ts Hpl' H) as [added [-> Ha]].
    exists (trig :: added); split; [rewrite <- app_assoc; reflexivity |].
    destruct (scan_members _ _ _ _ _ _ Es) as [_ [H3 [Hi Hq]]].
    constructor; [repeat split; assumption |].
    apply (Forall_impl _ (P := fun t => length (vertices t) = 3%nat /\
                                  incl (vertices t) (vertices poly') /\
                                  (forall pl, plane_ = Some pl -> plane t = Some pl)));
      [| exact Ha].
    intros t [T3 [Ti Tp]]; repeat split; try assumption.
    intros u Hu; apply Hincl, Ti, Hu.
Qed.

(** X17: Every polygon that [toTriangles] returns has three vertices,
    all of them vertices of the polygon triangulated, and carries the
    plane of that polygon when it has one. *)
Theorem toTriangles_members (random : nat -> R) (P : Polygon.t)
        (ts : list Polygon.t) :
  toTriangles random P = Some (Return ts) ->
  Forall (fun t => length (vertices t) = 3%nat /\
                   incl (vertices t) (vertices P) /\
                   (forall pl, plane P = Some pl -> plane t = Some pl))
         ts.
Proof.
  unfold toTriangles, triangulateByEarClipping; intros H.
  destruct (earLoop_members random (plane P) _ P 0%nat [] ts
                            (fun pl E => E) H) as [added [-> Ha]].
  exact Ha.
Qed.

(* ------------------------------------------------------------------ *)
(** ** Removing a vertex *)

(** X18: [removeVertex] on a polygon with a plane: a triangle is
    returned as it is; otherwise the result has the same plane and
    exactly the vertices that do not equal the given one within the
    precision, so that [isConvex] of the removed vertex raises on the
    result, and a vertex that equals none of the ring leaves the ring as
    it was. *)
Theorem removeVertex_removes (P : Polygon.t) (pl : Plane.t) (v : vertex) :
  plane P = Some pl ->
  (isTriangle P = true -> removeVertex P v = Return P) /\
  (isTriangle P = false ->
   exists P',
     removeVertex P v = Return P' /\
     plane P' = Some pl /\
     (forall u, In u (vertices P') <->
                In u (vertices P) /\
                Vector.eql (elements v) (elements u) Sylvester.precision = false) /\
     Vertex.isConvex v P' = Throw InvalidOperationError /\
     ((forall u, In u (vertices P) ->
                 Vector.eql (elements v) (elements u) Sylvester.precision = false) ->
      vertices P' = vertices P)).
Proof.
  intros Hp; unfold removeVertex; split; intros Ht; rewrite Ht;
    [reflexivity |].
  rewrite Hp.
  destruct (new_total
              (filter (fun n => negb (Vector.eql (elements v) (elements n)
                                                 Sylvester.precision))
                      (vertices P)) pl) as [P' [Hn [Hv [Hp' _]]]].
  exists P'; split; [exact Hn |]; split; [exact Hp' |].
  assert (Hin : forall u, In u (vertices P') <->
                  In u (vertices P) /\
                  Vector.eql (elements v) (elements u) Sylvester.precision = false).
  { intros u; rewrite Hv, filter_In, negb_true_iff; reflexivity. }
  split; [exact Hin |]; split.
  - assert (N : nodeFor P' v = None).
    { apply nodeFor_none; intros u Hu; apply Hin in Hu.
      unfold vertexCompare; rewrite eql_sym; apply Hu. }
    unfold Vertex.isConvex; rewrite N; reflexivity.
  - intros Hall; rewrite Hv; apply filter_all.
    intros u Hu; rewrite (Hall u Hu); reflexivity.
Qed.

(* ------------------------------------------------------------------ *)
(** ** Scaling twice *)

Lemma scaled_compose k k' c v : scaled k' c (scaled k c v) = scaled (k' * k) c v.
Proof. unfold scaled; simpl; f_equal; ring. Qed.

Lemma scaled_one c v : scaled 1 c v = v.
Proof. destruct v; unfold scaled; simpl; f_equal; ring. Qed.

Lemma scale_twice P P1 P2 k k' c fresh fresh' :
  scale P k c fresh = Return P1 ->
  scale P1 k' c fresh' = Return P2 ->
  map elements (vertices P2)
  = map (scaled (k' * k) c) (map elements (vertices P)) /\
  exists pl pl2, plane P = Some pl /\ plane P2 = Some pl2 /\
                 Plane.normal pl2 = Plane.normal pl.
Proof.
  intros H1 H2.
  destruct (scale_returns _ _ _ _ _ H1) as [f1 [pl1 [Hf1 [Hp1 [Hm1 Hq1]]]]].
  destruct (scale_returns _ _ _ _ _ H2) as [f2 [pl2 [Hf2 [Hp2 [Hm2 Hq2]]]]].
  split.
  - rewrite Hm2, Hm1, map_map.
    apply map_ext; intros a; apply scaled_compose.
  - rewrite Hq1 in Hp2; injection Hp2 as <-.
    eexists; eexists; split; [exact Hp1 |]; split; [exact Hq2 |].
    reflexivity.
Qed.

(** X19: On a polygon with a plane and a first vertex, [scale] by [k]
    and then by [k'] about the same point returns, and moves every
    vertex as one scaling by [k' * k] does: when [k' * k] is 1 the
    vertices are back where they were.  The normal of the plane is
    kept. *)
Theorem scale_compose (P : Polygon.t) (pl : Plane.t) (first : vertex)
        (k k' : R) (c : Vector.t) (fresh fresh' : nat) :
  plane P = Some pl ->
  dataAt (vertices P) 0 = Return first ->
  exists P1 P2,
    scale P k c fresh = Return P1 /\
    scale P1 k' c fresh' = Return P2 /\
    map elements (vertices P2)
    = map (scaled (k' * k) c) (map elements (vertices P)) /\
    (k' * k = 1 -> map elements (vertices P2) = map elements (vertices P)) /\
    exists pl2, plane P2 = Some pl2 /\ Plane.normal pl2 = Plane.normal pl.
Proof.
  intros Hp Hf.
  destruct (scale_total P k c fresh first pl Hf Hp) as [P1 H1].
  destruct (scale_returns _ _ _ _ _ H1) as [f1 [pl1 [_ [_ [Hm1 Hq1]]]]].
  assert (Hf1 : exists first1, dataAt (vertices P1) 0 = Return first1).
  { destruct (vertices P1) as [| a l1]; [| exists a; reflexivity].
    destruct (vertices P); [discriminate Hf | discriminate Hm1]. }
  destruct Hf1 as [first1 Hf1].
  destruct (scale_total P1 k' c fresh' first1 _ Hf1 Hq1) as [P2 H2].
  destruct (scale_twice _ _ _ _ _ _ _ _ H1 H2)
    as [Hm [pl0 [pl2 [Hp0 [Hp2 Hn]]]]].
  rewrite Hp in Hp0; injection Hp0 as <-.
  exists P1, P2; repeat split; try assumption.
  - intros E; rewrite Hm, E.
    rewrite <- (map_id (map elements (vertices P))) at 2.
    apply map_ext; intros a; apply scaled_one.
  - exists pl2; split; assumption.
Qed.

(* ------------------------------------------------------------------ *)
(** ** The fan of [trianglesForSurfaceIntegral] *)

Lemma mapM_nth {A B} (f : A -> result B) l bs :
  mapM f l = Return bs ->
  length bs = length l /\
  forall i b, nth_error bs i = Some b ->
              exists a, nth_error l i = Some a /\ f a = Return b.
Proof.
  revert bs; induction l as [| a l IH]; intros bs H; simpl in H.
  - injection H as <-; split; [reflexivity |].
    intros [| i] b Hb; discriminate.
  - bind_as H b0 Eb; bind_as H bs' Ebs; injection H as <-.
    destruct (IH _ eq_refl) as [Hlen Hnth]; split; [simpl; congruence |].
    intros [| i] b Hb; simpl in Hb.
    + injection Hb as <-; exists a; split; [reflexivity | exact Eb].
    + apply Hnth, Hb.
Qed.

(** X20: When [trianglesForSurfaceIntegral] returns, it returns n - 2
    polygons for a ring of n vertices, and the polygon number [i], from
    0, has exactly three vertices: the first vertex of the ring, the
    vertex at position [i + 1] and the vertex at position [i + 2]. *)
Theorem fan_shape (P : Polygon.t) (ts : list Polygon.t) :
  trianglesForSurfaceIntegral P = Return ts ->
  length ts = (length (vertices P) - 2)%nat /\
  forall i t,
    nth_error ts i = Some t ->
    exists a b c,
      nth_error (vertices P) 0 = Some a /\
      nth_error (vertices P) (i + 1) = Some b /\
      nth_error (vertices P) (i + 2) = Some c /\
      vertices t = [a; b; c].
Proof.
  unfold trianglesForSurfaceIntegral; intros H.
  unfold Ring.nodes in H; rewrite skipn_seq in H.
  bind_as H a Ea.
  destruct (mapM_nth _ _ _ H) as [Hlen Hnth].
  rewrite length_seq in Hlen; split; [exact Hlen |].
  intros i t Ht; destruct (Hnth i t Ht) as [node [Hn Hf]].
  rewrite nth_error_seq in Hn.
  destruct (Nat.ltb_spec i (length (vertices P) - 2)) as [Hi |]; [| discriminate].
  injection Hn as <-; simpl in Hf.
  bind_as Hf b Eb; bind_as Hf c Ec.
  apply new_fields in Hf; destruct Hf as [Hv _].
  rewrite prev_eq in Eb by lia; simpl in Eb.
  rewrite ?Nat.sub_0_r in Eb.
  exists a, b, c; repeat split.
  - apply dataAt_nth, Ea.
  - replace (i + 1)%nat with (S i) by lia; apply dataAt_nth, Eb.
  - replace (i + 2)%nat with (S (S i)) by lia; apply dataAt_nth, Ec.
  - exact Hv.
Qed.

(* ------------------------------------------------------------------ *)
(** ** Translation *)

Lemma allocate_moved v fresh l :
  Forall2 (movedVertex v) l
          (allocate fresh (map (fun u => Vector.add (elements u) v) l)).
Proof.
  unfold allocate; revert fresh; induction l as [| u l IH]; intros fresh; simpl;
    constructor; [reflexivity | apply IH].
Qed.

Lemma translate_moved P v fresh P' :
  translate P v fresh = Return P' -> movedPolygon v P P'.
Proof.
  unfold translate; intros H.
  bind_as H pl Ep; apply new_fields in H; destruct H as [Hv Hp].
  destruct (plane P) as [p |] eqn:E; simpl in Ep; [| discriminate].
  injection Ep as <-.
  split; [rewrite Hv; apply allocate_moved | rewrite E, Hp; reflexivity].
Qed.

Lemma translate_total P pl v fresh :
  plane P = Some pl -> exists P', translate P v fresh = Return P'.
Proof.
  intros Hp; unfold translate; rewrite Hp; simpl.
  destruct (new_total (allocate fresh
                         (map (fun u => Vector.add (elements u) v) (vertices P)))
                      (Plane.translate pl v)) as [P' [H _]].
  exists P'; exact H.
Qed.

Lemma add_opposite a v : Vector.add (Vector.add a v) (Vector.x v (-1)) = a.
Proof.
  destruct a, v; unfold Vector.add, Vector.x; simpl; f_equal; ring.
Qed.

Lemma pairwiseEql_moved_back v l1 l2 l3 eps :
  0 <= eps ->
  Forall2 (movedVertex v) l1 l2 ->
  Forall2 (movedVertex (Vector.x v (-1))) l2 l3 ->
  pairwiseEql l3 l1 eps = true /\ map elements l3 = map elements l1.
Proof.
  intros He H12; revert l3; induction H12 as [| u w l1 l2 Huw H12 IH];
    intros l3 H23; inversion H23 as [| w' z l2' l3' Hwz H23']; subst; simpl.
  - split; reflexivity.
  - destruct (IH _ H23') as [E1 E2].
    unfold movedVertex in *; rewrite Hwz, Huw, add_opposite.
    rewrite eql_refl, E1, E2 by exact He; split; reflexivity.
Qed.

(** X21: On a polygon with a plane, [translate] returns the polygon
    with every vertex moved by the vector, and the translation by the
    opposite vector then brings back the vertices and the plane: the
    result is [eql] to the polygon at every non-negative epsilon. *)
Theorem translate_round_trip (P : Polygon.t) (pl : Plane.t) (v : Vector.t)
        (fresh fresh' : nat) (eps : R) :
  plane P = Some pl -> 0 <= eps ->
  exists P1 P2,
    translate P v fresh = Return P1 /\
    translate P1 (Vector.x v (-1)) fresh' = Return P2 /\
    map elements (vertices P1)
    = map (fun a => Vector.add a v) (map elements (vertices P)) /\
    map elements (vertices P2) = map elements (vertices P) /\
    plane P2 = Some pl /\
    eql P2 P eps = Return true.
Proof.
  intros Hp He.
  destruct (translate_total P pl v fresh Hp) as [P1 H1].
  destruct (translate_moved _ _ _ _ H1) as [V1 M1].
  rewrite Hp in M1; destruct (plane P1) as [p1 |] eqn:Ep1; [| contradiction].
  simpl in M1.
  destruct (translate_total P1 p1 (Vector.x v (-1)) fresh' Ep1) as [P2 H2].
  destruct (translate_moved _ _ _ _ H2) as [V2 M2].
  rewrite Ep1 in M2; destruct (plane P2) as [p2 |] eqn:Ep2; [| contradiction].
  simpl in M2.
  destruct (pairwiseEql_moved_back v _ _ _ eps He V1 V2) as [E1 E2].
  exists P1, P2; repeat split; try assumption.
  - clear - V1; induction V1 as [| u w l1 l2 Huw V1 IH]; simpl;
      [reflexivity | rewrite Huw, IH; reflexivity].
  - rewrite Ep2, M2, M1; unfold Plane.translate; simpl.
    rewrite add_opposite; destruct pl; reflexivity.
  - rewrite eql_lockstep, E1.
    assert (length (vertices P) = length (vertices P2)) as ->.
    { rewrite <- (length_map elements (vertices P)), <- E2, length_map.
      reflexivity. }
    rewrite Nat.eqb_refl; reflexivity.
Qed.

(** *** What a translation keeps *)

Lemma subtract_moved a b v :
  Vector.subtract (Vector.add a v) (Vector.add b v) = Vector.subtract a b.
Proof.
  destruct a, b, v; unfold Vector.subtract, Vector.add; simpl; f_equal; ring.
Qed.

Lemma eql_moved a b v eps :
  Vector.eql (Vector.add a v) (Vector.add b v) eps = Vector.eql a b eps.
Proof.
  destruct a as [a0 a1 a2], b as [b0 b1 b2], v as [v0 v1 v2].
  unfold Vector.eql, Vector.add; simpl.
  replace (a0 + v0 - (b0 + v0)) with (a0 - b0) by ring.
  replace (a1 + v1 - (b1 + v1)) with (a1 - b1) by ring.
  replace (a2 + v2 - (b2 + v2)) with (a2 - b2) by ring.
  reflexivity.
Qed.

Lemma findFrom_moved v u w l l' i :
  movedVertex v u w -> Forall2 (movedVertex v) l l' ->
  Ring.findFrom (fun d => vertexCompare d w) l' i
  = Ring.findFrom (fun d => vertexCompare d u) l i.
Proof.
  intros Huw H; revert i; induction H as [| a b l l' Hab H IH]; intros i; simpl.
  - reflexivity.
  - unfold vertexCompare at 1 3; unfold movedVertex in Hab, Huw.
    rewrite Hab, Huw, eql_moved, IH; reflexivity.
Qed.

Lemma dataAt_moved v l l' i :
  Forall2 (movedVertex v) l l' ->
  resultRel (movedVertex v) (dataAt l i) (dataAt l' i).
Proof.
  intros H; revert i; induction H as [| a b l l' Hab H IH]; intros [| i];
    unfold dataAt, Ring.data in *; simpl; try reflexivity; [exact Hab | apply IH].
Qed.

Lemma Forall2_moved_length v l l' :
  Forall2 (movedVertex v) l l' -> length l' = length l.
Proof. intros H; induction H; simpl; congruence. Qed.

Lemma isConvex_moved v P P' u w :
  movedPolygon v P P' -> movedVertex v u w ->
  Vertex.isConvex w P' = Vertex.isConvex u P.
Proof.
  intros [HV HP] Huw; unfold Vertex.isConvex, nodeFor, Ring.findNode.
  rewrite (findFrom_moved v u w _ _ 0 Huw HV).
  destruct (Ring.findFrom _ (vertices P) 0) as [node |]; [| reflexivity].
  unfold Ring.prev, Ring.next; rewrite (Forall2_moved_length _ _ _ HV).
  pose proof (dataAt_moved v _ _ ((node + (length (vertices P) - 1))
                                    mod length (vertices P)) HV) as Hp.
  pose proof (dataAt_moved v _ _ ((node + 1) mod length (vertices P)) HV) as Hn.
  destruct (dataAt (vertices P) ((node + (length (vertices P) - 1)) mod _))
    as [p | e], (dataAt (vertices P') ((node + (length (vertices P) - 1)) mod _))
    as [p' | e']; simpl in Hp; try contradiction; [| subst; reflexivity].
  cbn [bind].
  destruct (dataAt (vertices P) ((node + 1) mod _)) as [n | e],
           (dataAt (vertices P') ((node + 1) mod _)) as [n' | e'];
    simpl in Hn; try contradiction; [| subst; reflexivity].
  cbn [bind]; unfold movedVertex in *; rewrite Hp, Hn, Huw, !subtract_moved.
  destruct (plane P) as [p0 |], (plane P') as [p0' |]; simpl in HP;
    try contradiction; subst; reflexivity.
Qed.

Lemma classify_moved v P P' l l' :
  movedPolygon v P P' -> Forall2 (movedVertex v) l l' ->
  resultRel (fun r r' => Forall2 (movedVertex v) (fst r) (fst r') /\
                         Forall2 (movedVertex v) (snd r) (snd r'))
            (classify P l) (classify P' l').
Proof.
  intros HP H; induction H as [| a b l l' Hab H IH]; simpl.
  - split; constructor.
  - rewrite (isConvex_moved v P P' a b HP Hab).
    destruct (Vertex.isConvex a P) as [c | e]; cbn [bind]; [| reflexivity].
    destruct (classify P l) as [r | e], (classify P' l') as [r' | e'];
      simpl in IH; try contradiction; cbn [bind]; [| exact IH].
    destruct IH as [I1 I2]; destruct c; simpl; split;
      try constructor; assumption.
Qed.

Lemma fromPoints_moved v a b c :
  Plane.fromPoints (Vector.add a v) (Vector.add b v) (Vector.add c v)
  = option_map (fun p => Plane.translate p v) (Plane.fromPoints a b c).
Proof.
  unfold Plane.fromPoints; rewrite !subtract_moved.
  destruct (Reqb _ 0); reflexivity.
Qed.

Lemma planeOfPoints_moved v l l' :
  Forall2 (movedVertex v) l l' ->
  movedPlane v (planeOfPoints l) (planeOfPoints l').
Proof.
  intros H; destruct H as [| a a' ? ? Ha H]; [exact I |].
  destruct H as [| b b' ? ? Hb H]; [exact I |].
  destruct H as [| c c' ? ? Hc H]; [exact I |].
  unfold planeOfPoints, movedVertex in *; rewrite Ha, Hb, Hc, fromPoints_moved.
  destruct (Plane.fromPoints _ _ _); simpl; auto.
Qed.

Lemma new_moved v l l' opl opl' :
  Forall2 (movedVertex v) l l' -> movedPlane v opl opl' ->
  resultRel (fun Q Q' => movedPolygon v Q Q' /\
                         Forall2 (movedVertex v) (convexVertices Q)
                                 (convexVertices Q') /\
                         Forall2 (movedVertex v) (reflexVertices Q)
                                 (reflexVertices Q'))
            (new l opl) (new l' opl').
Proof.
  intros H Hpl; unfold new, populateVertexTypeLists.
  set (p := match opl with Some p => Some p | None => planeOfPoints l end).
  set (p' := match opl' with Some p => Some p | None => planeOfPoints l' end).
  assert (Hp : movedPlane v p p').
  { subst p p'; destruct opl, opl'; simpl in Hpl; try contradiction;
      [exact Hpl | apply planeOfPoints_moved, H]. }
  assert (HP : movedPolygon v (mk p l [] []) (mk p' l' [] []))
    by (split; assumption).
  pose proof (classify_moved v _ _ l l' HP H) as Hc; simpl.
  destruct (classify (mk p l [] []) l) as [r | e],
           (classify (mk p' l' [] []) l') as [r' | e'];
    simpl in Hc; try contradiction; cbn [bind]; [| exact Hc].
  destruct Hc as [C1 C2]; simpl; repeat split; assumption.
Qed.

Lemma colinear_moved v a b c :
  colinear (Vector.add a v) (Vector.add b v) (Vector.add c v) = colinear a b c.
Proof.
  destruct a, b, c, v; unfold colinear, Vector.add; simpl.
  f_equal; ring.
Qed.

Lemma mapM_rel {A B} (Q : B -> B -> Prop) (f g : A -> result B) l :
  (forall a, resultRel Q (f a) (g a)) ->
  resultRel (Forall2 Q) (mapM f l) (mapM g l).
Proof.
  intros H; induction l as [| a l IH]; simpl; [constructor |].
  specialize (H a); destruct (f a) as [x | e], (g a) as [y | e'];
    simpl in H; try contradiction; cbn [bind]; [| exact H].
  destruct (mapM f l) as [xs | e], (mapM g l) as [ys | e'];
    simpl in IH; try contradiction; cbn [bind]; [| exact IH].
  constructor; assumption.
Qed.

Lemma fan_moved v P P' :
  movedPolygon v P P' ->
  resultRel (Forall2 (movedPolygon v))
            (trianglesForSurfaceIntegral P) (trianglesForSurfaceIntegral P').
Proof.
  intros [HV HP]; unfold trianglesForSurfaceIntegral.
  pose proof (dataAt_moved v _ _ 0 HV) as H0.
  destruct (dataAt (vertices P) 0) as [f | e],
           (dataAt (vertices P') 0) as [f' | e'];
    simpl in H0; try contradiction; cbn [bind]; [| exact H0].
  unfold Ring.nodes, Ring.prev; rewrite (Forall2_moved_length _ _ _ HV).
  apply mapM_rel; intros node.
  pose proof (dataAt_moved v _ _ ((node + (length (vertices P) - 1))
                                    mod length (vertices P)) HV) as Hp.
  destruct (dataAt (vertices P) ((node + (length (vertices P) - 1)) mod _))
    as [p | e], (dataAt (vertices P') ((node + (length (vertices P) - 1)) mod _))
    as [p' | e']; simpl in Hp; try contradiction; cbn [bind]; [| exact Hp].
  pose proof (dataAt_moved v _ _ node HV) as Hd.
  destruct (dataAt (vertices P) node) as [d | e],
           (dataAt (vertices P') node) as [d' | e'];
    simpl in Hd; try contradiction; cbn [bind]; [| exact Hd].
  assert (HL : Forall2 (movedVertex v) [f; p; d] [f'; p'; d'])
    by (repeat constructor; assumption).
  assert (Hpl : movedPlane v
            (if colinear (elements f) (elements p) (elements d)
             then plane P
             else Plane.fromPoints (elements f) (elements p) (elements d))
            (if colinear (elements f') (elements p') (elements d')
             then plane P'
             else Plane.fromPoints (elements f') (elements p') (elements d'))).
  { unfold movedVertex in *; rewrite H0, Hp, Hd, colinear_moved.
    destruct (colinear _ _ _); [exact HP |].
    rewrite fromPoints_moved; destruct (Plane.fromPoints _ _ _); simpl; auto. }
  pose proof (new_moved v _ _ _ _ HL Hpl) as Hn.
  destruct (new [f; p; d] _) as [Q | e], (new [f'; p'; d'] _) as [Q' | e'];
    simpl in Hn; try contradiction; simpl; [apply Hn | exact Hn].
Qed.

Lemma area_closed_moved v P P' :
  Forall2 (movedVertex v) (vertices P) (vertices P') ->
  area_closed P' = area_closed P.
Proof.
  intros HV; unfold area_closed, Ring.next.
  rewrite (Forall2_moved_length _ _ _ HV).
  pose proof (dataAt_moved v _ _ 0 HV) as HA.
  destruct (dataAt (vertices P) 0) as [A | e],
           (dataAt (vertices P') 0) as [A' | e'];
    simpl in HA; try contradiction; cbn [bind]; [| subst; reflexivity].
  pose proof (dataAt_moved v _ _ ((0 + 1) mod length (vertices P)) HV) as HB.
  destruct (dataAt (vertices P) ((0 + 1) mod _)) as [B | e],
           (dataAt (vertices P') ((0 + 1) mod _)) as [B' | e'];
    simpl in HB; try contradiction; cbn [bind]; [| subst; reflexivity].
  pose proof (dataAt_moved v _ _
                ((((0 + 1) mod length (vertices P)) + 1)
                   mod length (vertices P)) HV) as HC.
  destruct (dataAt (vertices P) ((((0 + 1) mod _) + 1) mod _)) as [C | e],
           (dataAt (vertices P') ((((0 + 1) mod _) + 1) mod _)) as [C' | e'];
    simpl in HC; try contradiction; cbn [bind]; [| subst; reflexivity].
  unfold movedVertex in *; rewrite HA, HB, HC.
  destruct (elements A), (elements B), (elements C), v; unfold Vector.add; simpl.
  do 3 apply f_equal; f_equal; ring.
Qed.

Lemma area_sum_moved v P P' ts ts' acc :
  movedPlane v (plane P) (plane P') -> Forall2 (movedPolygon v) ts ts' ->
  area_sum P' ts' acc = area_sum P ts acc.
Proof.
  intros HP H; revert acc; induction H as [| T T' ts ts' [TV TP] H IH];
    intros acc; simpl; [reflexivity |].
  rewrite (area_closed_moved v T T' TV).
  destruct (area_closed T) as [a | e]; cbn [bind]; [| reflexivity].
  destruct (plane T) as [tp |], (plane T') as [tp' |]; simpl in TP;
    try contradiction; simpl; [| reflexivity].
  destruct (plane P) as [pl |], (plane P') as [pl' |]; simpl in HP;
    try contradiction; simpl; [| reflexivity].
  subst; simpl; apply IH.
Qed.

Lemma area_moved v P P' : movedPolygon v P P' -> area P' = area P.
Proof.
  intros HP; pose proof HP as [HV Hpl]; unfold area, isTriangle.
  rewrite (Forall2_moved_length _ _ _ HV).
  destruct (Nat.eqb _ 3); [apply (area_closed_moved v), HV |].
  pose proof (fan_moved v P P' HP) as Hf.
  destruct (trianglesForSurfaceIntegral P) as [ts | e],
           (trianglesForSurfaceIntegral P') as [ts' | e'];
    simpl in Hf; try contradiction; cbn [bind]; [| subst; reflexivity].
  apply (area_sum_moved v); assumption.
Qed.

(** *** The centroid *)

Lemma at_moved v l l' i :
  Forall2 (movedVertex v) l l' ->
  resultRel (movedVertex v) (deref (Ring.at_ l i)) (deref (Ring.at_ l' i)).
Proof.
  intros H; unfold Ring.at_; rewrite (Forall2_moved_length _ _ _ H).
  apply (dataAt_moved v l l' (i mod length l) H).
Qed.

Lemma centroid_closed_moved v P P' :
  Forall2 (movedVertex v) (vertices P) (vertices P') ->
  resultRel (fun c c' => c' = Vector.add c v)
            (centroid_closed P) (centroid_closed P').
Proof.
  intros HV; unfold centroid_closed.
  pose proof (at_moved v _ _ 0%nat HV) as HA.
  destruct (deref (Ring.at_ (vertices P) 0)) as [A | e],
           (deref (Ring.at_ (vertices P') 0)) as [A' | e'];
    simpl in HA; try contradiction; cbn [bind]; [| exact HA].
  pose proof (at_moved v _ _ 1%nat HV) as HB.
  destruct (deref (Ring.at_ (vertices P) 1)) as [B | e],
           (deref (Ring.at_ (vertices P') 1)) as [B' | e'];
    simpl in HB; try contradiction; cbn [bind]; [| exact HB].
  pose proof (at_moved v _ _ 2%nat HV) as HC.
  destruct (deref (Ring.at_ (vertices P) 2)) as [C | e],
           (deref (Ring.at_ (vertices P') 2)) as [C' | e'];
    simpl in HC; try contradiction; cbn [bind]; [| exact HC].
  unfold movedVertex in *; simpl; rewrite HA, HB, HC.
  destruct (elements A), (elements B), (elements C), v; unfold Vector.add; simpl.
  f_equal; field.
Qed.

Lemma centroid_sum_moved v P P' ts ts' V M :
  movedPlane v (plane P) (plane P') -> Forall2 (movedPolygon v) ts ts' ->
  resultRel (fun r r' => snd r' = snd r /\
                         fst r' = Vector.add (fst r) (Vector.x v (snd r)))
            (centroid_sum P ts V M)
            (centroid_sum P' ts' (Vector.add V (Vector.x v M)) M).
Proof.
  intros HP H; revert V M; induction H as [| T T' ts ts' HT H IH];
    intros V M; simpl; [split; reflexivity |].
  rewrite (area_moved v T T' HT); destruct HT as [TV TP].
  destruct (area T) as [a | e]; cbn [bind]; [| reflexivity].
  destruct (plane T) as [tp |], (plane T') as [tp' |]; simpl in TP;
    try contradiction; simpl; [| reflexivity].
  destruct (plane P) as [pl |] eqn:EP, (plane P') as [pl' |] eqn:EP';
    simpl in HP; try contradiction; simpl; [| reflexivity].
  pose proof (centroid_closed_moved v T T' TV) as HC.
  destruct (centroid_closed T) as [C | e], (centroid_closed T') as [C' | e'];
    simpl in HC; try contradiction; cbn [bind]; [| exact HC].
  subst; simpl.
  match goal with
  | |- resultRel _ (centroid_sum _ _ ?W ?N) _ =>
      specialize (IH W N)
  end.
  match goal with
  | H : resultRel _ _ (centroid_sum _ _ ?X _)
    |- resultRel _ _ (centroid_sum _ _ ?Y _) =>
      replace Y with X; [exact H |]
  end.
  destruct V, C, v; unfold Vector.add, Vector.x; simpl; f_equal; ring.
Qed.

Lemma Forall2_moved_rev {A} (Q : A -> A -> Prop) l l' :
  Forall2 Q l l' -> Forall2 Q (rev l) (rev l').
Proof.
  intros H; induction H; simpl; [constructor |].
  apply Forall2_app; [assumption | constructor; [assumption | constructor]].
Qed.

Lemma centroid_moved v P P' :
  movedPolygon v P P' ->
  resultRel (fun c c' => c' = option_map (fun c => Vector.add c v) c)
            (centroid P) (centroid P').
Proof.
  intros HP; pose proof HP as [HV Hpl]; unfold centroid, isTriangle.
  rewrite (Forall2_moved_length _ _ _ HV).
  destruct (Nat.eqb _ 3).
  - pose proof (centroid_closed_moved v P P' HV) as HC.
    destruct (centroid_closed P) as [C | e], (centroid_closed P') as [C' | e'];
      simpl in HC; try contradiction; simpl; [congruence | exact HC].
  - pose proof (fan_moved v P P' HP) as Hf.
    destruct (trianglesForSurfaceIntegral P) as [ts | e],
             (trianglesForSurfaceIntegral P') as [ts' | e'];
      simpl in Hf; try contradiction; cbn [bind]; [| exact Hf].
    pose proof (centroid_sum_moved v P P' (rev ts) (rev ts') Vector.Zero3 0
                  Hpl (Forall2_moved_rev _ _ _ Hf)) as Hs.
    replace (Vector.add Vector.Zero3 (Vector.x v 0)) with Vector.Zero3 in Hs
      by (destruct v; unfold Vector.add, Vector.x, Vector.Zero3; simpl;
          f_equal; ring).
    destruct (centroid_sum P (rev ts) Vector.Zero3 0) as [[V M] | e],
             (centroid_sum P' (rev ts') Vector.Zero3 0) as [[V' M'] | e'];
      simpl in Hs; try contradiction; cbn [bind]; [| exact Hs].
    destruct Hs as [-> ->]; simpl.
    unfold Reqb; destruct (Req_dec_T M 0) as [HM | HM]; [reflexivity |].
    simpl; f_equal.
    destruct V, v; unfold Vector.add, Vector.x; simpl; f_equal; field; exact HM.
Qed.

(** *** Containment *)

Lemma someM_ext {A} (f g : A -> result bool) l :
  (forall a, f a = g a) -> someM f l = someM g l.
Proof.
  intros H; induction l as [| a l IH]; simpl; [reflexivity |].
  rewrite H, IH; reflexivity.
Qed.

Lemma difference_moved a b v :
  Vector.V3 (Vector.E0 (Vector.add a v) - Vector.E0 (Vector.add b v))
            (Vector.E1 (Vector.add a v) - Vector.E1 (Vector.add b v))
            (Vector.E2 (Vector.add a v) - Vector.E2 (Vector.add b v))
  = Vector.V3 (Vector.E0 a - Vector.E0 b) (Vector.E1 a - Vector.E1 b)
              (Vector.E2 a - Vector.E2 b).
Proof. destruct a, b, v; unfold Vector.add; simpl; f_equal; ring. Qed.

Lemma segment_contains_moved a b p v :
  (seg <- Segment.new (Vector.add a v) (Vector.add b v) ;;
   Return (Segment.contains seg (Vector.add p v)))%js
  = (seg <- Segment.new a b ;; Return (Segment.contains seg p))%js.
Proof.
  unfold Segment.new, Line.new; rewrite subtract_moved.
  destruct (Reqb _ 0); [reflexivity |].
  cbn [bind]; unfold Segment.contains, Segment.toVector; cbn [Segment.start Segment.end_].
  rewrite eql_moved, !difference_moved; reflexivity.
Qed.

Lemma hasEdgeContaining_moved v P P' p :
  Forall2 (movedVertex v) (vertices P) (vertices P') ->
  hasEdgeContaining P' (Vector.add p v) = hasEdgeContaining P p.
Proof.
  intros HV; unfold hasEdgeContaining, Ring.nodes, Ring.next.
  rewrite (Forall2_moved_length _ _ _ HV).
  apply someM_ext; intros node.
  pose proof (dataAt_moved v _ _ node HV) as Hd.
  destruct (dataAt (vertices P) node) as [d | e],
           (dataAt (vertices P') node) as [d' | e'];
    simpl in Hd; try contradiction; cbn [bind]; [| subst; reflexivity].
  pose proof (dataAt_moved v _ _ ((node + 1) mod length (vertices P)) HV) as Hn.
  destruct (dataAt (vertices P) ((node + 1) mod _)) as [n | e],
           (dataAt (vertices P') ((node + 1) mod _)) as [n' | e'];
    simpl in Hn; try contradiction; cbn [bind]; [| subst; reflexivity].
  unfold movedVertex in *; rewrite Hd, Hn; apply segment_contains_moved.
Qed.

Lemma windingStep_moved v P P' p eps state node :
  movedPolygon v P P' ->
  windingStep P' (Vector.add p v) eps state node
  = windingStep P p eps state node.
Proof.
  intros [HV HP]; unfold windingStep, Ring.next.
  rewrite (Forall2_moved_length _ _ _ HV).
  pose proof (dataAt_moved v _ _ node HV) as Hd.
  destruct (dataAt (vertices P) node) as [d | e],
           (dataAt (vertices P') node) as [d' | e'];
    simpl in Hd; try contradiction; cbn [bind]; [| subst; reflexivity].
  pose proof (dataAt_moved v _ _ ((node + 1) mod length (vertices P)) HV) as Hn.
  destruct (dataAt (vertices P) ((node + 1) mod _)) as [n | e],
           (dataAt (vertices P') ((node + 1) mod _)) as [n' | e'];
    simpl in Hn; try contradiction; cbn [bind]; [| subst; reflexivity].
  unfold movedVertex in *; rewrite Hd, Hn, !difference_moved.
  destruct (plane P) as [pl |], (plane P') as [pl' |]; simpl in HP;
    try contradiction; subst; reflexivity.
Qed.

Lemma windingLoop_moved v P P' p eps nodes state :
  movedPolygon v P P' ->
  windingLoop P' (Vector.add p v) eps nodes state
  = windingLoop P p eps nodes state.
Proof.
  intros HP; revert state; induction nodes as [| node nodes IH]; intros state;
    simpl; [reflexivity |].
  rewrite (windingStep_moved v P P' p eps state node HP).
  destruct (windingStep P p eps state node); simpl; [apply IH | reflexivity].
Qed.

Lemma plane_contains_moved pl p v eps :
  Plane.contains (Plane.translate pl v) (Vector.add p v) eps
  = Plane.contains pl p eps.
Proof.
  unfold Plane.contains, Plane.translate; simpl.
  rewrite subtract_moved; reflexivity.
Qed.

Lemma contains_moved v P P' p eps :
  movedPolygon v P P' ->
  contains P' (Vector.add p v) eps = contains P p eps.
Proof.
  intros HP; pose proof HP as [HV Hpl].
  unfold contains, containsByWindingNumber, containsVerdict.
  rewrite (hasEdgeContaining_moved v P P' p HV).
  rewrite (windingLoop_moved v P P' p eps _ _ HP).
  unfold Ring.nodes; rewrite (Forall2_moved_length _ _ _ HV).
  destruct (plane P) as [pl |], (plane P') as [pl' |]; simpl in Hpl;
    try contradiction; [| reflexivity].
  subst; cbn [deref bind]; rewrite plane_contains_moved; reflexivity.
Qed.

(** *** The translated polygon *)

Lemma map_elements_moved v l l' :
  Forall2 (movedVertex v) l l' ->
  map elements l' = map (fun a => Vector.add a v) (map elements l).
Proof.
  intros H; induction H as [| u w l l' Huw H IH]; simpl;
    [reflexivity | rewrite Huw, IH; reflexivity].
Qed.

Lemma new_lists points pl P :
  new points pl = Return P ->
  classify (mk (plane P) points [] []) points
  = Return (convexVertices P, reflexVertices P).
Proof.
  intros H; destruct (new_fields _ _ _ H) as [_ Hp].
  unfold new, populateVertexTypeLists in H; simpl in H.
  rewrite <- Hp in H.
  destruct (classify (mk (plane P) points [] []) points) as [[cs rs] | e];
    simpl in H; [| discriminate].
  injection H as <-; reflexivity.
Qed.

(** X22: [translate] keeps the outcome of [area()]: the translated
    polygon has the same area, or raises the same error. *)
Theorem translate_keeps_area (P : Polygon.t) (pl : Plane.t) (v : Vector.t)
        (fresh : nat) :
  plane P = Some pl ->
  exists P', translate P v fresh = Return P' /\ area P' = area P.
Proof.
  intros Hp; destruct (translate_total P pl v fresh Hp) as [P' H].
  exists P'; split; [exact H |].
  apply (area_moved v), (translate_moved _ _ _ _ H).
Qed.

(** X23: [translate] keeps the classification of the vertices:
    [isConvex] and [isReflex] of a moved vertex on the translated polygon
    are what they are of the vertex on the polygon, and for a constructed
    polygon the convex and the reflex ring of the translation are the
    convex and the reflex ring moved. *)
Theorem translate_keeps_classification (P : Polygon.t) (pl : Plane.t)
        (v : Vector.t) (fresh : nat) :
  plane P = Some pl ->
  exists P',
    translate P v fresh = Return P' /\
    (forall u w, elements w = Vector.add (elements u) v ->
                 Vertex.isConvex w P' = Vertex.isConvex u P /\
                 Vertex.isReflex w P' = Vertex.isReflex u P) /\
    (forall points pl0,
        new points pl0 = Return P ->
        map elements (convexVertices P')
        = map (fun a => Vector.add a v) (map elements (convexVertices P)) /\
        map elements (reflexVertices P')
        = map (fun a => Vector.add a v) (map elements (reflexVertices P))).
Proof.
  intros Hp; destruct (translate_total P pl v fresh Hp) as [P' H].
  pose proof (translate_moved _ _ _ _ H) as HM.
  exists P'; split; [exact H |]; split.
  - intros u w Huw; unfold Vertex.isReflex.
    rewrite (isConvex_moved v P P' u w HM Huw); split; reflexivity.
  - intros points pl0 HN.
    pose proof (new_lists _ _ _ HN) as HC.
    destruct (new_fields _ _ _ HN) as [HV _].
    unfold translate in H; rewrite Hp in H; simpl in H.
    pose proof (new_lists _ _ _ H) as HC'.
    destruct (new_fields _ _ _ H) as [HV' HP'].
    destruct HM as [MV MP].
    pose proof (classify_moved v
                  (mk (plane P) points [] [])
                  (mk (plane P')
                      (allocate fresh
                         (map (fun u => Vector.add (elements u) v) (vertices P)))
                      [] [])
                  points
                  (allocate fresh
                     (map (fun u => Vector.add (elements u) v) (vertices P))))
      as HR.
    rewrite HC, HC' in HR; simpl in HR.
    destruct HR as [R1 R2].
    + split; simpl; [rewrite <- HV, <- HV'; exact MV | exact MP].
    + rewrite <- HV, <- HV'; exact MV.
    + split; apply map_elements_moved; assumption.
Qed.

(** X24: [translate] moves the centroid by the vector: [centroid()] of
    the translated polygon is [centroid()] of the polygon plus the
    vector, and it raises, or has no finite value, in the same cases. *)
Theorem translate_moves_centroid (P : Polygon.t) (pl : Plane.t)
        (v : Vector.t) (fresh : nat) :
  plane P = Some pl ->
  exists P',
    translate P v fresh = Return P' /\
    centroid P' = fmap (option_map (fun c => Vector.add c v)) (centroid P).
Proof.
  intros Hp; destruct (translate_total P pl v fresh Hp) as [P' H].
  exists P'; split; [exact H |].
  pose proof (centroid_moved v P P' (translate_moved _ _ _ _ H)) as HC.
  destruct (centroid P) as [c | e], (centroid P') as [c' | e'];
    simpl in HC; try contradiction; subst; reflexivity.
Qed.

(** X25: [translate] keeps containment: the translated polygon
    contains the moved point exactly when the polygon contains the point,
    at every epsilon, and it has an edge through the moved point exactly
    when the polygon has one through the point; errors are the same. *)
Theorem translate_keeps_contains (P : Polygon.t) (pl : Plane.t)
        (v : Vector.t) (fresh : nat) :
  plane P = Some pl ->
  exists P',
    translate P v fresh = Return P' /\
    forall p eps,
      contains P' (Vector.add p v) eps = contains P p eps /\
      hasEdgeContaining P' (Vector.add p v) = hasEdgeContaining P p.
Proof.
  intros Hp; destruct (translate_total P pl v fresh Hp) as [P' H].
  pose proof (translate_moved _ _ _ _ H) as HM.
  exists P'; split; [exact H |]; intros p eps; split.
  - apply (contains_moved v), HM.
  - apply (hasEdgeContaining_moved v), HM.
Qed.

(* ------------------------------------------------------------------ *)
(** ** Instances of the properties of lines, segments and polygons *)

Lemma axisX_unit : unitLine axisX.
Proof. apply modulus_eq; [lra | unfold Vector.dot; simpl; ring]. Qed.

Lemma unitSegment_new :
  Segment.new (Vector.V3 0 0 0) (Vector.V3 1 0 0) = Return unitSegment.
Proof.
  unfold Segment.new, Line.new.
  assert (Hm : Vector.modulus (Vector.subtract (Vector.V3 1 0 0) (Vector.V3 0 0 0))
               = 1).
  { apply modulus_eq; [lra | unfold Vector.dot; simpl; ring]. }
  rewrite Hm; unfold Reqb; destruct (Req_dec_T 1 0) as [E | _]; [lra |].
  simpl; unfold unitSegment, axisX; do 4 f_equal; lra.
Qed.

Lemma Line_translate_compose_witness :
  unitLine axisX /\
  Line.translate axisX (Vector.V3 0 1 0)
  = Return (Line.mk (Vector.add (Line.anchor axisX) (Vector.V3 0 1 0))
                    (Line.direction axisX)) /\
  (L' <- Line.translate axisX (Vector.V3 0 1 0) ;;
   Line.translate L' (Vector.V3 0 0 1))
  = Line.translate axisX (Vector.add (Vector.V3 0 1 0) (Vector.V3 0 0 1)).
Proof.
  split; [exact axisX_unit |].
  exact (Line_translate_compose axisX (Vector.V3 0 1 0) (Vector.V3 0 0 1)
                                axisX_unit).
Defined.

Lemma Line_reverse_involutive_witness :
  unitLine axisX /\
  Line.reverse axisX
  = Return (Line.mk (Line.anchor axisX) (opposite (Line.direction axisX))) /\
  (L' <- Line.reverse axisX ;; Line.reverse L') = Return axisX.
Proof.
  split; [exact axisX_unit |].
  exact (Line_reverse_involutive axisX axisX_unit).
Defined.



Lemma Segment_contains_ends_and_midpoint_witness :
  Segment.new (Vector.V3 0 0 0) (Vector.V3 1 0 0) = Return unitSegment /\
  Segment.contains unitSegment (Segment.start unitSegment) = true /\
  Segment.contains unitSegment (Segment.end_ unitSegment) = true /\
  Segment.contains unitSegment (Segment.midpoint unitSegment) = true.
Proof.
  split; [exact unitSegment_new |].
  exact (Segment_contains_ends_and_midpoint _ _ unitSegment unitSegment_new).
Defined.

Lemma origin_apart : Vector.V3 0 0 0 <> Vector.V3 1 0 0.
Proof. intros H; injection H as H; lra. Qed.

Lemma Segment_contains_span_witness :
  Vector.V3 0 0 0 <> Vector.V3 1 0 0 /\
  (Segment.contains unitSegment
     (between (Vector.V3 0 0 0) (Vector.V3 1 0 0) 2) = true <->
   Vector.eql (Vector.V3 0 0 0) (between (Vector.V3 0 0 0) (Vector.V3 1 0 0) 2)
              Sylvester.precision = true \/ 0 <= 2 <= 1).
Proof.
  split; [exact origin_apart |].
  exact (Segment_contains_span axisX (Vector.V3 0 0 0) (Vector.V3 1 0 0) 2
                               origin_apart).
Defined.

Lemma Segment_translate_rigid_witness :
  Segment.new (Vector.V3 0 0 0) (Vector.V3 1 0 0) = Return unitSegment /\
  exists seg',
    Segment.translate unitSegment (Vector.V3 0 1 0) = Return seg' /\
    Segment.start seg' = Vector.add (Vector.V3 0 0 0) (Vector.V3 0 1 0) /\
    Segment.end_ seg' = Vector.add (Vector.V3 1 0 0) (Vector.V3 0 1 0) /\
    Segment.toVector seg' = Segment.toVector unitSegment /\
    Segment.length seg' = Segment.length unitSegment /\
    Line.direction (Segment.line seg') = Line.direction (Segment.line unitSegment).
Proof.
  split; [exact unitSegment_new |].
  exact (Segment_translate_rigid _ _ (Vector.V3 0 1 0) unitSegment
                                 unitSegment_new).
Defined.

Lemma Segment_pointClosestTo_on_segment_witness :
  Segment.new (Vector.V3 0 0 0) (Vector.V3 1 0 0) = Return unitSegment /\
  exists Q, Segment.pointClosestTo unitSegment (Vector.V3 2 3 0) = Some Q /\
            Segment.contains unitSegment Q = true.
Proof.
  split; [exact unitSegment_new |].
  exact (Segment_pointClosestTo_on_segment _ _ (Vector.V3 2 3 0) unitSegment
                                           unitSegment_new).
Defined.



Lemma Polygon_new_partition_witness :
  new Sample.dart (Some Sample.ground) = Return dartPolygon /\
  Permutation (convexVertices dartPolygon ++ reflexVertices dartPolygon)
              (vertices dartPolygon) /\
  (forall v, In v (convexVertices dartPolygon) ->
             Vertex.isConvex v dartPolygon = Return true) /\
  (forall v, In v (reflexVertices dartPolygon) ->
             Vertex.isReflex v dartPolygon = Return true) /\
  (forall v, In v (convexVertices dartPolygon) ->
             In v (reflexVertices dartPolygon) -> False).
Proof.
  split; [exact dart_new |].
  exact (Polygon_new_partition Sample.dart (Some Sample.ground) dartPolygon
                               dart_new).
Defined.

Lemma toTriangles_members_witness :
  exists ts,
    toTriangles (fun _ => 0) dartPolygon = Some (Return ts) /\
    Forall (fun t => length (vertices t) = 3%nat /\
                     incl (vertices t) (vertices dartPolygon) /\
                     (forall pl, plane dartPolygon = Some pl ->
                                 plane t = Some pl))
           ts.
Proof.
  destruct (dart_triangles (fun _ => 0)) as [trig [rest [H _]]]; [lra |].
  exists [trig; rest]; split; [exact H |].
  exact (toTriangles_members (fun _ => 0) dartPolygon [trig; rest] H).
Defined.

Lemma removeVertex_removes_witness :
  plane dartPolygon = Some Sample.ground /\
  (isTriangle dartPolygon = true ->
   removeVertex dartPolygon Sample.dartB = Return dartPolygon) /\
  (isTriangle dartPolygon = false ->
   exists P',
     removeVertex dartPolygon Sample.dartB = Return P' /\
     plane P' = Some Sample.ground /\
     (forall u, In u (vertices P') <->
                In u (vertices dartPolygon) /\
                Vector.eql (elements Sample.dartB) (elements u)
                           Sylvester.precision = false) /\
     Vertex.isConvex Sample.dartB P' = Throw InvalidOperationError /\
     ((forall u, In u (vertices dartPolygon) ->
                 Vector.eql (elements Sample.dartB) (elements u)
                            Sylvester.precision = false) ->
      vertices P' = vertices dartPolygon)).
Proof.
  split; [reflexivity |].
  exact (removeVertex_removes dartPolygon Sample.ground Sample.dartB eq_refl).
Defined.

Lemma scale_compose_witness :
  plane dartPolygon = Some Sample.ground /\
  dataAt (vertices dartPolygon) 0 = Return Sample.dartA /\
  exists P1 P2,
    scale dartPolygon 2 (Vector.V3 1 1 0) 4 = Return P1 /\
    scale P1 (/ 2) (Vector.V3 1 1 0) 8 = Return P2 /\
    map elements (vertices P2)
    = map (scaled (/ 2 * 2) (Vector.V3 1 1 0))
          (map elements (vertices dartPolygon)) /\
    (/ 2 * 2 = 1 ->
     map elements (vertices P2) = map elements (vertices dartPolygon)) /\
    exists pl2, plane P2 = Some pl2 /\
                Plane.normal pl2 = Plane.normal Sample.ground.
Proof.
  split; [reflexivity |]; split; [reflexivity |].
  exact (scale_compose dartPolygon Sample.ground Sample.dartA 2 (/ 2)
                       (Vector.V3 1 1 0) 4 8 eq_refl eq_refl).
Defined.

Lemma translate_round_trip_witness :
  plane dartPolygon = Some Sample.ground /\ 0 <= Sylvester.precision /\
  exists P1 P2,
    translate dartPolygon (Vector.V3 1 2 3) 4 = Return P1 /\
    translate P1 (Vector.x (Vector.V3 1 2 3) (-1)) 8 = Return P2 /\
    map elements (vertices P1)
    = map (fun a => Vector.add a (Vector.V3 1 2 3))
          (map elements (vertices dartPolygon)) /\
    map elements (vertices P2) = map elements (vertices dartPolygon) /\
    plane P2 = Some Sample.ground /\
    eql P2 dartPolygon Sylvester.precision = Return true.
Proof.
  split; [reflexivity |]; split; [exact precision_nonneg |].
  exact (translate_round_trip dartPolygon Sample.ground (Vector.V3 1 2 3) 4 8
                              Sylvester.precision eq_refl precision_nonneg).
Defined.

Lemma translate_keeps_area_witness :
  plane dartPolygon = Some Sample.ground /\
  exists P', translate dartPolygon (Vector.V3 1 2 3) 4 = Return P' /\
             area P' = area dartPolygon.
Proof.
  split; [reflexivity |].
  exact (translate_keeps_area dartPolygon Sample.ground (Vector.V3 1 2 3) 4
                              eq_refl).
Defined.

Lemma translate_keeps_classification_witness :
  plane dartPolygon = Some Sample.ground /\
  exists P',
    translate dartPolygon (Vector.V3 1 2 3) 4 = Return P' /\
    (forall u w, elements w = Vector.add (elements u) (Vector.V3 1 2 3) ->
                 Vertex.isConvex w P' = Vertex.isConvex u dartPolygon /\
                 Vertex.isReflex w P' = Vertex.isReflex u dartPolygon) /\
    (forall points pl0,
        new points pl0 = Return dartPolygon ->
        map elements (convexVertices P')
        = map (fun a => Vector.add a (Vector.V3 1 2 3))
              (map elements (convexVertices dartPolygon)) /\
        map elements (reflexVertices P')
        = map (fun a => Vector.add a (Vector.V3 1 2 3))
              (map elements (reflexVertices dartPolygon))).
Proof.
  split; [reflexivity |].
  exact (translate_keeps_classification dartPolygon Sample.ground
                                        (Vector.V3 1 2 3) 4 eq_refl).
Defined.

Lemma translate_moves_centroid_witness :
  plane dartPolygon = Some Sample.ground /\
  exists P',
    translate dartPolygon (Vector.V3 1 2 3) 4 = Return P' /\
    centroid P'
    = fmap (option_map (fun c => Vector.add c (Vector.V3 1 2 3)))
           (centroid dartPolygon).
Proof.
  split; [reflexivity |].
  exact (translate_moves_centroid dartPolygon Sample.ground (Vector.V3 1 2 3) 4
                                  eq_refl).
Defined.

Lemma translate_keeps_contains_witness :
  plane dartPolygon = Some Sample.ground /\
  exists P',
    translate dartPolygon (Vector.V3 1 2 3) 4 = Return P' /\
    forall p eps,
      contains P' (Vector.add p (Vector.V3 1 2 3)) eps
      = contains dartPolygon p eps /\
      hasEdgeContaining P' (Vector.add p (Vector.V3 1 2 3))
      = hasEdgeContaining dartPolygon p.
Proof.
  split; [reflexivity |].
  exact (translate_keeps_contains dartPolygon Sample.ground (Vector.V3 1 2 3) 4
                                  eq_refl).
Defined.

Lemma upright_unit : unitLine upright.
Proof. apply modulus_eq; [lra | unfold Vector.dot; simpl; ring]. Qed.

Lemma upright_not_parallel :
  Line.isParallelTo axisX upright Sylvester.precision = false.
Proof.
  unfold Line.isParallelTo, Vector.angleFrom.
  rewrite axisX_unit, upright_unit.
  assert (Reqb (1 * 1) 0 = false) as -> by (apply Reqb_false; lra).
  replace (Vector.dot (Line.direction axisX) (Line.direction upright) / (1 * 1))
    with 0 by (unfold Vector.dot; simpl; field).
  rewrite acos_0; simpl.
  pose proof PI_gt_3 as HPI; pose proof precision_small as Hs.
  apply orb_false_intro; apply Rleb_false.
  - rewrite Rabs_right by lra; lra.
  - rewrite Rabs_left by lra; lra.
Qed.

Lemma upright_crosses : pointAt axisX 2 = pointAt upright 1.
Proof. unfold pointAt, Vector.add, Vector.x; simpl; f_equal; ring. Qed.

Lemma Line_intersection_of_crossing_lines_witness :
  unitLine axisX /\ unitLine upright /\
  pointAt axisX 2 = pointAt upright 1 /\
  Line.isParallelTo axisX upright Sylvester.precision = false /\
  (forall eps, 0 <= eps -> Line.intersects axisX upright eps = true) /\
  Line.intersectionWith axisX upright = Some (pointAt axisX 2).
Proof.
  split; [exact axisX_unit |]; split; [exact upright_unit |].
  split; [exact upright_crosses |]; split; [exact upright_not_parallel |].
  exact (Line_intersection_of_crossing_lines axisX upright 2 1
           axisX_unit upright_unit upright_crosses upright_not_parallel).
Defined.

Lemma fan_shape_witness :
  exists ts,
    trianglesForSurfaceIntegral dartPolygon = Return ts /\
    length ts = (length (vertices dartPolygon) - 2)%nat /\
    forall i t,
      nth_error ts i = Some t ->
      exists a b c,
        nth_error (vertices dartPolygon) 0 = Some a /\
        nth_error (vertices dartPolygon) (i + 1) = Some b /\
        nth_error (vertices dartPolygon) (i + 2) = Some c /\
        vertices t = [a; b; c].
Proof.
  destruct (dart_fan dartPolygon eq_refl eq_refl) as [t1 [t2 [H _]]].
  exists [t1; t2]; split; [exact H |].
  exact (fan_shape dartPolygon [t1; t2] H).
Defined.
